(** * NYC Open Data MCP: reliability and data-shaping layer

    A shallow embedding of the JavaScript sources
      - [lib/reliability.js]      (query cache, retry, pagination),
      - [lib/time-windows.js]     (custom time windows),
      - [lib/input-validation.js] (borough validation),
      - [lib/standard-envelope.js] (error envelopes),
      - [mcps/nyc-dot/tools/search_street_closures] (closure de-duplication),
      - [mcps/nyc-311/tools/analyze_trends_v2.js] and the trend and
        de-duplication helpers of the test suite,
    followed by the properties proved about them.  A second group of
    definitions covers the rest of these files: cache statistics, the
    standard windows, the other validators and [batchValidate], the
    envelope constructors and [validateEnvelope], and the parameter
    handling, query and summary code of the two tools.

    Conventions.  JavaScript numbers that the code only uses as counts,
    indices, HTTP statuses or millisecond time stamps are integers [Z];
    averages, percentages and delays are exact rationals [Q].  Exceptions
    are an explicit outcome; module-level mutable state is threaded
    explicitly; the host (clock, random generator, timers, hashing) is a
    parameter. *)

From Stdlib Require Import ZArith QArith Qround Qabs Qminmax List String Ascii Lia Bool.
From Stdlib Require Import DecimalString Permutation Lqa Qpower.
Import ListNotations.

Open Scope string_scope.
Open Scope Z_scope.

(* ================================================================== *)
(** * Definitions *)
(* ================================================================== *)

(** ** JavaScript values and the few built-ins the code relies on *)

Module Js.

(** Primitive values, as they occur in record fields, keys and
    parameters. *)
Inductive prim : Type :=
| PUndefined
| PNull
| PBool (b : bool)
| PNum (n : Z)
| PStr (s : string).

(** ToBoolean: what [if (x)] and [!x] test. *)
Definition truthy (p : prim) : bool :=
  match p with
  | PUndefined | PNull => false
  | PBool b => b
  | PNum n => negb (n =? 0)
  | PStr s => negb (s =? EmptyString)%string
  end.

(** ToString, as applied by template literals and [toString()]. *)
Definition toString (p : prim) : string :=
  match p with
  | PUndefined => "undefined"
  | PNull => "null"
  | PBool true => "true"
  | PBool false => "false"
  | PNum n => NilZero.string_of_int (Z.to_int n)
  | PStr s => s
  end.

(** SameValueZero on primitives: the equality of [Set], [Map] and
    [Array.prototype.includes].  No coercion between types. *)
Definition sameValueZero (a b : prim) : bool :=
  match a, b with
  | PUndefined, PUndefined => true
  | PNull, PNull => true
  | PBool x, PBool y => Bool.eqb x y
  | PNum x, PNum y => x =? y
  | PStr x, PStr y => (x =? y)%string
  | _, _ => false
  end.

(** [Array.prototype.includes] on a list of primitives. *)
Definition includes (l : list prim) (x : prim) : bool :=
  existsb (sameValueZero x) l.

(** [Array.prototype.includes] on a list of strings. *)
Definition includes_str (l : list string) (x : string) : bool :=
  existsb (String.eqb x) l.

(** The double-quote character, for messages that contain it. *)
Definition dquote : string := String (ascii_of_nat 34) EmptyString.

(** [Array.prototype.join]. *)
Definition join (sep : string) (l : list string) : string :=
  String.concat sep l.

(** [String.prototype.toUpperCase] on the ASCII letters. *)
Definition upper_ascii (c : ascii) : ascii :=
  let n := nat_of_ascii c in
  if (Nat.leb 97 n && Nat.leb n 122)%bool
  then ascii_of_nat (n - 32) else c.

Fixpoint toUpperCase (s : string) : string :=
  match s with
  | EmptyString => EmptyString
  | String c s' => String (upper_ascii c) (toUpperCase s')
  end.

(** [Array.prototype.slice(start, end)], with negative indices counted
    from the end and both bounds clamped to the array. *)
Definition clampIndex (len i : Z) : Z :=
  if i <? 0 then Z.max (len + i) 0 else Z.min i len.

Definition slice {A : Type} (l : list A) (start : Z) (stop : option Z)
  : list A :=
  let len := Z.of_nat (List.length l) in
  let k := clampIndex len start in
  let final := match stop with
               | None => len
               | Some e => clampIndex len e
               end in
  firstn (Z.to_nat (final - k)) (skipn (Z.to_nat k) l).

(** Plain objects with primitive fields: property list in insertion
    order; a missing property reads as [undefined]. *)
Definition obj : Type := list (string * prim).

Fixpoint get (o : obj) (field : string) : prim :=
  match o with
  | [] => PUndefined
  | (k, v) :: o' => if (k =? field)%string then v else get o' field
  end.

(** Insertion-ordered [Map] with string keys. *)
Section StringMap.
Context {V : Type}.

Definition smap : Type := list (string * V).

Fixpoint map_get (m : smap) (k : string) : option V :=
  match m with
  | [] => None
  | (k', v) :: m' => if (k' =? k)%string then Some v else map_get m' k
  end.

Definition map_has (m : smap) (k : string) : bool :=
  match map_get m k with Some _ => true | None => false end.

(** [set] overwrites in place when the key exists and appends
    otherwise. *)
Fixpoint map_set (m : smap) (k : string) (v : V) : smap :=
  match m with
  | [] => [(k, v)]
  | (k', v') :: m' =>
      if (k' =? k)%string then (k', v) :: m'
      else (k', v') :: map_set m' k v
  end.

(** [delete] leaves no binding of the key behind. *)
Fixpoint map_delete (m : smap) (k : string) : smap :=
  match m with
  | [] => []
  | (k', v') :: m' =>
      if (k' =? k)%string then map_delete m' k
      else (k', v') :: map_delete m' k
  end.

Definition map_size (m : smap) : Z := Z.of_nat (List.length m).

Definition map_keys (m : smap) : list string := map fst m.

Definition map_values (m : smap) : list V := map snd m.
End StringMap.

Arguments smap V : clear implicits.

End Js.

(** ** Error envelopes ([lib/standard-envelope.js]) *)

Module Envelope.
Import Js.

(** A property of the error object: a primitive or a list of strings. *)
Inductive field : Type :=
| FPrim (p : prim)
| FList (l : list string).

Record envelope : Type := {
  success : bool;
  error : list (string * field)
}.

Definition ERROR_INVALID_INPUT : string := "INVALID_INPUT".

Fixpoint set_field (o : list (string * field)) (k : string) (v : field)
  : list (string * field) :=
  match o with
  | [] => [(k, v)]
  | (k', v') :: o' =>
      if (k' =? k)%string then (k', v) :: o'
      else (k', v') :: set_field o' k v
  end.

(** [{ type, message, ...details }], then [guidance] when it is truthy. *)
Definition createErrorEnvelope (type message : string)
    (details : list (string * field)) (guidance : option string)
  : envelope :=
  let base := [("type", FPrim (PStr type));
               ("message", FPrim (PStr message))] in
  let spread :=
    fold_left (fun o kv => set_field o (fst kv) (snd kv)) details base in
  {| success := false;
     error :=
       match guidance with
       | Some g =>
           if truthy (PStr g) then set_field spread "guidance" (FPrim (PStr g))
           else spread
       | None => spread
       end |}.

End Envelope.

(** ** Borough validation ([lib/input-validation.js]) *)

Module Validation.
Import Js Envelope.

Definition VALID_BOROUGHS_codes : list string := ["1"; "2"; "3"; "4"; "5"].

Definition VALID_BOROUGHS_names : list string :=
  ["MANHATTAN"; "BRONX"; "BROOKLYN"; "QUEENS"; "STATEN ISLAND"].

Definition VALID_BOROUGHS_mapping : smap string :=
  [("1", "MANHATTAN"); ("2", "BRONX"); ("3", "BROOKLYN"); ("4", "QUEENS");
   ("5", "STATEN ISLAND");
   ("M", "MANHATTAN"); ("X", "BRONX"); ("K", "BROOKLYN"); ("Q", "QUEENS");
   ("R", "STATEN ISLAND")].

Record validation : Type := {
  valid : bool;
  normalized : option string;
  verror : option envelope
}.

Definition validateBorough (borough : prim) : validation :=
  if negb (truthy borough) then
    {| valid := true; normalized := None; verror := None |}
  else
    let upper := toUpperCase (toString borough) in
    if includes_str VALID_BOROUGHS_codes upper then
      {| valid := true; normalized := Some upper; verror := None |}
    else if includes_str VALID_BOROUGHS_names upper then
      {| valid := true; normalized := Some upper; verror := None |}
    else
      match map_get VALID_BOROUGHS_mapping upper with
      | Some name =>
          {| valid := true; normalized := Some name; verror := None |}
      | None =>
          {| valid := false; normalized := None;
             verror := Some (createErrorEnvelope
               ERROR_INVALID_INPUT
               ("Invalid borough: '" ++ toString borough
                  ++ "'. Must be one of: "
                  ++ join ", " VALID_BOROUGHS_names ++ " or codes 1-5")
               [("provided", FPrim borough);
                ("valid_names", FList VALID_BOROUGHS_names);
                ("valid_codes", FList VALID_BOROUGHS_codes)]
               (Some ("Use borough names (e.g., " ++ dquote ++ "MANHATTAN"
                      ++ dquote ++ ") or numeric codes (1-5)"))) |}
      end.

End Validation.


(** ** Trend calculation
    ([calculateTrend] of the trend tests, and the same block inlined in
    [analyzeTrends], [mcps/nyc-311/tools/analyze_trends_v2.js]) *)

Module Trend.
Import Js.

(** One entry of the timeline.  Counts are sums of per-type row counts. *)
Record periodRow : Type := {
  period : string;
  count : Z
}.

(** [0 < q] and [q < 0] on rationals, as booleans. *)
Definition Qpositive (q : Q) : bool :=
  match (0 ?= q)%Q with Lt => true | _ => false end.

Definition Qnegative (q : Q) : bool :=
  match (q ?= 0)%Q with Lt => true | _ => false end.

(** [l.reduce((sum, p) => sum + p.count, 0) / l.length] *)
Definition sumCounts (l : list periodRow) : Z :=
  fold_left (fun sum p => sum + count p) l 0.

Definition average (l : list periodRow) : Q :=
  (inject_Z (sumCounts l) / inject_Z (Z.of_nat (List.length l)))%Q.

Fixpoint zeros (n : nat) : string :=
  match n with
  | O => EmptyString
  | S n' => String "0" (zeros n')
  end.

(** The integer [n] for which [n / 10^f] is closest to [|x|], the larger
    one on a tie (step 10 of Number.prototype.toFixed). *)
Definition scaledRound (f : nat) (x : Q) : Z :=
  Qfloor (Qabs x * inject_Z (10 ^ Z.of_nat f) + (1 # 2))%Q.

(** [Number.prototype.toFixed(f)] on an exact rational below 10^21:
    sign, integer digits, a point and exactly [f] fraction digits. *)
Definition toFixed (f : nat) (x : Q) : string :=
  let s := if Qnegative x then "-" else EmptyString in
  let m := NilZero.string_of_int (Z.to_int (scaledRound f x)) in
  match f with
  | O => s ++ m
  | _ =>
      let k := String.length m in
      let m' := if Nat.leb k f then zeros (f + 1 - k) ++ m else m in
      let k' := String.length m' in
      s ++ substring 0 (k' - f) m' ++ "." ++ substring (k' - f) f m'
  end.

(** [parseFloat(x.toFixed(2))]: the value the two-digit rendering denotes. *)
Definition roundTo2 (x : Q) : Q :=
  let n := scaledRound 2 x in
  if Qnegative x then (- n # 100)%Q else (n # 100)%Q.

Record trend : Type := {
  direction : string;
  percentage_change : string;
  recent_avg : Q;
  previous_avg : Q
}.

(** The divide-by-zero guard shared by both copies of the code. *)
Definition percentageChange (recentAvg previousAvg : Q) : Q :=
  if Qpositive previousAvg then
    ((recentAvg - previousAvg) / previousAvg * 100)%Q
  else if Qpositive recentAvg then 999%Q
  else 0%Q.

Definition directionOf (pc : Q) : string :=
  if Qpositive pc then "increasing"
  else if Qnegative pc then "decreasing"
  else "stable".

(** [calculateTrend(timeline)]; [None] is the [null] result. *)
Definition calculateTrend (timeline : list periodRow) : option trend :=
  if Z.of_nat (List.length timeline) <? 14 then None
  else
    let recentPeriods := slice timeline (-7) None in
    let previousPeriods := slice timeline (-14) (Some (-7)) in
    let recentAvg := average recentPeriods in
    let previousAvg := average previousPeriods in
    let pc := percentageChange recentAvg previousAvg in
    Some {| direction := directionOf pc;
            percentage_change := toFixed 2 pc;
            recent_avg := roundTo2 recentAvg;
            previous_avg := roundTo2 previousAvg |}.

(** The trend block of [analyzeTrends]: [let trend = null;] overwritten
    when the timeline has at least 14 periods. *)
Definition analyzeTrends_trend (timeline : list periodRow) : option trend :=
  if 14 <=? Z.of_nat (List.length timeline) then
    let recentPeriods := slice timeline (-7) None in
    let previousPeriods := slice timeline (-14) (Some (-7)) in
    let recentAvg := average recentPeriods in
    let previousAvg := average previousPeriods in
    let pc := percentageChange recentAvg previousAvg in
    Some {| direction := directionOf pc;
            percentage_change := toFixed 2 pc;
            recent_avg := roundTo2 recentAvg;
            previous_avg := roundTo2 previousAvg |}
  else None.

End Trend.

(** ** De-duplication helpers ([test/deduplication.test.js]) *)

Module Dedup.
Import Js.

Record dedupResult : Type := {
  records : list obj;
  original_count : Z;
  deduplicated_count : Z;
  duplicates_removed : Z
}.

(** The three variables the [forEach] callback closes over:
    [seen], [deduplicated] and [duplicateCount]. *)
Definition dedupState : Type := (list prim * list obj * Z)%type.

Definition dedupStep (keyField : string) (st : dedupState) (record : obj)
  : dedupState :=
  let '(seen, deduplicated, duplicateCount) := st in
  let key := get record keyField in
  if negb (truthy key) then
    (* No key field - keep the record *)
    (seen, (deduplicated ++ [record])%list, duplicateCount)
  else if includes seen key then
    (seen, deduplicated, duplicateCount + 1)
  else
    (key :: seen, (deduplicated ++ [record])%list, duplicateCount).

Definition default_keyField : string := "unique_key".

(** [deduplicateRecords(records, keyField = 'unique_key')] *)
Definition deduplicateRecords (records : list obj) (keyField : option string)
  : dedupResult :=
  let field := match keyField with Some f => f | None => default_keyField end in
  let '(_, deduplicated, duplicateCount) :=
    fold_left (dedupStep field) records ([], [], 0) in
  {| records := deduplicated;
     original_count := Z.of_nat (List.length records);
     deduplicated_count := Z.of_nat (List.length deduplicated);
     duplicates_removed := duplicateCount |}.

(** An aggregated row: period, topic, a numeric count and whatever other
    properties the object carries. *)
Record aggRecord : Type := {
  period : prim;
  topic : prim;
  count : Z;
  rest : obj
}.

(** The composite key [`${record.period}|${record.topic}`]. *)
Definition aggKey (record : aggRecord) : string :=
  toString (period record) ++ "|" ++ toString (topic record).

Definition aggStep (aggregated : smap aggRecord) (record : aggRecord)
  : smap aggRecord :=
  let key := aggKey record in
  if map_has aggregated key then
    match map_get aggregated key with
    | Some existing =>
        (* existing.count += record.count, on the object held by the map *)
        map_set aggregated key
          {| period := period existing; topic := topic existing;
             count := count existing + count record;
             rest := rest existing |}
    | None => aggregated
    end
  else
    (* a fresh copy: { ...record } *)
    map_set aggregated key
      {| period := period record; topic := topic record;
         count := count record; rest := rest record |}.

(** [deduplicateAggregated(records)] *)
Definition deduplicateAggregated (records : list aggRecord) : list aggRecord :=
  map_values (fold_left aggStep records []).

End Dedup.

(** ** Street-closure de-duplication ([searchStreetClosures]) *)

Module Closures.
Import Js.

(** A raw row of the closures data set, as returned by the API. *)
Record rawClosure : Type := {
  segmentid : prim;
  raw_work_start_date : prim;
  raw_work_end_date : prim;
  onstreetname : prim;
  fromstreetname : prim;
  tostreetname : prim;
  raw_borough_code : prim;
  purpose : prim;
  the_geom : prim;
  uniqueid : prim
}.

(** A merged logical closure, as held in [closureMap]. *)
Record closure : Type := {
  segment_id : prim;
  work_start_date : prim;
  work_end_date : prim;
  on_street : prim;
  from_street : prim;
  to_street : prim;
  borough_code : prim;
  borough : prim;
  purposes : list prim;
  purpose_merged : prim;
  cd : prim;
  geometry : prim;
  unique_id : prim
}.

(** [mapBoroughCode]: [mapping[code] || code], for the five own keys of
    the table. *)
Definition mapBoroughCode (code : prim) : prim :=
  let mapping : smap string :=
    [("M", "MANHATTAN"); ("X", "BRONX"); ("B", "BROOKLYN"); ("Q", "QUEENS");
     ("S", "STATEN ISLAND")] in
  match map_get mapping (toString code) with
  | Some name => PStr name
  | None => code
  end.

(** [`${closure.segmentid}|${closure.work_start_date}|${closure.work_end_date}`] *)
Definition closureKey (c : rawClosure) : string :=
  toString (segmentid c) ++ "|" ++ toString (raw_work_start_date c)
    ++ "|" ++ toString (raw_work_end_date c).

(** [purposes.join('; ')] *)
Definition joinPurposes (l : list prim) : string :=
  join "; " (map toString l).

(** The body of [response.data.forEach(closure => ...)]. *)
Definition closureStep (closureMap : smap closure) (c : rawClosure)
  : smap closure :=
  let key := closureKey c in
  if map_has closureMap key then
    match map_get closureMap key with
    | Some existing =>
        if (truthy (purpose c) && negb (includes (purposes existing) (purpose c)))%bool
        then
          let purposes' := (purposes existing ++ [purpose c])%list in
          map_set closureMap key
            {| segment_id := segment_id existing;
               work_start_date := work_start_date existing;
               work_end_date := work_end_date existing;
               on_street := on_street existing;
               from_street := from_street existing;
               to_street := to_street existing;
               borough_code := borough_code existing;
               borough := borough existing;
               purposes := purposes';
               purpose_merged := PStr (joinPurposes purposes');
               cd := cd existing;
               geometry := geometry existing;
               unique_id := unique_id existing |}
        else closureMap
    | None => closureMap
    end
  else
    map_set closureMap key
      {| segment_id := segmentid c;
         work_start_date := raw_work_start_date c;
         work_end_date := raw_work_end_date c;
         on_street := onstreetname c;
         from_street := fromstreetname c;
         to_street := tostreetname c;
         borough_code := raw_borough_code c;
         borough := mapBoroughCode (raw_borough_code c);
         purposes := if truthy (purpose c) then [purpose c] else [];
         purpose_merged :=
           if truthy (purpose c) then purpose c else PStr "Unknown";
         cd := PNull;
         geometry := the_geom c;
         unique_id := uniqueid c |}.

Definition buildClosureMap (data : list rawClosure) : smap closure :=
  fold_left closureStep data [].

(** A closure with its derived activity fields
    ([{ ...closure, is_active, days_remaining, duration_days }]). *)
Record closureView : Type := {
  base : closure;
  is_active : bool;
  days_remaining : Z;
  duration_days : option Z
}.

Definition MS_PER_DAY : Z := 1000 * 60 * 60 * 24.

(** [Math.ceil(a / b)] for an integer numerator and a positive divisor. *)
Definition ceilDiv (a b : Z) : Z := - ((- a) / b).

Section Dates.
(** [new Date(x).getTime()]: [None] is an invalid date (NaN), for which
    every comparison is false and every difference is NaN. *)
Variable Date_parse : prim -> option Z.
(** The time value of [new Date()] when the rows are post-processed. *)
Variable today : Z.

Definition activity (c : closure) : closureView :=
  let startDate := Date_parse (work_start_date c) in
  let endDate := Date_parse (work_end_date c) in
  let isActive :=
    match startDate, endDate with
    | Some s, Some e => ((s <=? today) && (today <=? e))%bool
    | _, _ => false
    end in
  {| base := c;
     is_active := isActive;
     days_remaining :=
       match isActive, endDate with
       | true, Some e => ceilDiv (e - today) MS_PER_DAY
       | _, _ => 0
       end;
     duration_days :=
       match startDate, endDate with
       | Some s, Some e => Some (ceilDiv (e - s) MS_PER_DAY)
       | _, _ => None
       end |}.

(** [Array.from(closureMap.values()).map(...)]: the de-duplicated
    closures, one per key, in first-seen order. *)
Definition dedupedClosures (data : list rawClosure) : list closureView :=
  map activity (map_values (buildClosureMap data)).

End Dates.

End Closures.

(** ** Reliability primitives ([lib/reliability.js]) *)

Module Reliability.
Import Js.

(** *** Exceptions *)

(** An error object, as far as the retry policy looks at it:
    [error.response?.status] ([None] when there is no response or no
    status) and [error.message]. *)
Record jsError : Type := {
  response_status : option Z;
  message : string
}.

(** A thrown value: [undefined] (what an unassigned [lastError] holds, or
    what a callback may throw) or an error object. *)
Inductive thrown : Type :=
| ThrownUndefined
| ThrownError (e : jsError).

(** How a call ends: with a value or with an exception.  A rejected
    promise that is awaited is a [Throw]. *)
Inductive outcome (A : Type) : Type :=
| Return (a : A)
| Throw (t : thrown).

Arguments Return {A} a.
Arguments Throw {A} t.

(** Reading [.response] of [undefined] inside the [catch] block. *)
Definition typeError : jsError :=
  {| response_status := None;
     message := "Cannot read properties of undefined (reading 'response')" |}.

(** *** Configuration *)

Definition CACHE_DEFAULT_TTL : Z := 5 * 60 * 1000.
Definition CACHE_SHORT_TTL : Z := 60 * 1000.
Definition CACHE_LONG_TTL : Z := 30 * 60 * 1000.
Definition CACHE_MAX_SIZE : Z := 1000.

Definition HARD_CAPS_max_limit : Z := 10000.

Definition RETRY_max_attempts : Z := 3.
Definition RETRY_base_delay : Q := 1000.
Definition RETRY_max_delay : Q := 30000.
Definition RETRY_exponential_base : Q := 2.
Definition RETRY_jitter : Q := 1 # 10.

Definition REQUEST_WINDOW : Z := 60 * 1000.

(** *** The host

    What the module takes from the runtime: the clock, the random
    generator, timers, and the hashing and serialisation used for cache
    keys.  [H] is the state of the host; reading the clock or drawing a
    random number may change it. *)
Record hostOps (H : Type) : Type := {
  Date_now : H -> Z * H;
  Math_random : H -> Q * H;
  setTimeout : Q -> H -> H;
  md5_hex : string -> string;
  JSON_stringify : obj -> list string -> string;
  Array_sort : list string -> list string
}.

Arguments Date_now {H} _ _.
Arguments Math_random {H} _ _.
Arguments setTimeout {H} _ _ _.
Arguments md5_hex {H} _ _.
Arguments JSON_stringify {H} _ _ _.
Arguments Array_sort {H} _ _.

Section WithHost.

Context {H : Type} (ops : hostOps H).
(** Cached and returned payloads, with their truthiness. *)
Context {V : Type} (truthyV : V -> bool).

(** *** Module state *)

(** A cache entry [{ data, timestamp, ttl }]. *)
Record entry : Type := {
  entry_data : V;
  timestamp : Z;
  ttl : Z
}.

(** The module-level variables [queryCache], [requestCount] and
    [requestWindow], together with the host. *)
Record world : Type := {
  host : H;
  queryCache : smap entry;
  requestCount : Z;
  requestWindow : Z
}.

Definition with_host (w : world) (h : H) : world :=
  {| host := h; queryCache := queryCache w;
     requestCount := requestCount w; requestWindow := requestWindow w |}.

Definition with_cache (w : world) (c : smap entry) : world :=
  {| host := host w; queryCache := c;
     requestCount := requestCount w; requestWindow := requestWindow w |}.

(** Observable steps of one call of a wrapper: an invocation of the
    wrapped function, a retry warning, a pause. *)
Inductive event : Type :=
| EvInvoke
| EvWarn (attempt maxAttempts : Z) (delay : Q) (status : option Z)
         (msg : string)
| EvSleep (delay : Q).

Definition invocations (log : list event) : nat :=
  List.length (filter (fun e => match e with EvInvoke => true | _ => false end) log).

(** *** Cache *)

(** [getCacheKey(endpoint, params)] *)
Definition getCacheKey (endpoint : string) (params : obj) : string :=
  let sortedParams :=
    JSON_stringify ops params (Array_sort ops (map fst params)) in
  md5_hex ops (endpoint ++ ":" ++ sortedParams).

(** [getCached(cacheKey)]; [None] is [null]. *)
Definition getCached (cacheKey : string) (w : world) : option V * world :=
  match map_get (queryCache w) cacheKey with
  | None => (None, w)
  | Some cached =>
      let '(now, h) := Date_now ops (host w) in
      let age := now - timestamp cached in
      if age >? ttl cached then
        (None, with_cache (with_host w h) (map_delete (queryCache w) cacheKey))
      else
        (Some (entry_data cached), with_host w h)
  end.

(** [setCache(cacheKey, data, ttl = CACHE_CONFIG.DEFAULT_TTL)] *)
Definition setCache (cacheKey : string) (data : V) (ttl_arg : option Z)
    (w : world) : world :=
  let ttl_ := match ttl_arg with Some t => t | None => CACHE_DEFAULT_TTL end in
  let cache1 :=
    if map_size (queryCache w) >=? CACHE_MAX_SIZE then
      match map_keys (queryCache w) with
      | firstKey :: _ => map_delete (queryCache w) firstKey
      | [] => queryCache w
      end
    else queryCache w in
  let '(now, h) := Date_now ops (host w) in
  with_cache (with_host w h)
    (map_set cache1 cacheKey
       {| entry_data := data; timestamp := now; ttl := ttl_ |}).


(** *** Rate tracking *)

(** [trackRequest()] *)
Definition trackRequest (w : world) : world :=
  let '(now, h) := Date_now ops (host w) in
  let expired := now - requestWindow w >? REQUEST_WINDOW in
  {| host := h;
     queryCache := queryCache w;
     requestCount := (if expired then 0 else requestCount w) + 1;
     requestWindow := if expired then now else requestWindow w |}.

(** *** Retry *)

Record retryOptions : Type := {
  maxAttempts : option Z;
  baseDelay : option Q;
  maxDelay : option Q;
  exponentialBase : option Q;
  jitter : option Q
}.

(** [{}]: every option left to its default. *)
Definition defaultRetryOptions : retryOptions :=
  {| maxAttempts := None; baseDelay := None; maxDelay := None;
     exponentialBase := None; jitter := None |}.

Definition orDefault {A : Type} (o : option A) (d : A) : A :=
  match o with Some a => a | None => d end.

(** [status && status >= 400 && status < 500 && status !== 429] *)
Definition fatalStatus (status : option Z) : bool :=
  match status with
  | None => false
  | Some s =>
      (negb (s =? 0) && (400 <=? s) && (s <? 500) && negb (s =? 429))%bool
  end.

Section Retry.
(** The wrapped operation.  It is a closure whose behaviour may differ
    from one invocation to the next, so besides the world it is given
    the number of invocations this call of [withRetry] has already made. *)
Variable requestFn : Z -> world -> outcome V * world.
Variable options : retryOptions.

(** The destructured options, with their defaults. *)
Definition maxAttempts_ : Z := orDefault (maxAttempts options) RETRY_max_attempts.
Definition baseDelay_ : Q := orDefault (baseDelay options) RETRY_base_delay.
Definition maxDelay_ : Q := orDefault (maxDelay options) RETRY_max_delay.
Definition exponentialBase_ : Q :=
  orDefault (exponentialBase options) RETRY_exponential_base.
Definition jitter_ : Q := orDefault (jitter options) RETRY_jitter.

(** [Math.min(baseDelay * Math.pow(exponentialBase, attempt), maxDelay)] *)
Definition exponentialDelay (attempt : Z) : Q :=
  Qmin (baseDelay_ * Qpower exponentialBase_ attempt) maxDelay_.

(** The [for] loop.  [fuel] bounds the number of iterations; [None]
    would mean the bound was too small. *)
Fixpoint retryLoop (fuel : nat) (attempt : Z) (lastError : thrown)
    (w : world) (log : list event)
  : option (outcome V * world * list event) :=
  if attempt <? maxAttempts_ then
    match fuel with
    | O => None
    | S fuel' =>
        let w1 := trackRequest w in
        match requestFn attempt w1 with
        | (Return result, w2) => Some (Return result, w2, (log ++ [EvInvoke])%list)
        | (Throw error, w2) =>
            match error with
            | ThrownUndefined =>
                Some (Throw (ThrownError typeError), w2, (log ++ [EvInvoke])%list)
            | ThrownError e =>
                let status := response_status e in
                if fatalStatus status then
                  Some (Throw error, w2, (log ++ [EvInvoke])%list)
                else if attempt =? maxAttempts_ - 1 then
                  Some (Throw error, w2, (log ++ [EvInvoke])%list)
                else
                  let expDelay := exponentialDelay attempt in
                  let '(r, h1) := Math_random ops (host w2) in
                  let jitterAmount := (expDelay * jitter_ * (r - (1 # 2)) * 2)%Q in
                  let delay := (expDelay + jitterAmount)%Q in
                  let h2 := setTimeout ops delay h1 in
                  retryLoop fuel' (attempt + 1) error (with_host w2 h2)
                    (log ++ [EvInvoke;
                             EvWarn (attempt + 1) maxAttempts_ delay status (message e);
                             EvSleep delay])%list
            end
        end
    end
  else Some (Throw lastError, w, log).

(** [withRetry(requestFn, options)] *)
Definition withRetry (w : world) : option (outcome V * world * list event) :=
  retryLoop (Z.to_nat maxAttempts_) 0 ThrownUndefined w [].

End Retry.

(** *** Caching wrapper *)

Record cacheOptions : Type := {
  opt_ttl : option Z;
  opt_skipCache : option bool
}.

Definition defaultCacheOptions : cacheOptions :=
  {| opt_ttl := None; opt_skipCache := None |}.

Record cacheResult : Type := {
  data : V;
  cached : bool;
  cacheKey : string
}.

(** [withCache(endpoint, params, requestFn, options)] *)
Definition withCache (endpoint : string) (params : obj)
    (requestFn : world -> outcome V * world) (options : cacheOptions)
    (w : world) : outcome cacheResult * world * list event :=
  let ttl_ := orDefault (opt_ttl options) CACHE_DEFAULT_TTL in
  let skipCache := orDefault (opt_skipCache options) false in
  let key := getCacheKey endpoint params in
  let '(hit, w1) :=
    if negb skipCache then
      let '(c, w') := getCached key w in
      match c with
      | Some d => if truthyV d then (Some d, w') else (None, w')
      | None => (None, w')
      end
    else (None, w) in
  match hit with
  | Some d =>
      (Return {| data := d; cached := true; cacheKey := key |}, w1, [])
  | None =>
      match requestFn w1 with
      | (Return d, w2) =>
          let w3 := setCache key d (Some ttl_) w2 in
          (Return {| data := d; cached := false; cacheKey := key |}, w3,
           [EvInvoke])
      | (Throw e, w2) => (Throw e, w2, [EvInvoke])
      end
  end.

(** *** Pagination *)

Record paginateOptions : Type := {
  maxRecords : option Z;
  pageSize : option Z;
  maxPages : option Z
}.

Definition defaultPaginateOptions : paginateOptions :=
  {| maxRecords := None; pageSize := None; maxPages := None |}.

Section Paginate.
Context {R : Type}.
(** [requestFn(offset, pageSize)]; a result of [None] is a falsy
    non-array ([null], [undefined]). *)
Variable requestFn : Z -> Z -> world -> outcome (option (list R)) * world.
Variable options : paginateOptions.

(** The destructured options, with their defaults. *)
Definition maxRecords_ : Z := orDefault (maxRecords options) HARD_CAPS_max_limit.
Definition pageSize_ : Z := orDefault (pageSize options) 1000.
Definition maxPages_ : Z := orDefault (maxPages options) 10.

(** One request of a page: where it was asked and what came back
    ([None] when the request threw). *)
Record fetch : Type := {
  at_offset : Z;
  with_pageSize : Z;
  page_returned : option (option (list R))
}.

Definition len (l : list R) : Z := Z.of_nat (List.length l).

(** [return allRecords.slice(0, maxRecords)] *)
Definition finish (allRecords : list R) (w : world) (log : list fetch)
  : option (outcome (list R) * world * list fetch) :=
  Some (Return (slice allRecords 0 (Some maxRecords_)), w, log).

(** The [while] loop.  [fuel] bounds the number of iterations; [None]
    would mean the bound was too small. *)
Fixpoint paginateLoop (fuel : nat) (allRecords : list R) (offset page : Z)
    (w : world) (log : list fetch)
  : option (outcome (list R) * world * list fetch) :=
  if ((page <? maxPages_) && (len allRecords <? maxRecords_))%bool then
    match fuel with
    | O => None
    | S fuel' =>
        match requestFn offset pageSize_ w with
        | (Throw e, w1) =>
            Some (Throw e, w1,
                  (log ++ [{| at_offset := offset; with_pageSize := pageSize_;
                              page_returned := None |}])%list)
        | (Return records, w1) =>
            let log1 :=
              (log ++ [{| at_offset := offset; with_pageSize := pageSize_;
                          page_returned := Some records |}])%list in
            match records with
            | None => finish allRecords w1 log1
            | Some rs =>
                if len rs =? 0 then finish allRecords w1 log1
                else
                  let allRecords1 := (allRecords ++ rs)%list in
                  let offset1 := offset + pageSize_ in
                  let page1 := page + 1 in
                  if len allRecords1 >=? maxRecords_ then
                    finish allRecords1 w1 log1
                  else if len rs <? pageSize_ then
                    finish allRecords1 w1 log1
                  else
                    paginateLoop fuel' allRecords1 offset1 page1 w1 log1
            end
        end
    end
  else finish allRecords w log.

(** [autoPaginate(requestFn, options)] *)
Definition autoPaginate (w : world)
  : option (outcome (list R) * world * list fetch) :=
  paginateLoop (Z.to_nat maxPages_) [] 0 0 w [].

End Paginate.

End WithHost.

End Reliability.

(** ** Time windows ([lib/time-windows.js]) *)

Module TimeWindows.
Import Js.

(** *** Dates

    A [Date] is its time value: milliseconds since the epoch, or [None]
    for an invalid date (NaN).  The ISO string produced by
    [toISOString] denotes exactly that instant, so a window holds the
    instants themselves. *)
Definition date : Type := option Z.

Definition msPerDay : Z := 86400000.
Definition msPerHour : Z := 3600000.
Definition msPerMinute : Z := 60000.
Definition msPerSecond : Z := 1000.

(** The largest magnitude of a time value: 100,000,000 days. *)
Definition MAX_TIME : Z := 8640000000000000.

Definition TimeClip (t : Z) : date :=
  if Z.abs t >? MAX_TIME then None else Some t.

Definition Day (t : Z) : Z := t / msPerDay.
Definition TimeWithinDay (t : Z) : Z := t mod msPerDay.
Definition HourFromTime (t : Z) : Z := (t / msPerHour) mod 24.
Definition MinFromTime (t : Z) : Z := (t / msPerMinute) mod 60.
Definition SecFromTime (t : Z) : Z := (t / msPerSecond) mod 60.
Definition msFromTime (t : Z) : Z := t mod msPerSecond.

Definition MakeTime (hour min sec ms : Z) : Z :=
  hour * msPerHour + min * msPerMinute + sec * msPerSecond + ms.

Definition MakeDate (day time : Z) : Z := day * msPerDay + time.

Section LocalCalendar.
(** The offset of local time from UTC, in milliseconds: a time zone
    with a fixed offset. *)
Variable tza : Z.
(** The calendar: the day number of the first day of the month that
    contains a given day. *)
Variable monthStart : Z -> Z.

Definition LocalTime (t : Z) : Z := t + tza.
Definition UTC (t : Z) : Z := t - tza.

(** Day of the month, 1-based. *)
Definition DateFromTime (t : Z) : Z := Day t - monthStart (Day t) + 1.

(** [MakeDay(YearFromTime(t), MonthFromTime(t), dt)]: day [dt] of the
    month of [t], where [dt] may lie outside the month. *)
Definition MakeDayInMonthOf (t dt : Z) : Z := monthStart (Day t) + dt - 1.

(** [d.setHours(h, m, s, ms)] *)
Definition setHours (hour min sec ms : Z) (d : date) : date :=
  match d with
  | None => None
  | Some tv =>
      let t := LocalTime tv in
      TimeClip (UTC (MakeDate (Day t) (MakeTime hour min sec ms)))
  end.

(** [d.getDate()]; [None] is NaN. *)
Definition getDate (d : date) : option Z :=
  match d with
  | None => None
  | Some tv => Some (DateFromTime (LocalTime tv))
  end.

(** [d.setDate(dt)] *)
Definition setDate (dt : option Z) (d : date) : date :=
  match d, dt with
  | Some tv, Some n =>
      let t := LocalTime tv in
      TimeClip (UTC (MakeDate (MakeDayInMonthOf t n) (TimeWithinDay t)))
  | _, _ => None
  end.

Definition getHours (tv : Z) : Z := HourFromTime (LocalTime tv).
Definition getMinutes (tv : Z) : Z := MinFromTime (LocalTime tv).
Definition getSeconds (tv : Z) : Z := SecFromTime (LocalTime tv).
Definition getMilliseconds (tv : Z) : Z := msFromTime (LocalTime tv).

(** *** Windows *)

Record window : Type := {
  start : Z;
  end_ : Z;
  days : Z;
  type : string
}.

(** The result of a call: a window, or a thrown error with its
    constructor name and message. *)
Inductive windowResult : Type :=
| Window (w : window)
| Throws (name msg : string).

(** The argument of [getCustomWindow]: a Number with an integer value,
    or anything else ([3.5], [NaN], a string, [undefined], ...), given
    as the text that [`${days}`] renders for it. *)
Inductive daysArg : Type :=
| IntegerDays (n : Z)
| OtherDays (rendering : string).

Definition renderDays (days : daysArg) : string :=
  match days with
  | IntegerDays n => toString (PNum n)
  | OtherDays s => s
  end.

(** [!Number.isInteger(days) || days <= 0] *)
Definition rejected (days : daysArg) : bool :=
  match days with
  | IntegerDays n => n <=? 0
  | OtherDays _ => true
  end.

(** [getCustomWindow(days)], called when the clock reads [now]. *)
Definition getCustomWindow (now : Z) (days : daysArg) : windowResult :=
  match days with
  | OtherDays _ =>
      Throws "Error" ("Days must be a positive integer, got: " ++ renderDays days)
  | IntegerDays n =>
      if n <=? 0 then
        Throws "Error" ("Days must be a positive integer, got: " ++ renderDays days)
      else
        let end0 : date := Some now in
        let end1 := setHours 23 59 59 999 end0 in
        let start0 : date := end1 in
        let start1 :=
          setDate (option_map (fun d => d - n) (getDate start0)) start0 in
        let start2 := setHours 0 0 0 0 start1 in
        (* start.toISOString() is evaluated first, then end.toISOString();
           either throws a RangeError on an invalid date *)
        match start2, end1 with
        | Some s, Some e =>
            Window {| start := s; end_ := e; days := n; type := "custom" |}
        | _, _ => Throws "RangeError" "Invalid time value"
        end
  end.

(** [Math.round((endDate - startDate) / (1000 * 60 * 60 * 24))], the
    measure the window tests use. *)
Definition Math_round (q : Q) : Z := Qfloor (q + (1 # 2))%Q.

Definition elapsedDays (w : window) : Z :=
  Math_round (inject_Z (end_ w - start w) / inject_Z (1000 * 60 * 60 * 24))%Q.

End LocalCalendar.

(** A Gregorian instance of the calendar parameter: the day number of
    the first of the month, by the usual era/year-of-era computation. *)
Definition gregorianMonthStart (z : Z) : Z :=
  let z1 := z + 719468 in
  let era := z1 / 146097 in
  let doe := z1 - era * 146097 in
  let yoe := (doe - doe / 1460 + doe / 36524 - doe / 146096) / 365 in
  let doy := doe - (365 * yoe + yoe / 4 - yoe / 100) in
  let mp := (5 * doy + 2) / 153 in
  let d := doy - (153 * mp + 2) / 5 + 1 in
  z - (d - 1).

End TimeWindows.

(* ================================================================== *)
(** * Notions used in the statements, and sample inputs *)
(* ================================================================== *)

Section StatementNotions.
Import Js Dedup Closures Reliability.

(** ** De-duplication *)

Definition keyFieldOf (keyField : option string) : string :=
  match keyField with Some f => f | None => default_keyField end.

(** The state reached after the [forEach] over [rs]. *)
Definition dedupRun (field : string) (rs : list obj) : dedupState :=
  fold_left (dedupStep field) rs ([], [], 0).

(** The sum of the counts of the records of [rs] whose composite key is
    [k]. *)
Definition keyTotal (k : string) (rs : list aggRecord) : Z :=
  fold_right (fun r acc => if (aggKey r =? k)%string then count r + acc else acc)
             0 rs.

Definition countAt (m : smap aggRecord) (k : string) : Z :=
  match map_get m k with Some v => count v | None => 0 end.

(** Every entry of the map is filed under the key of its record. *)
Definition keyedByAggKey (m : smap aggRecord) : Prop :=
  forall k v, In (k, v) m -> aggKey v = k.

(** What [aggStep] files under the key of [r]. *)
Definition merged (m : smap aggRecord) (r : aggRecord) : aggRecord :=
  match map_get m (aggKey r) with
  | Some existing =>
      {| period := period existing; topic := topic existing;
         count := count existing + count r; rest := rest existing |}
  | None =>
      {| period := period r; topic := topic r; count := count r;
         rest := rest r |}
  end.

(** ** Street closures *)

(** The composite key of a merged closure, from the fields it keeps. *)
Definition closureKeyOf (c : closure) : string :=
  toString (segment_id c) ++ "|" ++ toString (work_start_date c)
    ++ "|" ++ toString (work_end_date c).

(** What [closureStep] leaves under the key of the row [c]. *)
Definition mergedClosure (m : smap closure) (c : rawClosure) : closure :=
  match map_get m (closureKey c) with
  | Some existing =>
      if (truthy (purpose c) && negb (includes (purposes existing) (purpose c)))%bool
      then
        {| segment_id := segment_id existing;
           work_start_date := work_start_date existing;
           work_end_date := work_end_date existing;
           on_street := on_street existing;
           from_street := from_street existing;
           to_street := to_street existing;
           borough_code := borough_code existing;
           borough := borough existing;
           purposes := (purposes existing ++ [purpose c])%list;
           purpose_merged :=
             PStr (joinPurposes (purposes existing ++ [purpose c])%list);
           cd := cd existing;
           geometry := geometry existing;
           unique_id := unique_id existing |}
      else existing
  | None =>
      {| segment_id := segmentid c;
         work_start_date := raw_work_start_date c;
         work_end_date := raw_work_end_date c;
         on_street := onstreetname c;
         from_street := fromstreetname c;
         to_street := tostreetname c;
         borough_code := raw_borough_code c;
         borough := mapBoroughCode (raw_borough_code c);
         purposes := if truthy (purpose c) then [purpose c] else [];
         purpose_merged :=
           if truthy (purpose c) then purpose c else PStr "Unknown";
         cd := PNull;
         geometry := the_geom c;
         unique_id := uniqueid c |}
  end.

(** The invariant of the loop over the rows [done] processed so far. *)
Record closureInv (done : list rawClosure) (m : smap closure) : Prop := {
  inv_nodup : NoDup (map_keys m);
  inv_keyed : forall k v, map_get m k = Some v -> closureKeyOf v = k;
  inv_present : forall row, In row done -> map_get m (closureKey row) <> None;
  inv_collects : forall row v, In row done ->
      map_get m (closureKey row) = Some v ->
      truthy (purpose row) = true -> In (purpose row) (purposes v);
  inv_sound : forall k v, map_get m k = Some v ->
      NoDup (purposes v)
      /\ forall p, In p (purposes v) ->
           truthy p = true
           /\ exists row, In row done /\ closureKey row = k /\ purpose row = p
}.

(** ** Retry and pagination logs *)

(** Number of pauses ([await sleep(delay)]) in a log: the retries. *)
Definition pauses (log : list event) : nat :=
  List.length (filter (fun e => match e with EvSleep _ => true | _ => false end) log).

(** The records a request brought back (none when it threw or returned
    a falsy value). *)
Definition pageOf {R : Type} (f : @fetch R) : list R :=
  match page_returned f with
  | Some (Some rs) => rs
  | _ => []
  end.

(** All records received by the requests of a log. *)
Definition accumulated {R : Type} (log : list (@fetch R)) : list R := flat_map pageOf log.

End StatementNotions.

Section RetryNotions.
Import Js Reliability.
Context {H : Type} (ops : hostOps H) {V : Type}.
Variable options : retryOptions.

(** One more step of the loop: the world in which the next attempt
    starts, after the warning and the pause. *)
Definition afterPause (attempt : Z) (w2 : @world H V) : @world H V :=
  let '(r, h1) := Math_random ops (host w2) in
  let expDelay := exponentialDelay options attempt in
  let delay := (expDelay + expDelay * jitter_ options * (r - (1 # 2)) * 2)%Q in
  with_host w2 (setTimeout ops delay h1).

End RetryNotions.

Section PaginateNotions.
Import Js Reliability.
Context {R : Type}.
Variable options : paginateOptions.

(** Every request but the last returned a non-empty, full page that
    left the total, counted from [n], below the cap. *)
Fixpoint stopsAsap (n : Z) (ext : list (@fetch R)) : Prop :=
  match ext with
  | [] => True
  | f :: rest =>
      match rest with
      | [] => True
      | _ :: _ =>
          exists rs, page_returned f = Some (Some rs)
            /\ rs <> [] /\ pageSize_ options <= len rs /\ n + len rs < maxRecords_ options
      end
      /\ stopsAsap (n + len (pageOf f)) rest
  end.

End PaginateNotions.

Section WindowNotions.
Import Js TimeWindows.
Variable tza : Z.

(** The instants of the window computed at [now] for [n] days: local
    midnight [n] calendar days before today, and the last millisecond of
    today. *)
Definition windowStart (now n : Z) : Z :=
  (Day (now + tza) - n) * msPerDay - tza.

Definition windowEnd (now : Z) : Z :=
  Day (now + tza) * msPerDay + 86399999 - tza.

End WindowNotions.

Section TrendSamples.
Import Js Trend.

(** 14 periods, the first 7 with count 0 and the last 7 with count 100;
    14 periods all 0; 10 periods. *)
Definition sampleTimeline (n : nat) (c : Z) : list periodRow :=
  repeat {| period := "2025-10-01"; count := c |} n.

End TrendSamples.

Section Samples.
Import Js Dedup Closures Reliability TimeWindows.

Definition keyed (k : prim) (v : prim) : obj :=
  [("unique_key", k); ("value", v)].



Definition pavingRow (p : prim) : rawClosure :=
  {| segmentid := PNum 1;
     raw_work_start_date := PStr "2025-01-01";
     raw_work_end_date := PStr "2025-01-10";
     onstreetname := PStr "BROADWAY";
     fromstreetname := PUndefined;
     tostreetname := PUndefined;
     raw_borough_code := PStr "M";
     purpose := p;
     the_geom := PUndefined;
     uniqueid := PUndefined |}.

(** A host for the examples: a clock that advances by one millisecond
    per reading, a constant random generator, timers that advance the
    clock, and transparent stand-ins for hashing, serialisation and
    sorting. *)
Definition sampleHost : hostOps Z :=
  {| Date_now := fun t => (t, t + 1);
     Math_random := fun t => ((1 # 4)%Q, t);
     setTimeout := fun d t => t + Qceiling d;
     md5_hex := fun s => s;
     JSON_stringify := fun params keys =>
       join "&" (map (fun k => k ++ "=" ++ toString (get params k)) keys);
     Array_sort := fun keys => keys |}.

Definition emptyWorld {V : Type} (t : Z) : @world Z V :=
  {| host := t; queryCache := []; requestCount := 0; requestWindow := 0 |}.

Definition httpError (status : Z) : jsError :=
  {| response_status := Some status; message := "Request failed" |}.

(** An operation that always fails with the given status. *)
Definition alwaysFails (status : Z) (i : Z) (w : @world Z string)
  : outcome string * @world Z string :=
  (Throw (ThrownError (httpError status)), w).

(** An operation that fails with 503 twice and then succeeds. *)
Definition failsTwice (i : Z) (w : @world Z string)
  : outcome string * @world Z string :=
  if i <? 2 then (Throw (ThrownError (httpError 503)), w)
  else (Return "rows", w).

Definition sampleParams : obj := [("limit", PNum 10)].

(** Producers over primitive payloads: one that returns rows, one that
    returns [null], one that fails. *)
Definition rowsProducer (w : @world Z prim) : outcome prim * @world Z prim :=
  (Return (PStr "rows"), w).

Definition nullProducer (w : @world Z prim) : outcome prim * @world Z prim :=
  (Return PNull, w).

Definition failingProducer (w : @world Z prim) : outcome prim * @world Z prim :=
  (Throw (ThrownError (httpError 503)), w).

Definition sampleKey : string := getCacheKey sampleHost "closures" sampleParams.

(** Two calls in a row with a producer that returns [null]. *)
Definition nullFirst : outcome (@cacheResult prim) * @world Z prim * list event :=
  withCache sampleHost truthy "closures" sampleParams nullProducer
    defaultCacheOptions (emptyWorld 0).

Definition nullSecond : outcome (@cacheResult prim) * @world Z prim * list event :=
  withCache sampleHost truthy "closures" sampleParams nullProducer
    defaultCacheOptions (snd (fst nullFirst)).

(** A cache whose only entry, under the sample key, expired long ago. *)
Definition staleWorld : @world Z prim :=
  {| host := 1000000;
     queryCache := [(sampleKey,
                     {| entry_data := PStr "old rows"; timestamp := 0;
                        ttl := CACHE_SHORT_TTL |})];
     requestCount := 0;
     requestWindow := 0 |}.

(** A data set of five rows, served page by page. *)
Definition fiveRows : list Z := [11; 12; 13; 14; 15].

Definition servePage (offset limit : Z) (w : @world Z prim)
  : outcome (option (list Z)) * @world Z prim :=
  (Return (Some (firstn (Z.to_nat limit) (skipn (Z.to_nat offset) fiveRows))), w).

Definition pagesOfTwo : paginateOptions :=
  {| maxRecords := None; pageSize := Some 2; maxPages := None |}.

Definition pagesOfTwoCapped : paginateOptions :=
  {| maxRecords := Some 3; pageSize := Some 2; maxPages := None |}.

(** The current instant of the examples: 3 November 2026, shortly after
    03:25 UTC; and New York's winter offset, five hours behind UTC. *)
Definition sampleNow : Z := 1793676345678.
Definition newYorkOffset : Z := - 5 * 3600000.

End Samples.

(* ================================================================== *)
(** * Further definitions: the rest of the cited files *)
(* ================================================================== *)

(** ** Further notions used in the statements *)

Section DedupNotions.
Import Js Dedup.

(** The keys that count for de-duplication: the truthy values of the
    key field, in the order of the records. *)
Definition keysOf (field : string) (l : list obj) : list prim :=
  filter truthy (map (fun r => get r field) l).

(** The sum of the counts of a list of aggregated rows. *)
Definition totalCount (l : list aggRecord) : Z :=
  fold_right (fun r acc => count r + acc) 0 l.

End DedupNotions.

(** ** Summary of the street-closure search ([searchStreetClosures]) *)

Module ClosureSummary.
Import Js Closures.

(** The counts reported in [meta]. *)
Record summary : Type := {
  total_closures : Z;
  active_closures : Z;
  inactive_closures : Z;
  raw_api_count : Z;
  duplicates_removed : Z;
  deduplication_rate : Q
}.

(** The summary statistics, computed from the raw rows [data] and from
    the de-duplicated closures as they stand after the in-place sort by
    end date ([sorted], some rearrangement of the de-duplicated list). *)
Definition summarize (data : list rawClosure) (sorted : list closureView)
  : summary :=
  let totalClosures := Z.of_nat (List.length sorted) in
  let activeClosures :=
    Z.of_nat (List.length (filter (fun c => is_active c) sorted)) in
  let rawCount := Z.of_nat (List.length data) in
  let duplicatesRemoved := rawCount - totalClosures in
  {| total_closures := totalClosures;
     active_closures := activeClosures;
     inactive_closures := totalClosures - activeClosures;
     raw_api_count := rawCount;
     duplicates_removed := duplicatesRemoved;
     deduplication_rate :=
       (* parseFloat(dedupeRate), where dedupeRate is the two-digit
          rendering of the percentage, or 0 without rows *)
       if rawCount >? 0 then
         Trend.roundTo2 (inject_Z duplicatesRemoved / inject_Z rawCount * 100)%Q
       else 0%Q |}.

End ClosureSummary.

(** ** Cache statistics ([getCacheStats], [lib/reliability.js]) *)

Module CacheStats.
Import Js Reliability.

Record cacheStats : Type := {
  total : Z;
  valid : Z;
  expired : Z;
  max_size : Z
}.

Section WithHost.
Context {H : Type} (ops : hostOps H) {V : Type}.

(** The callback of [queryCache.forEach]: one more expired or one more
    valid entry. *)
Definition countEntry (now : Z) (counts : Z * Z) (value : @entry V) : Z * Z :=
  let '(validEntries, expiredEntries) := counts in
  let age := now - timestamp value in
  if age >? ttl value then (validEntries, expiredEntries + 1)
  else (validEntries + 1, expiredEntries).

(** [getCacheStats()] *)
Definition getCacheStats (w : @world H V) : cacheStats * @world H V :=
  let '(now, h) := Date_now ops (host w) in
  let '(validEntries, expiredEntries) :=
    fold_left (countEntry now) (map_values (queryCache w)) (0, 0) in
  ({| total := map_size (queryCache w);
      valid := validEntries;
      expired := expiredEntries;
      max_size := CACHE_MAX_SIZE |},
   with_host w h).


End WithHost.

End CacheStats.

(** ** Further notions for the retry log *)

Section RetryLogNotions.
Import Js Reliability.

(** The delays of the pauses of a log, in order. *)
Definition sleeps (log : list event) : list Q :=
  flat_map (fun e => match e with EvSleep d => [d] | _ => [] end) log.

(** The outcomes after which [withRetry] makes no further attempt: a
    value, or an error object with a fatal status. *)
Definition endsRetry {V : Type} (res : outcome V) : Prop :=
  match res with
  | Return _ => True
  | Throw (ThrownError e) => fatalStatus (response_status e) = true
  | Throw ThrownUndefined => False
  end.

End RetryLogNotions.

(** ** Further notions for the pagination log *)

Section PaginateLogNotions.
Import Js Reliability.
Context {R : Type}.
Variable options : paginateOptions.

(** What a log extension [ext] of the loop, entered at [offset] with
    [base] records in hand, tells about the outcome. *)
Definition shaped (base : list R) (offset : Z) (out : outcome (list R))
    (ext : list (@fetch R)) : Prop :=
  (forall i f, nth_error ext i = Some f ->
     at_offset f = offset + Z.of_nat i * (pageSize_ options) /\ with_pageSize f = (pageSize_ options))
  /\ (forall rs, out = Return rs ->
        rs = firstn (Z.to_nat (maxRecords_ options)) (base ++ accumulated ext))
  /\ (forall t, out = Throw t ->
        exists pre f, ext = (pre ++ [f])%list /\ page_returned f = None)
  /\ (forall pre f post, ext = (pre ++ f :: post)%list -> post <> [] ->
        page_returned f <> None).

End PaginateLogNotions.

(** ** Structured values ([lib/standard-envelope.js] and its users) *)

Module Json.
Import Js.

(** The values held in envelopes and validation results: primitives,
    dates (by their time value), arrays and plain objects.  No
    recursion over these values is needed: no induction scheme. *)
Unset Elimination Schemes.
Inductive value : Type :=
| VPrim (p : prim)
| VDate (t : Z)
| VArr (items : list value)
| VObj (props : list (string * value)).
Set Elimination Schemes.

(** A plain object: its own properties in insertion order. *)
Definition object : Type := smap value.

Definition undefined : value := VPrim PUndefined.
Definition null : value := VPrim PNull.
Definition bool_ (b : bool) : value := VPrim (PBool b).
Definition num (n : Z) : value := VPrim (PNum n).
Definition str (s : string) : value := VPrim (PStr s).
Definition strings (l : list string) : value := VArr (map str l).

(** ToBoolean: every object, array and date is truthy. *)
Definition truthyValue (v : value) : bool :=
  match v with
  | VPrim p => truthy p
  | _ => true
  end.

(** [typeof] *)
Definition typeof (v : value) : string :=
  match v with
  | VPrim PUndefined => "undefined"
  | VPrim (PBool _) => "boolean"
  | VPrim (PNum _) => "number"
  | VPrim (PStr _) => "string"
  | _ => "object"
  end.

(** [o.k] on an object. *)
Definition getProp (o : object) (k : string) : value :=
  match map_get o k with
  | Some v => v
  | None => undefined
  end.

(** [v.k] on a value that is not [null] or [undefined]: none of the
    property names read here exists on a string, number, boolean, date
    or array. *)
Definition member (v : value) (k : string) : value :=
  match v with
  | VObj o => getProp o k
  | _ => undefined
  end.

(** [o.k = v], and the object spread [{ ...o, ...src }]. *)
Definition setProp (o : object) (k : string) (v : value) : object :=
  map_set o k v.

Definition spread (o src : object) : object :=
  fold_left (fun acc kv => setProp acc (fst kv) (snd kv)) src o.

(** [a && b] *)
Definition andAlso (a b : value) : value :=
  if truthyValue a then b else a.

(** The values of the simpler error objects of [Envelope]. *)
Definition ofField (f : Envelope.field) : value :=
  match f with
  | Envelope.FPrim p => VPrim p
  | Envelope.FList l => strings l
  end.

Definition ofEnvelope (e : Envelope.envelope) : object :=
  [("success", bool_ (Envelope.success e));
   ("error", VObj (map (fun kv => (fst kv, ofField (snd kv))) (Envelope.error e)))].

End Json.

(** ** The standard envelope ([lib/standard-envelope.js]) *)

Module StandardEnvelope.
Import Js Json.

Definition DATA_SOURCES_DOT_CLOSURES : string := "dot_street_closures".
Definition EVENT_TYPES_SEARCH : string := "search".
Definition ERROR_TYPES_INVALID_INPUT : string := "INVALID_INPUT".
Definition ERROR_TYPES_API_ERROR : string := "API_ERROR".
Definition ERROR_TYPES_VALIDATION_ERROR : string := "VALIDATION_ERROR".

(** [createSuccessEnvelope({ source, eventType, window, count, records,
    meta = {} })], for a [window] that is an object. *)
Definition createSuccessEnvelope (source eventType : value) (window : object)
    (count records meta : value) : object :=
  [("success", bool_ true);
   ("source", source);
   ("event_type", eventType);
   ("window", VObj [("start", getProp window "start");
                    ("end", getProp window "end");
                    ("days", getProp window "days");
                    ("type", getProp window "type")]);
   ("count", count);
   ("records", records);
   ("meta", match meta with
            | VPrim PUndefined => VObj []
            | _ => meta
            end)].

(** [createErrorEnvelope({ type, message, details = {}, guidance = null })] *)
Definition createErrorEnvelope (type message : value) (details : object)
    (guidance : value) : object :=
  let error := spread [("type", type); ("message", message)] details in
  [("success", bool_ false);
   ("error", VObj (if truthyValue guidance
                   then setProp error "guidance" guidance
                   else error))].

(** [validateEnvelope(envelope)]: the value of the [&&] chain. *)
Definition validateEnvelope (envelope : object) : value :=
  if negb (truthyValue (getProp envelope "success")) then
    let error := getProp envelope "error" in
    andAlso error (andAlso (member error "type") (member error "message"))
  else
    let window := getProp envelope "window" in
    andAlso (getProp envelope "source")
      (andAlso (getProp envelope "event_type")
        (andAlso window
          (andAlso (member window "start")
            (andAlso (member window "end")
              (andAlso (bool_ (typeof (getProp envelope "count") =? "number")%string)
                (andAlso (bool_ match getProp envelope "records" with
                                | VArr _ => true
                                | _ => false
                                end)
                  (bool_ match getProp envelope "meta" with
                         | VPrim PUndefined => false
                         | _ => true
                         end))))))).

End StandardEnvelope.

(** ** Further string and array built-ins *)

Module JsStrings.
Import Js.

(** [String.prototype.toLowerCase] on the ASCII letters. *)
Definition lower_ascii (c : ascii) : ascii :=
  let n := nat_of_ascii c in
  if (Nat.leb 65 n && Nat.leb n 90)%bool
  then ascii_of_nat (n + 32) else c.

Fixpoint toLowerCase (s : string) : string :=
  match s with
  | EmptyString => EmptyString
  | String c s' => String (lower_ascii c) (toLowerCase s')
  end.

(** The single-quote character. *)
Definition quote : ascii := "'"%char.

(** [str.replace(/'/g, "''")] *)
Fixpoint doubleQuotes (s : string) : string :=
  match s with
  | EmptyString => EmptyString
  | String c s' =>
      if (c =? quote)%char then String quote (String quote (doubleQuotes s'))
      else String c (doubleQuotes s')
  end.

(** [str.length] *)
Definition length (s : string) : Z := Z.of_nat (String.length s).

(** [Array.prototype.indexOf] on strings: the first index, or -1. *)
Fixpoint indexOf (l : list string) (x : string) : Z :=
  match l with
  | [] => -1
  | y :: l' =>
      if (y =? x)%string then 0
      else let i := indexOf l' x in if i <? 0 then -1 else i + 1
  end.

(** [l[i]] *)
Definition at_index (l : list string) (i : Z) : prim :=
  if i <? 0 then PUndefined
  else match nth_error l (Z.to_nat i) with
       | Some s => PStr s
       | None => PUndefined
       end.

(** [Number.isInteger(p)], with the integer. *)
Definition Number_isInteger (p : prim) : option Z :=
  match p with
  | PNum n => Some n
  | _ => None
  end.

(** [p === undefined || p === null] *)
Definition nullish (p : prim) : bool :=
  match p with
  | PUndefined | PNull => true
  | _ => false
  end.

End JsStrings.

(** ** Input validation ([lib/input-validation.js])

    The arguments are primitive values; the numbers among them are
    integers. *)

Module InputValidation.
Import Js Json JsStrings StandardEnvelope.

(** What a validator returns: [{ valid, normalized?, escaped?, parsed?,
    error? }]; [None] is an absent property. *)
Record result : Type := {
  valid : bool;
  normalized : option value;
  escaped : option string;
  parsed : option Z;
  error : option object
}.

Definition accepted : result :=
  {| valid := true; normalized := None; escaped := None; parsed := None;
     error := None |}.

Definition rejectedWith (envelope : object) : result :=
  {| valid := false; normalized := None; escaped := None; parsed := None;
     error := Some envelope |}.

(** The result of [validateBorough], in this form. *)
Definition ofValidation (v : Validation.validation) : result :=
  {| valid := Validation.valid v;
     normalized := option_map str (Validation.normalized v);
     escaped := None;
     parsed := None;
     error := option_map ofEnvelope (Validation.verror v) |}.

(** The options of [validateDays] and [validateLimit]; [None] is an
    absent option. *)
Record rangeOptions : Type := {
  min : option Z;
  max : option Z;
  required : bool;
  defaultValue : option Z
}.

Definition noOptions : rangeOptions :=
  {| min := None; max := None; required := false; defaultValue := None |}.

Definition orElse {A : Type} (o : option A) (d : A) : A :=
  match o with
  | Some a => a
  | None => d
  end.

Definition quoted (s : string) : string := dquote ++ s ++ dquote.

Definition render (n : Z) : string := toString (PNum n).

(** [validateDays(days, options)] *)
Definition validateDays (days : prim) (options : rangeOptions) : result :=
  let min := orElse (min options) 1 in
  let max := orElse (max options) 365 in
  if nullish days then
    if required options then
      rejectedWith (createErrorEnvelope
        (str ERROR_TYPES_INVALID_INPUT)
        (str ("Parameter " ++ quoted "days" ++ " is required"))
        []
        (str ("Provide a number of days between " ++ render min ++ " and "
              ++ render max)))
    else accepted
  else
    match Number_isInteger days with
    | None =>
        rejectedWith (createErrorEnvelope
          (str ERROR_TYPES_INVALID_INPUT)
          (str ("Parameter " ++ quoted "days" ++ " must be an integer, got: "
                ++ toString days ++ " (" ++ typeof (VPrim days) ++ ")"))
          [("provided", VPrim days); ("type", str (typeof (VPrim days)))]
          (str ("Provide an integer between " ++ render min ++ " and "
                ++ render max)))
    | Some n =>
        if ((n <? min) || (n >? max))%bool then
          rejectedWith (createErrorEnvelope
            (str ERROR_TYPES_INVALID_INPUT)
            (str ("Parameter " ++ quoted "days" ++ " must be between "
                  ++ render min ++ " and " ++ render max ++ ", got: "
                  ++ toString days))
            [("provided", VPrim days);
             ("valid_range", VObj [("min", num min); ("max", num max)])]
            (str ("Use a value between " ++ render min ++ " and "
                  ++ render max ++ " days")))
        else accepted
    end.

(** [validateEnum(value, validValues, paramName = 'parameter',
    required = false)] *)
Definition validateEnum (value : prim) (validValues : list string)
    (paramName : option string) (required : bool) : result :=
  let paramName := orElse paramName "parameter" in
  if (nullish value || sameValueZero value (PStr EmptyString))%bool then
    if required then
      rejectedWith (createErrorEnvelope
        (str ERROR_TYPES_INVALID_INPUT)
        (str ("Parameter " ++ quoted paramName ++ " is required"))
        [("valid_options", strings validValues)]
        (str ("Provide one of: " ++ join ", " validValues)))
    else accepted
  else
    let normalized := toLowerCase (toString value) in
    let validNormalized := map toLowerCase validValues in
    if negb (includes_str validNormalized normalized) then
      rejectedWith (createErrorEnvelope
        (str ERROR_TYPES_INVALID_INPUT)
        (str ("Invalid " ++ paramName ++ ": '" ++ toString value
              ++ "'. Must be one of: " ++ join ", " validValues))
        [("provided", VPrim value); ("valid_options", strings validValues)]
        (str ("Use one of the valid options: " ++ join ", " validValues)))
    else
      let originalIndex := indexOf validNormalized normalized in
      {| valid := true;
         normalized := Some (VPrim (at_index validValues originalIndex));
         escaped := None; parsed := None; error := None |}.

(** A regular expression, as far as it is used: its [test] and its
    rendering. *)
Record regExp : Type := {
  test : string -> bool;
  regExp_toString : string
}.

(** The options of [validateAndEscapeString]. *)
Record stringOptions : Type := {
  maxLength : option Z;
  pattern : option regExp;
  string_required : bool;
  paramName : option string
}.

(** [validateAndEscapeString(value, options)] *)
Definition validateAndEscapeString (value : prim) (options : stringOptions)
  : result :=
  let maxLength := orElse (maxLength options) 1000 in
  let paramName := orElse (paramName options) "parameter" in
  if (nullish value || sameValueZero value (PStr EmptyString))%bool then
    if string_required options then
      rejectedWith (createErrorEnvelope
        (str ERROR_TYPES_INVALID_INPUT)
        (str ("Parameter " ++ quoted paramName ++ " is required"))
        []
        (str "Provide a non-empty string value"))
    else accepted
  else
    let s := toString value in
    if length s >? maxLength then
      rejectedWith (createErrorEnvelope
        (str ERROR_TYPES_INVALID_INPUT)
        (str ("Parameter " ++ quoted paramName ++ " exceeds maximum length of "
              ++ render maxLength ++ " characters"))
        [("provided_length", num (length s)); ("max_length", num maxLength)]
        (str ("Shorten your input to " ++ render maxLength
              ++ " characters or less")))
    else
      match pattern options with
      | Some re =>
          if negb (test re s) then
            rejectedWith (createErrorEnvelope
              (str ERROR_TYPES_INVALID_INPUT)
              (str ("Parameter " ++ quoted paramName
                    ++ " contains invalid characters"))
              [("provided", str s); ("pattern", str (regExp_toString re))]
              (str "Use only alphanumeric characters and basic punctuation"))
          else
            {| valid := true; normalized := None;
               escaped := Some (doubleQuotes s); parsed := None; error := None |}
      | None =>
          {| valid := true; normalized := None;
             escaped := Some (doubleQuotes s); parsed := None; error := None |}
      end.

(** [validateLimit(limit, options)] *)
Definition validateLimit (limit : prim) (options : rangeOptions) : result :=
  let min := orElse (min options) 1 in
  let max := orElse (max options) 1000 in
  let defaultValue := orElse (defaultValue options) 100 in
  if nullish limit then
    {| valid := true; normalized := Some (num defaultValue);
       escaped := None; parsed := None; error := None |}
  else
    match Number_isInteger limit with
    | None =>
        rejectedWith (createErrorEnvelope
          (str ERROR_TYPES_INVALID_INPUT)
          (str ("Parameter " ++ quoted "limit" ++ " must be an integer, got: "
                ++ toString limit))
          [("provided", VPrim limit); ("type", str (typeof (VPrim limit)))]
          (str ("Provide an integer between " ++ render min ++ " and "
                ++ render max)))
    | Some n =>
        if ((n <? min) || (n >? max))%bool then
          rejectedWith (createErrorEnvelope
            (str ERROR_TYPES_INVALID_INPUT)
            (str ("Parameter " ++ quoted "limit" ++ " must be between "
                  ++ render min ++ " and " ++ render max ++ ", got: "
                  ++ toString limit))
            [("provided", VPrim limit);
             ("valid_range", VObj [("min", num min); ("max", num max)])]
            (str ("Use a value between " ++ render min ++ " and "
                  ++ render max)))
        else
          {| valid := true; normalized := Some (VPrim limit);
             escaped := None; parsed := None; error := None |}
    end.

Section Dates.
(** [new Date(x).getTime()]: [None] is NaN. *)
Variable Date_parse : prim -> option Z.

(** [validateDate(date, paramName = 'date', required = false)] *)
Definition validateDate (date : prim) (paramName : option string)
    (required : bool) : result :=
  let paramName := orElse paramName "date" in
  if negb (truthy date) then
    if required then
      rejectedWith (createErrorEnvelope
        (str ERROR_TYPES_INVALID_INPUT)
        (str ("Parameter " ++ quoted paramName ++ " is required"))
        []
        (str "Provide a date in YYYY-MM-DD format"))
    else accepted
  else
    match Date_parse date with
    | None =>
        rejectedWith (createErrorEnvelope
          (str ERROR_TYPES_INVALID_INPUT)
          (str ("Invalid date format for " ++ quoted paramName ++ ": "
                ++ toString date))
          [("provided", VPrim date)]
          (str ("Use ISO 8601 format: YYYY-MM-DD (e.g., " ++ quoted "2025-01-15"
                ++ ")")))
    | Some t =>
        {| valid := true; normalized := None; escaped := None;
           parsed := Some t; error := None |}
    end.

End Dates.

(** [x !== undefined] for an optional property. *)
Definition defined (o : option value) : option value :=
  match o with
  | Some (VPrim PUndefined) => None
  | _ => o
  end.

(** The object spread of a value: the properties of an object, nothing
    for [undefined], [null] and the other values met here. *)
Definition spreadable (v : value) : object :=
  match v with
  | VObj o => o
  | _ => []
  end.

(** The body of the [for ... of Object.entries(validations)] loop of
    [batchValidate], on the pair [(errors, normalized)]; [None] when
    [result.error.error] is read on a result without [error] (a
    TypeError). *)
Definition batchStep (state : list value * object) (entry : string * result)
  : option (list value * object) :=
  let '(errors, normalized_) := state in
  let '(param, result) := entry in
  if negb (valid result) then
    match error result with
    | None => None
    | Some envelope =>
        Some ((errors ++ [VObj (spread [("param", str param)]
                                  (spreadable (getProp envelope "error")))])%list,
              normalized_)
    end
  else
    match defined (normalized result), escaped result, parsed result with
    | Some v, _, _ => Some (errors, setProp normalized_ param v)
    | None, Some s, _ => Some (errors, setProp normalized_ param (str s))
    | None, None, Some t => Some (errors, setProp normalized_ param (VDate t))
    | None, None, None => Some (errors, normalized_)
    end.

Fixpoint batchLoop (entries : list (string * result))
    (state : list value * object) : option (list value * object) :=
  match entries with
  | [] => Some state
  | entry :: rest =>
      match batchStep state entry with
      | None => None
      | Some state' => batchLoop rest state'
      end
  end.

(** [batchValidate(validations)], for the entries of [validations] in
    the order of [Object.entries]; [None] is the TypeError above. *)
Definition batchValidate (validations : list (string * result))
  : option result :=
  match batchLoop validations ([], []) with
  | None => None
  | Some (errors, normalized_) =>
      if Z.of_nat (List.length errors) >? 0 then
        Some (rejectedWith (createErrorEnvelope
          (str ERROR_TYPES_VALIDATION_ERROR)
          (str ("Validation failed for "
                ++ render (Z.of_nat (List.length errors)) ++ " parameter(s)"))
          [("errors", VArr errors)]
          (str "Fix the validation errors listed above")))
      else
        Some {| valid := true; normalized := Some (VObj normalized_);
                escaped := None; parsed := None; error := None |}
  end.

End InputValidation.

(** ** Standard time windows ([getTimeWindow], [lib/time-windows.js]) *)

Module StandardWindows.
Import Js TimeWindows.

(** [a === b] on primitives. *)
Definition strictEq (a b : prim) : bool := sameValueZero a b.

(** [Math.ceil] *)
Definition Math_ceil (q : Q) : Z := Qceiling q.

Section LocalCalendar.
Variable tza : Z.
Variable monthStart : Z -> Z.

(** [getTimeWindow(windowType = '90d')], called when the clock reads
    [now]. *)
Definition getTimeWindow (now : Z) (windowType : prim) : windowResult :=
  let windowType :=
    match windowType with
    | PUndefined => PStr "90d"
    | _ => windowType
    end in
  let end0 : date := Some now in
  let end1 := setHours tza 23 59 59 999 end0 in
  let start0 : date := end1 in
  let back (n : Z) : date :=
    setDate tza monthStart
      (option_map (fun d => d - n) (getDate tza monthStart start0)) start0 in
  let switch : option date :=
    if strictEq windowType (PStr "90d") then Some (back 90)
    else if (strictEq windowType (PStr "12m")
             || strictEq windowType (PStr "365d"))%bool then Some (back 365)
    else None in
  match switch with
  | None =>
      Throws "Error" ("Invalid window type: " ++ toString windowType
                      ++ ". Use '90d' or '12m'")
  | Some start1 =>
      let start2 := setHours tza 0 0 0 0 start1 in
      match start2, end1 with
      | Some s, Some e =>
          Window {| start := s;
                    end_ := e;
                    days := Math_ceil (inject_Z (e - s)
                                       / inject_Z (1000 * 60 * 60 * 24))%Q;
                    type := toString windowType |}
      | _, _ => Throws "RangeError" "Invalid time value"
      end
  end.

End LocalCalendar.

End StandardWindows.

(** ** The 311 trend tool ([mcps/nyc-311/tools/analyze_trends_v2.js]):
    parameters, window and grouping *)

Module AnalyzeTrends.
Import Js Json JsStrings InputValidation TimeWindows StandardWindows.

(** The parameters, [undefined] when absent. *)
Record params : Type := {
  complaint_type : prim;
  borough : prim;
  group_by : prim;
  days : prim
}.

(** A destructuring default: it replaces [undefined] only. *)
Definition defaultTo (p d : prim) : prim :=
  match p with
  | PUndefined => d
  | _ => p
  end.

Definition group_by_ (p : params) : prim := defaultTo (group_by p) (PStr "day").
Definition days_ (p : params) : prim := defaultTo (days p) (PNum 90).

(** [batchValidate({ group_by: ..., days: ..., borough: ...,
    complaint_type: ... })] *)
Definition validation (p : params) : option result :=
  batchValidate
    [("group_by",
      validateEnum (group_by_ p) ["day"; "week"; "month"] (Some "group_by") false);
     ("days",
      validateDays (days_ p)
        {| min := Some 1; max := Some 365; required := false;
           defaultValue := None |});
     ("borough", ofValidation (Validation.validateBorough (borough p)));
     ("complaint_type",
      validateAndEscapeString (complaint_type p)
        {| maxLength := Some 200; pattern := None; string_required := false;
           paramName := Some "complaint_type" |})].


Section LocalCalendar.
Variable tza : Z.
Variable monthStart : Z -> Z.


End LocalCalendar.

(** The [switch (group_by)] that chooses the date truncation. *)
Definition dateGroupExpr (group_by : prim) : string :=
  if strictEq group_by (PStr "week") then "date_trunc_ym(created_date)"
  else if strictEq group_by (PStr "month") then "date_trunc_ym(created_date)"
  else "date_trunc_ymd(created_date)".

(** The conditions of the [$where] clause, for the two rendered dates
    and for [normalized.complaint_type] and [normalized.borough] (a
    string or [undefined] each). *)
Definition whereConditions (startDate endDate : string)
    (complaint_type borough : prim) : list string :=
  let dates :=
    ["created_date >= '" ++ startDate ++ "'";
     "created_date <= '" ++ endDate ++ "'"] in
  let typeCondition :=
    if truthy complaint_type
    then ["complaint_type = '" ++ toString complaint_type ++ "'"] else [] in
  let boroughCondition :=
    if truthy borough then ["borough = '" ++ toString borough ++ "'"] else [] in
  List.app dates (List.app typeCondition boroughCondition).

(** [whereConditions.join(' AND ')] *)
Definition whereClause (conditions : list string) : string :=
  join " AND " conditions.

End AnalyzeTrends.

(** ** The street-closure tool: parameters and query
    ([searchStreetClosures]) *)

Module ClosureQuery.
Import Js Json JsStrings InputValidation StandardWindows.

Definition defaultTo (p d : prim) : prim :=
  match p with
  | PUndefined => d
  | _ => p
  end.

(** [batchValidate({ borough: ..., work_type: ..., limit: ... })], with
    the default [limit = 1000] of the destructuring. *)
Definition validation (borough work_type limit : prim) : option result :=
  batchValidate
    [("borough", ofValidation (Validation.validateBorough borough));
     ("work_type",
      validateAndEscapeString work_type
        {| maxLength := Some 100; pattern := None; string_required := false;
           paramName := Some "work_type" |});
     ("limit",
      validateLimit (defaultTo limit (PNum 1000))
        {| min := Some 1; max := Some 5000; required := false;
           defaultValue := Some 1000 |})].

(** The code put in the query for [normalized.borough]. *)
Definition boroughCode (borough : prim) : prim :=
  if strictEq borough (PStr "MANHATTAN") then PStr "M"
  else if strictEq borough (PStr "BRONX") then PStr "X"
  else if strictEq borough (PStr "BROOKLYN") then PStr "B"
  else if strictEq borough (PStr "QUEENS") then PStr "Q"
  else if strictEq borough (PStr "STATEN ISLAND") then PStr "S"
  else borough.

(** [query.$limit] *)
Definition queryLimit (normalized : object) : value := getProp normalized "limit".

(** The condition on the purpose, for [normalized.work_type] (a string
    or [undefined]). *)
Definition workTypeCondition (work_type : prim) : list string :=
  if truthy work_type then ["purpose LIKE '%" ++ toString work_type ++ "%'"]
  else [].

End ClosureQuery.

(** ** The 311 trend tool: the timeline *)

Module Timeline.
Import Js.

(** A row of the aggregated response: [row.period], [row.count] after
    [parseInt] (for a count that parses) and [row.complaint_type] as a
    property key. *)
Record row : Type := {
  row_period : string;
  row_count : Z;
  row_type : string
}.

(** An entry of [periodMap]: [{ period, count, types }]. *)
Record periodData : Type := {
  period : string;
  count : Z;
  types : smap Z
}.

(** [x || 0] for a property that may be absent. *)
Definition orZero (o : option Z) : Z :=
  match o with
  | Some n => n
  | None => 0
  end.

(** The body of [response.data.forEach(row => ...)]: the entry of the
    period is created when missing, then updated in place. *)
Definition periodStep (periodMap : smap periodData) (r : row)
  : smap periodData :=
  let period_ := row_period r in
  let count_ := row_count r in
  let type := row_type r in
  let periodMap1 :=
    if negb (map_has periodMap period_) then
      map_set periodMap period_ {| period := period_; count := 0; types := [] |}
    else periodMap in
  match map_get periodMap1 period_ with
  | Some periodData =>
      map_set periodMap1 period_
        {| period := period periodData;
           count := count periodData + count_;
           types := map_set (types periodData) type
                      (orZero (map_get (types periodData) type) + count_) |}
  | None => periodMap1
  end.

Definition buildPeriodMap (data : list row) : smap periodData :=
  fold_left periodStep data [].

(** An entry of the timeline: [{ period, count, top_types }]. *)
Record timelineEntry : Type := {
  entry_period : string;
  entry_count : Z;
  top_types : list (string * Z)
}.

Section Sorting.
(** [entries.sort((a, b) => b[1] - a[1])] on the entries of [types]. *)
Variable sortByCount : list (string * Z) -> list (string * Z).

(** The callback of [.map(period => ...)]. *)
Definition timelineEntryOf (p : periodData) : timelineEntry :=
  {| entry_period := period p;
     entry_count := count p;
     top_types := slice (sortByCount (types p)) 0 (Some 5) |}.

(** The timeline, for the entries of the map as the sort by period has
    arranged them. *)
Definition timelineOf (sorted : list periodData) : list timelineEntry :=
  map timelineEntryOf sorted.

End Sorting.

(** [timeline.reduce((sum, p) => sum + p.count, 0)] *)
Definition totalComplaints (timeline : list timelineEntry) : Z :=
  fold_left (fun sum p => sum + entry_count p) timeline 0.

End Timeline.

(** ** Further notions for the validated parameters *)

Section LiteralNotions.
Import Js JsStrings.

(** Reading the body of a single-quoted SoQL string literal, from just
    after its opening quote: two quotes in a row stand for one quote, a
    single quote ends the literal.  The result is the string denoted and
    the text that follows the closing quote; [None] when the literal is
    not closed. *)
Fixpoint readLiteral (s : string) : option (string * string) :=
  match s with
  | EmptyString => None
  | String c s' =>
      if (c =? quote)%char then
        match s' with
        | String c' s'' =>
            if (c' =? quote)%char then
              match readLiteral s'' with
              | Some (body, rest) => Some (String quote body, rest)
              | None => None
              end
            else Some (EmptyString, s')
        | EmptyString => Some (EmptyString, EmptyString)
        end
      else
        match readLiteral s' with
        | Some (body, rest) => Some (String c body, rest)
        | None => None
        end
  end.

(** The text does not begin with a quote. *)
Definition noLeadingQuote (s : string) : Prop :=
  match s with
  | EmptyString => True
  | String c _ => c <> quote
  end.

(** The string holds no quote. *)
Fixpoint quoteFree (s : string) : bool :=
  match s with
  | EmptyString => true
  | String c s' => (negb (c =? quote)%char && quoteFree s')%bool
  end.

End LiteralNotions.

Section BatchNotions.
Import Js Json JsStrings InputValidation.

(** The value a valid result carries into [normalized], if any:
    [normalized] first, then [escaped], then [parsed]. *)
Definition carried (r : result) : option value :=
  match defined (normalized r), escaped r, parsed r with
  | Some v, _, _ => Some v
  | None, Some s, _ => Some (str s)
  | None, None, Some t => Some (VDate t)
  | None, None, None => None
  end.

(** The results that failed, with their parameter names, in order. *)
Definition failures (validations : list (string * result))
  : list (string * result) :=
  filter (fun e => negb (valid (snd e))) validations.

End BatchNotions.

Section EnvelopeNotions.
Import Js Json JsStrings StandardEnvelope InputValidation.

(** A result of a validator is well formed: a valid one has no error; an
    invalid one has an error envelope with [success: false] whose error
    object has the given [type] and a non-empty message, and which
    [validateEnvelope] accepts, answering with that message. *)
Definition wellFormed (r : result) (type : string) : Prop :=
  (valid r = true -> error r = None)
  /\ (valid r = false ->
      exists e message,
        error r = Some e
        /\ getProp e "success" = bool_ false
        /\ member (getProp e "error") "type" = str type
        /\ member (getProp e "error") "message" = str message
        /\ message <> EmptyString
        /\ validateEnvelope e = str message).

End EnvelopeNotions.

Section ReportedType.
Import Js Json JsStrings StandardEnvelope InputValidation.

(** The [type] that the error of [validateDays] or [validateLimit]
    shows for an argument. *)
Definition reportedType (p : prim) : string :=
  if nullish p then ERROR_TYPES_INVALID_INPUT
  else match Number_isInteger p with
       | Some _ => ERROR_TYPES_INVALID_INPUT
       | None => typeof (VPrim p)
       end.

End ReportedType.

Section StandardWindowNotions.
Import Js TimeWindows StandardWindows.

(** The number of days a standard window type looks back, and the type
    it is reported under ([undefined] stands for the default). *)
Definition standardDays (windowType : prim) : option Z :=
  match windowType with
  | PUndefined => Some 90
  | PStr s =>
      if (s =? "90d")%string then Some 90
      else if ((s =? "12m") || (s =? "365d"))%string then Some 365
      else None
  | _ => None
  end.

Definition reportedWindowType (windowType : prim) : string :=
  match windowType with
  | PUndefined => "90d"
  | _ => toString windowType
  end.

(** The two instants of a window of [n] days are representable dates. *)
Definition representable (tza now n : Z) : Prop :=
  Z.abs (windowStart tza now n) <= MAX_TIME
  /\ Z.abs (windowEnd tza now) <= MAX_TIME.

End StandardWindowNotions.

Section TimelineNotions.
Import Js Timeline.

(** The sum of the counts of the rows, and of the rows of one period. *)
Definition rowTotal (rows : list row) : Z :=
  fold_right (fun r acc => row_count r + acc) 0 rows.

Definition periodTotal (p : string) (rows : list row) : Z :=
  rowTotal (filter (fun r => (row_period r =? p)%string) rows).

(** The sum of the counts held in the map of periods. *)
Definition heldTotal (m : smap periodData) : Z :=
  fold_right (fun kv acc => count (snd kv) + acc) 0 m.

End TimelineNotions.

(** ** Further sample inputs *)

Section MoreSamples.
Import Js Json JsStrings InputValidation AnalyzeTrends.


(** Three results for [batchValidate]: a limit out of range, an
    accepted string, a limit in range. *)
Definition sampleValidations : list (string * result) :=
  [("limit", validateLimit (PNum 0) noOptions);
   ("work_type",
    validateAndEscapeString (PStr "Paving")
      {| maxLength := None; pattern := None; string_required := false;
         paramName := Some "work_type" |});
   ("days", validateDays (PStr "30") noOptions)].

End MoreSamples.

Section TimelineSamples.
Import Js Timeline.

(** Three aggregated rows over two periods. *)
Definition sampleRows : list row :=
  [{| row_period := "2025-10-01"; row_count := 4; row_type := "Noise" |};
   {| row_period := "2025-10-02"; row_count := 1; row_type := "Noise" |};
   {| row_period := "2025-10-01"; row_count := 2; row_type := "Heat" |}].

End TimelineSamples.

(* ================================================================== *)
(** * Properties *)
(* ================================================================== *)

(** ** Facts about the JavaScript built-ins *)

Section JsFacts.
Import Js.

Lemma sameValueZero_eq (a b : prim) : sameValueZero a b = true <-> a = b.
Proof.
  destruct a, b; simpl; split; intro E;
    try reflexivity; try discriminate; try congruence.
  - apply Bool.eqb_prop in E. now subst.
  - inversion E. apply Bool.eqb_reflx.
  - apply Z.eqb_eq in E. now subst.
  - inversion E. apply Z.eqb_refl.
  - apply String.eqb_eq in E. now subst.
  - inversion E. apply String.eqb_refl.
Qed.

Lemma includes_In (l : list prim) (x : prim) : includes l x = true <-> In x l.
Proof.
  unfold includes. rewrite existsb_exists. split.
  - intros [y [Hin E]]. apply sameValueZero_eq in E. now subst.
  - intro Hin. exists x. split; [assumption | now apply sameValueZero_eq].
Qed.

Lemma includes_not_In (l : list prim) (x : prim) :
  includes l x = false <-> ~ In x l.
Proof.
  rewrite <- includes_In. destruct (includes l x); split; congruence.
Qed.

Context {V : Type}.
Implicit Types (m : smap V) (k : string) (v : V).

Lemma map_get_set m k k' v :
  map_get (map_set m k v) k' = if (k =? k')%string then Some v else map_get m k'.
Proof.
  induction m as [| [k0 v0] m IH]; simpl.
  - reflexivity.
  - destruct (String.eqb_spec k0 k) as [-> | Hne]; simpl.
    + destruct (String.eqb_spec k k'); reflexivity.
    + rewrite IH. destruct (String.eqb_spec k0 k') as [-> | Hne'].
      * destruct (String.eqb_spec k k'); [congruence | reflexivity].
      * reflexivity.
Qed.

Lemma map_get_set_same m k v : map_get (map_set m k v) k = Some v.
Proof. rewrite map_get_set, String.eqb_refl. reflexivity. Qed.

Lemma map_get_set_other m k k' v :
  k <> k' -> map_get (map_set m k v) k' = map_get m k'.
Proof.
  intro Hne. rewrite map_get_set.
  destruct (String.eqb_spec k k'); [contradiction | reflexivity].
Qed.

Lemma map_get_In m k v : map_get m k = Some v -> In (k, v) m.
Proof.
  induction m as [| [k0 v0] m IH]; simpl; [discriminate |].
  destruct (String.eqb_spec k0 k) as [-> | Hne].
  - intros [= ->]. now left.
  - intro E. right. now apply IH.
Qed.

Lemma map_get_None_keys m k : map_get m k = None <-> ~ In k (map_keys m).
Proof.
  induction m as [| [k0 v0] m IH]; simpl.
  - tauto.
  - destruct (String.eqb_spec k0 k) as [-> | Hne].
    + split; [discriminate | intro Hn; exfalso; apply Hn; now left].
    + rewrite IH. split.
      * intros Hn [E | Hin]; [congruence | contradiction].
      * intros Hn Hin. apply Hn. now right.
Qed.

Lemma In_map_get m k v :
  NoDup (map_keys m) -> In (k, v) m -> map_get m k = Some v.
Proof.
  induction m as [| [k0 v0] m IH]; simpl; [tauto |].
  intros Hnd [E | Hin].
  - inversion E; subst. now rewrite String.eqb_refl.
  - inversion Hnd as [| ? ? Hnotin Hnd']; subst.
    destruct (String.eqb_spec k0 k) as [-> | Hne].
    + exfalso. apply Hnotin. unfold map_keys.
      change k with (fst (k, v)). now apply in_map.
    + now apply IH.
Qed.

Lemma map_keys_set m k v :
  map_keys (map_set m k v) =
  if map_has m k then map_keys m else (map_keys m ++ [k])%list.
Proof.
  unfold map_has. induction m as [| [k0 v0] m IH]; simpl.
  - reflexivity.
  - destruct (String.eqb_spec k0 k) as [-> | Hne]; simpl.
    + reflexivity.
    + rewrite IH. destruct (map_get m k); reflexivity.
Qed.

Lemma map_keys_set_NoDup m k v :
  NoDup (map_keys m) -> NoDup (map_keys (map_set m k v)).
Proof.
  intro Hnd. rewrite map_keys_set. unfold map_has.
  destruct (map_get m k) eqn:E; [assumption |].
  apply map_get_None_keys in E.
  apply NoDup_app; [assumption | repeat constructor; simpl; tauto |].
  intros x Hin [<- | []]. contradiction.
Qed.

Lemma map_get_delete m k k' :
  map_get (map_delete m k) k' =
  if (k =? k')%string then None else map_get m k'.
Proof.
  induction m as [| [k0 v0] m IH]; simpl.
  - destruct (k =? k')%string; reflexivity.
  - destruct (String.eqb_spec k0 k) as [-> | Hne]; simpl.
    + rewrite IH. destruct (String.eqb_spec k k'); reflexivity.
    + rewrite IH. destruct (String.eqb_spec k0 k') as [-> | Hne'].
      * destruct (String.eqb_spec k k'); [congruence | reflexivity].
      * reflexivity.
Qed.

End JsFacts.

(** ** Borough validation *)

Section BoroughFacts.
Import Js Envelope Validation.

(** An input whose upper-cased text is one of the five names is accepted
    and normalised to that name, whatever its letter case. *)
Lemma validateBorough_name (b : prim) :
  truthy b = true ->
  In (toUpperCase (toString b)) VALID_BOROUGHS_names ->
  validateBorough b =
  {| valid := true; normalized := Some (toUpperCase (toString b));
     verror := None |}.
Proof.
  intros Ht Hin. unfold validateBorough. rewrite Ht. simpl negb. cbv iota.
  simpl in Hin.
  destruct Hin as [<- | [<- | [<- | [<- | [<- | []]]]]]; reflexivity.
Qed.

(** The one-letter codes map to the full names. *)
Lemma validateBorough_letter_codes :
  map (fun s => normalized (validateBorough (PStr s)))
      ["m"; "x"; "k"; "q"; "r"; "M"; "X"; "K"; "Q"; "R"]
  = map Some ["MANHATTAN"; "BRONX"; "BROOKLYN"; "QUEENS"; "STATEN ISLAND";
              "MANHATTAN"; "BRONX"; "BROOKLYN"; "QUEENS"; "STATEN ISLAND"].
Proof. reflexivity. Qed.

(** A numeric code is accepted by the [codes] test, which returns the
    code itself; the entries ["1"] to ["5"] of the mapping are never
    reached. *)
Lemma validateBorough_numeric_codes :
  map (fun s => normalized (validateBorough (PStr s))) VALID_BOROUGHS_codes
  = map Some VALID_BOROUGHS_codes
  /\ map (fun n => normalized (validateBorough (PNum n))) [1; 2; 3; 4; 5]
     = map Some VALID_BOROUGHS_codes.
Proof. split; reflexivity. Qed.

(** An input that is none of the codes, names or mapping keys is
    rejected with an [INVALID_INPUT] envelope that carries the five
    names. *)
Lemma validateBorough_unknown (b : prim) :
  truthy b = true ->
  includes_str VALID_BOROUGHS_codes (toUpperCase (toString b)) = false ->
  includes_str VALID_BOROUGHS_names (toUpperCase (toString b)) = false ->
  map_get VALID_BOROUGHS_mapping (toUpperCase (toString b)) = None ->
  exists env,
    validateBorough b =
      {| valid := false; normalized := None; verror := Some env |}
    /\ success env = false
    /\ In ("type", FPrim (PStr "INVALID_INPUT")) (error env)
    /\ In ("valid_names", FList VALID_BOROUGHS_names) (error env)
    /\ In ("message",
           FPrim (PStr ("Invalid borough: '" ++ toString b
             ++ "'. Must be one of: MANHATTAN, BRONX, BROOKLYN, QUEENS, STATEN ISLAND or codes 1-5")))
          (error env).
Proof.
  intros Ht Hc Hn Hm. unfold validateBorough.
  rewrite Ht, Hc, Hn, Hm. simpl negb. cbv iota.
  eexists. split; [reflexivity |].
  cbn. repeat split; auto 10.
Qed.

Example validateBorough_new_jersey :
  exists env,
    validateBorough (PStr "New Jersey") =
      {| valid := false; normalized := None; verror := Some env |}
    /\ In ("type", FPrim (PStr "INVALID_INPUT")) (error env)
    /\ In ("valid_names", FList VALID_BOROUGHS_names) (error env).
Proof.
  destruct (validateBorough_unknown (PStr "New Jersey"))
    as [env [E [_ [Ht [Hn _]]]]]; try reflexivity.
  exists env. auto.
Qed.

(** C3 (the code departs from the claim).  The claim has every
    two-letter short code accepted and normalised to the borough name,
    with ["bx"] giving BRONX.  [validateBorough] has no two-letter key in
    its mapping: ["bx"] is upper-cased to ["BX"], which is not a code, not
    a name and not a mapping key, so the input is rejected as invalid. *)
Theorem validateBorough_bx_rejected :
  valid (validateBorough (PStr "bx")) = false
  /\ normalized (validateBorough (PStr "bx")) = None
  /\ normalized (validateBorough (PStr "bx")) <> Some "BRONX".
Proof. repeat split; try reflexivity. discriminate. Qed.

End BoroughFacts.

(** ** Trend calculation *)

Section TrendFacts.
Import Js Trend.

Lemma Qpositive_true (q : Q) : (0 < q)%Q -> Qpositive q = true.
Proof.
  unfold Qpositive. intro Hq.
  destruct (Qcompare_spec 0 q) as [E | L | G]; try reflexivity; exfalso.
  - rewrite <- E in Hq. now apply (Qlt_irrefl 0).
  - apply (Qlt_irrefl 0). now apply Qlt_trans with q.
Qed.

Lemma Qpositive_zero (q : Q) : (q == 0)%Q -> Qpositive q = false.
Proof.
  unfold Qpositive. intro Hq.
  destruct (Qcompare_spec 0 q) as [E | L | G]; try reflexivity; exfalso.
  rewrite Hq in L. now apply (Qlt_irrefl 0).
Qed.

(** Both copies of the trend code compute the same thing. *)
Lemma analyzeTrends_trend_calculateTrend (timeline : list periodRow) :
  analyzeTrends_trend timeline = calculateTrend timeline.
Proof.
  unfold analyzeTrends_trend, calculateTrend.
  destruct (Z.ltb_spec (Z.of_nat (List.length timeline)) 14) as [Hlt | Hge];
    destruct (Z.leb_spec 14 (Z.of_nat (List.length timeline))) as [Hle | Hgt];
    try reflexivity; lia.
Qed.

(** With at least 14 periods the two sub-windows hold 7 periods each. *)
Lemma slice_recent_length {A : Type} (l : list A) :
  (14 <= List.length l)%nat -> List.length (slice l (-7) None) = 7%nat.
Proof.
  intro Hl. unfold slice, clampIndex. change (-7 <? 0) with true.
  cbv iota. rewrite length_firstn, length_skipn. lia.
Qed.

Lemma slice_previous_length {A : Type} (l : list A) :
  (14 <= List.length l)%nat ->
  List.length (slice l (-14) (Some (-7))) = 7%nat.
Proof.
  intro Hl. unfold slice, clampIndex.
  change (-7 <? 0) with true. change (-14 <? 0) with true.
  cbv iota. rewrite length_firstn, length_skipn. lia.
Qed.

(** C2.  For every timeline: with at least 14 periods, a previous 7-period
    average of 0 and a positive recent 7-period average, the trend has
    percentage_change "999.00" and direction "increasing"; with both
    averages 0 it has percentage_change "0.00" and direction "stable";
    with fewer than 14 periods the result is [null] ([None]).  The same
    holds of the block inlined in [analyzeTrends].  (Chronological order
    of the timeline is not needed.) *)
Theorem calculateTrend_divide_by_zero_guard (timeline : list periodRow) :
  let recentAvg := average (slice timeline (-7) None) in
  let previousAvg := average (slice timeline (-14) (Some (-7))) in
  ((14 <= List.length timeline)%nat ->
   (previousAvg == 0)%Q -> (0 < recentAvg)%Q ->
   exists t, calculateTrend timeline = Some t
     /\ analyzeTrends_trend timeline = Some t
     /\ percentage_change t = "999.00"
     /\ direction t = "increasing")
  /\
  ((14 <= List.length timeline)%nat ->
   (previousAvg == 0)%Q -> (recentAvg == 0)%Q ->
   exists t, calculateTrend timeline = Some t
     /\ analyzeTrends_trend timeline = Some t
     /\ percentage_change t = "0.00"
     /\ direction t = "stable")
  /\
  ((List.length timeline < 14)%nat ->
   calculateTrend timeline = None /\ analyzeTrends_trend timeline = None).
Proof.
  intros recentAvg previousAvg.
  rewrite analyzeTrends_trend_calculateTrend.
  unfold calculateTrend.
  fold recentAvg. fold previousAvg.
  destruct (Z.ltb_spec (Z.of_nat (List.length timeline)) 14) as [Hlt | Hge].
  - repeat split; intros; try lia; reflexivity.
  - split; [| split].
    + intros _ Hp Hr. eexists. split; [reflexivity |]. split; [reflexivity |].
      cbn [percentage_change direction]. unfold percentageChange.
      rewrite (Qpositive_zero _ Hp), (Qpositive_true _ Hr).
      split; reflexivity.
    + intros _ Hp Hr. eexists. split; [reflexivity |]. split; [reflexivity |].
      cbn [percentage_change direction]. unfold percentageChange.
      rewrite (Qpositive_zero _ Hp), (Qpositive_zero _ Hr).
      split; reflexivity.
    + intros Hlt. lia.
Qed.

Lemma calculateTrend_divide_by_zero_guard_witness :
  (exists t, calculateTrend (sampleTimeline 7 0 ++ sampleTimeline 7 100)%list = Some t
     /\ analyzeTrends_trend (sampleTimeline 7 0 ++ sampleTimeline 7 100)%list = Some t
     /\ percentage_change t = "999.00" /\ direction t = "increasing")
  /\ (exists t, calculateTrend (sampleTimeline 14 0) = Some t
     /\ analyzeTrends_trend (sampleTimeline 14 0) = Some t
     /\ percentage_change t = "0.00" /\ direction t = "stable")
  /\ (calculateTrend (sampleTimeline 10 100) = None
      /\ analyzeTrends_trend (sampleTimeline 10 100) = None).
Proof.
  split; [| split].
  - apply (proj1 (calculateTrend_divide_by_zero_guard
                    (sampleTimeline 7 0 ++ sampleTimeline 7 100)%list)).
    + simpl. lia.
    + reflexivity.
    + reflexivity.
  - apply (proj1 (proj2 (calculateTrend_divide_by_zero_guard
                           (sampleTimeline 14 0)))).
    + simpl. lia.
    + reflexivity.
    + reflexivity.
  - apply (proj2 (proj2 (calculateTrend_divide_by_zero_guard
                           (sampleTimeline 10 100)))).
    simpl. lia.
Defined.

End TrendFacts.

(** ** De-duplication by key *)

Section DedupFacts.
Import Js Dedup.

Lemma dedupRun_snoc (field : string) (rs : list obj) (r : obj) :
  dedupRun field (rs ++ [r]) = dedupStep field (dedupRun field rs) r.
Proof. unfold dedupRun. now rewrite fold_left_app. Qed.

Lemma deduplicateRecords_run (rs : list obj) (keyField : option string) :
  deduplicateRecords rs keyField =
  let '(_, deduplicated, duplicateCount) := dedupRun (keyFieldOf keyField) rs in
  {| records := deduplicated;
     original_count := Z.of_nat (List.length rs);
     deduplicated_count := Z.of_nat (List.length deduplicated);
     duplicates_removed := duplicateCount |}.
Proof. reflexivity. Qed.

(** [seen] holds exactly the truthy keys met so far. *)
Lemma dedupRun_seen (field : string) (rs : list obj) :
  forall k, In k (fst (fst (dedupRun field rs))) <->
            truthy k = true /\ exists r, In r rs /\ get r field = k.
Proof.
  induction rs as [| r rs IH] using rev_ind; intro k.
  - simpl. split; [tauto | intros [_ [r [[] _]]]].
  - rewrite dedupRun_snoc.
    destruct (dedupRun field rs) as [[seen d] c] eqn:E. simpl in IH.
    unfold dedupStep.
    destruct (truthy (get r field)) eqn:Ht; simpl negb; cbv iota.
    + destruct (includes seen (get r field)) eqn:Hi; simpl.
      * rewrite IH. split.
        -- intros [Hk [r' [Hin Hg]]]. split; [assumption |].
           exists r'. split; [apply in_or_app; now left | assumption].
        -- intros [Hk [r' [Hin Hg]]]. split; [assumption |].
           apply in_app_or in Hin. destruct Hin as [Hin | [<- | []]].
           ++ now exists r'.
           ++ apply includes_In in Hi. apply IH in Hi.
              destruct Hi as [_ Hex]. now rewrite <- Hg.
      * rewrite IH. split.
        -- intros [<- | [Hk [r' [Hin Hg]]]].
           ++ split; [assumption |]. exists r.
              split; [apply in_or_app; right; now left | reflexivity].
           ++ split; [assumption |]. exists r'.
              split; [apply in_or_app; now left | assumption].
        -- intros [Hk [r' [Hin Hg]]].
           apply in_app_or in Hin. destruct Hin as [Hin | [<- | []]].
           ++ right. split; [assumption | now exists r'].
           ++ now left.
    + simpl. rewrite IH. split.
      * intros [Hk [r' [Hin Hg]]]. split; [assumption |].
        exists r'. split; [apply in_or_app; now left | assumption].
      * intros [Hk [r' [Hin Hg]]]. split; [assumption |].
        apply in_app_or in Hin. destruct Hin as [Hin | [<- | []]].
        -- now exists r'.
        -- congruence.
Qed.

(** A record without a (truthy) key is appended and counted nowhere. *)
Lemma dedupRun_keyless (field : string) (rs : list obj) :
  (forall r, In r rs -> truthy (get r field) = false) ->
  dedupRun field rs = ([], rs, 0).
Proof.
  induction rs as [| r rs IH] using rev_ind; intro Hall.
  - reflexivity.
  - rewrite dedupRun_snoc, IH.
    + unfold dedupStep. rewrite (Hall r); [reflexivity |].
      apply in_or_app. right. now left.
    + intros r' Hin. apply Hall. apply in_or_app. now left.
Qed.

(** C7.  [deduplicateRecords] drops a record only when its key is
    present (truthy) and equal, as a value of the same type, to the key of
    an earlier record: appending a record [r] to the input (i) keeps [r]
    when its key is missing, (ii) drops it and counts one more duplicate
    when an earlier record has the same key, (iii) keeps it otherwise.
    Records keyed by the number 123 and by the string "123" are both kept,
    in either order, with no duplicate counted.  Records whose key is
    [null] or [undefined] all survive, with [duplicates_removed = 0]. *)
Theorem deduplicateRecords_strict_keys (keyField : option string) :
  let field := keyFieldOf keyField in
  (forall (pre : list obj) (r : obj),
     let before := deduplicateRecords pre keyField in
     let after := deduplicateRecords (pre ++ [r]) keyField in
     (truthy (get r field) = false ->
        records after = (records before ++ [r])%list
        /\ duplicates_removed after = duplicates_removed before)
     /\ (truthy (get r field) = true ->
         (exists r', In r' pre /\ get r' field = get r field) ->
        records after = records before
        /\ duplicates_removed after = duplicates_removed before + 1)
     /\ (truthy (get r field) = true ->
         ~ (exists r', In r' pre /\ get r' field = get r field) ->
        records after = (records before ++ [r])%list
        /\ duplicates_removed after = duplicates_removed before))
  /\
  (forall (a b : obj),
     let byNumber : obj := (field, PNum 123) :: a in
     let byString : obj := (field, PStr "123") :: b in
     deduplicateRecords [byNumber; byString] keyField =
       {| records := [byNumber; byString]; original_count := 2;
          deduplicated_count := 2; duplicates_removed := 0 |}
     /\ deduplicateRecords [byString; byNumber] keyField =
       {| records := [byString; byNumber]; original_count := 2;
          deduplicated_count := 2; duplicates_removed := 0 |})
  /\
  (forall (rs : list obj),
     (forall r, In r rs ->
        get r field = PUndefined \/ get r field = PNull) ->
     records (deduplicateRecords rs keyField) = rs
     /\ deduplicated_count (deduplicateRecords rs keyField)
        = Z.of_nat (List.length rs)
     /\ duplicates_removed (deduplicateRecords rs keyField) = 0).
Proof.
  intro field. split; [| split].
  - intros pre r before after. subst before after.
    rewrite !deduplicateRecords_run. fold field.
    rewrite dedupRun_snoc.
    pose proof (dedupRun_seen field pre) as Hseen.
    destruct (dedupRun field pre) as [[seen d] c]. simpl in Hseen.
    unfold dedupStep. split; [| split].
    + intros Ht. rewrite Ht. simpl. split; reflexivity.
    + intros Ht Hex. rewrite Ht. simpl negb. cbv iota.
      assert (Hi : includes seen (get r field) = true).
      { apply includes_In. apply Hseen. split; assumption. }
      rewrite Hi. simpl. split; reflexivity.
    + intros Ht Hnex. rewrite Ht. simpl negb. cbv iota.
      assert (Hi : includes seen (get r field) = false).
      { apply includes_not_In. intro Hin. apply Hseen in Hin.
        destruct Hin as [_ Hex]. contradiction. }
      rewrite Hi. simpl. split; reflexivity.
  - intros a b byNumber byString. subst byNumber byString.
    rewrite !deduplicateRecords_run. fold field.
    unfold dedupRun, dedupStep. simpl fold_left.
    cbn [get]. rewrite !String.eqb_refl. simpl. split; reflexivity.
  - intros rs Hall. rewrite deduplicateRecords_run. fold field.
    rewrite dedupRun_keyless.
    + simpl. repeat split.
    + intros r Hin. destruct (Hall r Hin) as [-> | ->]; reflexivity.
Qed.

Lemma deduplicateRecords_strict_keys_witness :
  (records (deduplicateRecords [keyed (PStr "A") (PNum 1); [("value", PNum 2)]] None)
     = [keyed (PStr "A") (PNum 1); [("value", PNum 2)]]
   /\ duplicates_removed
        (deduplicateRecords [keyed (PStr "A") (PNum 1); [("value", PNum 2)]] None) = 0)
  /\ (records (deduplicateRecords
                 [keyed (PStr "A") (PNum 1); keyed (PStr "A") (PNum 3)] None)
        = [keyed (PStr "A") (PNum 1)]
      /\ duplicates_removed
           (deduplicateRecords
              [keyed (PStr "A") (PNum 1); keyed (PStr "A") (PNum 3)] None) = 1)
  /\ (records (deduplicateRecords
                 [keyed (PStr "A") (PNum 1); keyed (PStr "B") (PNum 3)] None)
        = [keyed (PStr "A") (PNum 1); keyed (PStr "B") (PNum 3)]
      /\ duplicates_removed
           (deduplicateRecords
              [keyed (PStr "A") (PNum 1); keyed (PStr "B") (PNum 3)] None) = 0)
  /\ (records (deduplicateRecords
                 [[("value", PNum 1)]; [("value", PNum 2)]; [("value", PNum 3)]] None)
        = [[("value", PNum 1)]; [("value", PNum 2)]; [("value", PNum 3)]]
      /\ duplicates_removed
           (deduplicateRecords
              [[("value", PNum 1)]; [("value", PNum 2)]; [("value", PNum 3)]] None) = 0).
Proof.
  pose proof (deduplicateRecords_strict_keys None) as [Hstep [_ Hkeyless]].
  split; [| split; [| split]].
  - apply (proj1 (Hstep [keyed (PStr "A") (PNum 1)] [("value", PNum 2)])).
    reflexivity.
  - apply (proj1 (proj2 (Hstep [keyed (PStr "A") (PNum 1)]
                           (keyed (PStr "A") (PNum 3))))).
    + reflexivity.
    + exists (keyed (PStr "A") (PNum 1)). split; [now left | reflexivity].
  - apply (proj2 (proj2 (Hstep [keyed (PStr "A") (PNum 1)]
                           (keyed (PStr "B") (PNum 3))))).
    + reflexivity.
    + intros [r' [[<- | []] E]]. discriminate E.
  - destruct (Hkeyless [[("value", PNum 1)]; [("value", PNum 2)]; [("value", PNum 3)]])
      as [Hr [_ Hd]].
    + intros r [<- | [<- | [<- | []]]]; left; reflexivity.
    + split; assumption.
Defined.

End DedupFacts.

(** ** Aggregated de-duplication *)

Section AggregatedFacts.
Import Js Dedup.

Lemma In_map_set {V : Type} (m : smap V) (k : string) (v : V) (x : string * V) :
  In x (map_set m k v) -> x = (k, v) \/ In x m.
Proof.
  induction m as [| [k0 v0] m IH]; simpl.
  - intros [<- | []]. now left.
  - destruct (String.eqb_spec k0 k) as [-> | Hne]; simpl.
    + intros [<- | Hin]; [now left | right; now right].
    + intros [<- | Hin]; [right; now left |].
      destruct (IH Hin) as [-> | Hin']; [now left | right; now right].
Qed.

Lemma aggStep_set (m : smap aggRecord) (r : aggRecord) :
  aggStep m r = map_set m (aggKey r) (merged m r).
Proof.
  unfold aggStep, merged, map_has.
  destruct (map_get m (aggKey r)); reflexivity.
Qed.

Lemma merged_key (m : smap aggRecord) (r : aggRecord) :
  keyedByAggKey m -> aggKey (merged m r) = aggKey r.
Proof.
  intro Hk. unfold merged.
  destruct (map_get m (aggKey r)) as [existing |] eqn:E; [| reflexivity].
  apply map_get_In in E. apply Hk in E. exact E.
Qed.

Lemma aggStep_keyed (m : smap aggRecord) (r : aggRecord) :
  keyedByAggKey m -> keyedByAggKey (aggStep m r).
Proof.
  intros Hk k v. rewrite aggStep_set. intro Hin.
  apply In_map_set in Hin. destruct Hin as [[= -> ->] | Hin].
  - now apply merged_key.
  - now apply Hk.
Qed.

Lemma aggStep_NoDup (m : smap aggRecord) (r : aggRecord) :
  NoDup (map_keys m) -> NoDup (map_keys (aggStep m r)).
Proof. intro Hnd. rewrite aggStep_set. now apply map_keys_set_NoDup. Qed.

Lemma aggStep_countAt (m : smap aggRecord) (r : aggRecord) (k : string) :
  countAt (aggStep m r) k =
  countAt m k + (if (aggKey r =? k)%string then count r else 0).
Proof.
  unfold countAt. rewrite aggStep_set, map_get_set.
  destruct (String.eqb_spec (aggKey r) k) as [<- | Hne].
  - unfold merged. destruct (map_get m (aggKey r)); simpl; lia.
  - lia.
Qed.

Lemma aggStep_has (m : smap aggRecord) (r : aggRecord) (k : string) :
  map_has (aggStep m r) k = (map_has m k || (aggKey r =? k)%string)%bool.
Proof.
  unfold map_has. rewrite aggStep_set, map_get_set.
  destruct (String.eqb_spec (aggKey r) k) as [<- | Hne].
  - now rewrite orb_true_r.
  - now rewrite orb_false_r.
Qed.

Lemma fold_aggStep_invariants (rs : list aggRecord) (m : smap aggRecord) :
  keyedByAggKey m -> NoDup (map_keys m) ->
  keyedByAggKey (fold_left aggStep rs m)
  /\ NoDup (map_keys (fold_left aggStep rs m))
  /\ (forall k, countAt (fold_left aggStep rs m) k = countAt m k + keyTotal k rs)
  /\ (forall k, map_has (fold_left aggStep rs m) k
                = (map_has m k || existsb (fun r => (aggKey r =? k)%string) rs)%bool).
Proof.
  revert m. induction rs as [| r rs IH]; intros m Hk Hnd; simpl.
  - repeat split; try assumption.
    + intro k. lia.
    + intro k. now rewrite orb_false_r.
  - destruct (IH (aggStep m r) (aggStep_keyed m r Hk) (aggStep_NoDup m r Hnd))
      as [Hk' [Hnd' [Hc Hh]]].
    repeat split; try assumption.
    + intro k. rewrite Hc, aggStep_countAt.
      destruct (aggKey r =? k)%string; lia.
    + intro k. rewrite Hh, aggStep_has. now rewrite orb_assoc.
Qed.





End AggregatedFacts.

(** ** Street-closure de-duplication *)

Section ClosureFacts.
Import Js Closures.

Lemma map_get_keys_In {V : Type} (m : smap V) (k : string) (v : V) :
  map_get m k = Some v -> In k (map_keys m).
Proof.
  intro E. apply map_get_In in E. unfold map_keys.
  change k with (fst (k, v)). now apply in_map.
Qed.

(** Writing back the value a key already has changes nothing the
    code can observe. *)
Lemma closureStep_get (m : smap closure) (c : rawClosure) (k : string) :
  map_get (closureStep m c) k =
  if (closureKey c =? k)%string then Some (mergedClosure m c) else map_get m k.
Proof.
  unfold closureStep, mergedClosure, map_has.
  destruct (map_get m (closureKey c)) as [existing |] eqn:E.
  - destruct (truthy (purpose c) && negb (includes (purposes existing) (purpose c)))%bool.
    + apply map_get_set.
    + destruct (String.eqb_spec (closureKey c) k) as [<- | Hne];
        [assumption | reflexivity].
  - apply map_get_set.
Qed.

Lemma closureStep_keys (m : smap closure) (c : rawClosure) :
  map_keys (closureStep m c) =
  if map_has m (closureKey c) then map_keys m
  else (map_keys m ++ [closureKey c])%list.
Proof.
  unfold closureStep, map_has.
  destruct (map_get m (closureKey c)) as [existing |] eqn:E.
  - destruct (truthy (purpose c) && negb (includes (purposes existing) (purpose c)))%bool.
    + rewrite map_keys_set. unfold map_has. now rewrite E.
    + reflexivity.
  - rewrite map_keys_set. unfold map_has. now rewrite E.
Qed.

Lemma closureStep_NoDup (m : smap closure) (c : rawClosure) :
  NoDup (map_keys m) -> NoDup (map_keys (closureStep m c)).
Proof.
  intro Hnd. rewrite closureStep_keys. unfold map_has.
  destruct (map_get m (closureKey c)) eqn:E; [assumption |].
  apply map_get_None_keys in E.
  apply NoDup_app; [assumption | repeat constructor; simpl; tauto |].
  intros x Hin [<- | []]. contradiction.
Qed.

Lemma mergedClosure_key (done : list rawClosure) (m : smap closure)
    (c : rawClosure) :
  closureInv done m -> closureKeyOf (mergedClosure m c) = closureKey c.
Proof.
  intro Hinv. unfold mergedClosure.
  destruct (map_get m (closureKey c)) as [existing |] eqn:E.
  - pose proof (inv_keyed _ _ Hinv _ _ E) as Hk.
    destruct (truthy (purpose c) && negb (includes (purposes existing) (purpose c)))%bool;
      exact Hk.
  - reflexivity.
Qed.

Lemma mergedClosure_purposes (m : smap closure) (c : rawClosure) :
  truthy (purpose c) = true -> In (purpose c) (purposes (mergedClosure m c)).
Proof.
  intro Ht. unfold mergedClosure. rewrite Ht.
  destruct (map_get m (closureKey c)) as [existing |].
  - simpl andb. destruct (includes (purposes existing) (purpose c)) eqn:Hi; simpl.
    + now apply includes_In.
    + apply in_or_app. right. now left.
  - now left.
Qed.

Lemma mergedClosure_grows (m : smap closure) (c : rawClosure) (v : closure)
    (p : prim) :
  map_get m (closureKey c) = Some v ->
  In p (purposes v) -> In p (purposes (mergedClosure m c)).
Proof.
  intros E Hin. unfold mergedClosure. rewrite E.
  destruct (truthy (purpose c) && negb (includes (purposes v) (purpose c)))%bool;
    [| assumption].
  simpl. apply in_or_app. now left.
Qed.

Lemma closureStep_inv (done : list rawClosure) (m : smap closure)
    (c : rawClosure) :
  closureInv done m -> closureInv (done ++ [c]) (closureStep m c).
Proof.
  intro Hinv. constructor.
  - apply closureStep_NoDup. apply (inv_nodup _ _ Hinv).
  - intros k v. rewrite closureStep_get.
    destruct (String.eqb_spec (closureKey c) k) as [<- | Hne].
    + intros [= <-]. now apply (mergedClosure_key done).
    + apply (inv_keyed _ _ Hinv).
  - intros row Hin. rewrite closureStep_get.
    destruct (String.eqb_spec (closureKey c) (closureKey row)) as [E | Hne];
      [discriminate |].
    apply in_app_or in Hin. destruct Hin as [Hin | [<- | []]].
    + now apply (inv_present _ _ Hinv).
    + congruence.
  - intros row v Hin. rewrite closureStep_get.
    destruct (String.eqb_spec (closureKey c) (closureKey row)) as [E | Hne].
    + intros [= <-] Ht.
      apply in_app_or in Hin. destruct Hin as [Hin | [<- | []]].
      * destruct (map_get m (closureKey row)) as [v0 |] eqn:E0.
        -- apply (mergedClosure_grows m c v0); [now rewrite E |].
           now apply (inv_collects _ _ Hinv row).
        -- exfalso. now apply (inv_present _ _ Hinv row).
      * now apply mergedClosure_purposes.
    + intros E0 Ht.
      apply in_app_or in Hin. destruct Hin as [Hin | [<- | []]].
      * now apply (inv_collects _ _ Hinv row).
      * congruence.
  - intros k v. rewrite closureStep_get.
    destruct (String.eqb_spec (closureKey c) k) as [<- | Hne].
    + intros [= <-]. unfold mergedClosure.
      destruct (map_get m (closureKey c)) as [existing |] eqn:E.
      * destruct (inv_sound _ _ Hinv _ _ E) as [Hnd Hsrc].
        destruct (truthy (purpose c)) eqn:Ht; simpl andb.
        -- destruct (includes (purposes existing) (purpose c)) eqn:Hi; simpl.
           ++ split; [assumption |]. intros p Hp.
              destruct (Hsrc p Hp) as [Htp [row [Hin [Hk Hpr]]]].
              split; [assumption |]. exists row.
              split; [apply in_or_app; now left | now split].
           ++ split.
              ** apply NoDup_app; [assumption | repeat constructor; simpl; tauto |].
                 intros x Hx [<- | []]. apply includes_not_In in Hi. contradiction.
              ** intros p Hp. apply in_app_or in Hp.
                 destruct Hp as [Hp | [<- | []]].
                 --- destruct (Hsrc p Hp) as [Htp [row [Hin [Hk Hpr]]]].
                     split; [assumption |]. exists row.
                     split; [apply in_or_app; now left | now split].
                 --- split; [assumption |]. exists c.
                     split; [apply in_or_app; right; now left | now split].
        -- split; [assumption |]. intros p Hp.
           destruct (Hsrc p Hp) as [Htp [row [Hin [Hk Hpr]]]].
           split; [assumption |]. exists row.
           split; [apply in_or_app; now left | now split].
      * simpl. destruct (truthy (purpose c)) eqn:Ht.
        -- split; [repeat constructor; simpl; tauto |].
           intros p [<- | []]. split; [assumption |]. exists c.
           split; [apply in_or_app; right; now left | now split].
        -- split; [constructor | intros p []].
    + intro E. destruct (inv_sound _ _ Hinv _ _ E) as [Hnd Hsrc].
      split; [assumption |]. intros p Hp.
      destruct (Hsrc p Hp) as [Htp [row [Hin [Hk Hpr]]]].
      split; [assumption |]. exists row.
      split; [apply in_or_app; now left | now split].
Qed.

Lemma buildClosureMap_inv (data : list rawClosure) :
  closureInv data (buildClosureMap data).
Proof.
  unfold buildClosureMap.
  induction data as [| c data IH] using rev_ind.
  - constructor; simpl; try (intros; contradiction); try discriminate.
    constructor.
  - rewrite fold_left_app. simpl. now apply closureStep_inv.
Qed.

Lemma dedupedClosures_In (Date_parse : prim -> option Z) (today : Z)
    (data : list rawClosure) (v : closureView) :
  In v (dedupedClosures Date_parse today data) <->
  v = activity Date_parse today (base v)
  /\ map_get (buildClosureMap data) (closureKeyOf (base v)) = Some (base v).
Proof.
  pose proof (buildClosureMap_inv data) as Hinv.
  unfold dedupedClosures, map_values. rewrite map_map. rewrite in_map_iff.
  split.
  - intros [[k c] [<- Hin]]. simpl. split; [reflexivity |].
    apply (In_map_get _ _ _ (inv_nodup _ _ Hinv)) in Hin.
    now rewrite (inv_keyed _ _ Hinv _ _ Hin).
  - intros [Ev Hget]. exists (closureKeyOf (base v), base v).
    split; [now symmetry | now apply map_get_In].
Qed.

(** C5.  In the street-closure search, the rows are grouped by the
    composite key segment id | work start date | work end date: the
    de-duplicated list holds one record per key (its keys are pairwise
    distinct, and every row has its record), the purposes list of a record
    contains every purpose carried by a row of its group, without
    repetition and nothing else.  In particular two rows with the same
    segment, start and end dates and the purposes "Paving" and
    "Utility Work" give exactly one record, whose purposes list is
    "Paving", "Utility Work". *)
Theorem closures_merge_by_key (Date_parse : prim -> option Z) (today : Z)
    (data : list rawClosure) :
  let out := dedupedClosures Date_parse today data in
  NoDup (map (fun v => closureKeyOf (base v)) out)
  /\ (forall row, In row data ->
        exists v, In v out
          /\ closureKeyOf (base v) = closureKey row
          /\ (truthy (purpose row) = true ->
              In (purpose row) (purposes (base v))))
  /\ (forall v, In v out ->
        NoDup (purposes (base v))
        /\ forall p, In p (purposes (base v)) ->
             exists row, In row data
               /\ closureKey row = closureKeyOf (base v) /\ purpose row = p)
  /\ (forall r1 r2, data = [r1; r2] ->
        segmentid r1 = segmentid r2 ->
        raw_work_start_date r1 = raw_work_start_date r2 ->
        raw_work_end_date r1 = raw_work_end_date r2 ->
        purpose r1 = PStr "Paving" -> purpose r2 = PStr "Utility Work" ->
        exists v, out = [v]
          /\ purposes (base v) = [PStr "Paving"; PStr "Utility Work"]
          /\ purpose_merged (base v) = PStr "Paving; Utility Work").
Proof.
  intro out. pose proof (buildClosureMap_inv data) as Hinv.
  split; [| split; [| split]].
  - subst out. unfold dedupedClosures, map_values. rewrite !map_map.
    replace (map (fun x => closureKeyOf (base (activity Date_parse today (snd x))))
                 (buildClosureMap data))
      with (map_keys (buildClosureMap data)).
    + apply (inv_nodup _ _ Hinv).
    + unfold map_keys. apply map_ext_in. intros [k c] Hin. simpl.
      apply (In_map_get _ _ _ (inv_nodup _ _ Hinv)) in Hin.
      symmetry. apply (inv_keyed _ _ Hinv _ _ Hin).
  - intros row Hin.
    destruct (map_get (buildClosureMap data) (closureKey row)) as [c |] eqn:E.
    + exists (activity Date_parse today c).
      pose proof (inv_keyed _ _ Hinv _ _ E) as Hk.
      split; [| split].
      * apply dedupedClosures_In. simpl. split; [reflexivity |].
        now rewrite Hk.
      * exact Hk.
      * simpl. now apply (inv_collects _ _ Hinv row).
    + exfalso. now apply (inv_present _ _ Hinv row).
  - intros v Hin. apply dedupedClosures_In in Hin. destruct Hin as [_ Hget].
    destruct (inv_sound _ _ Hinv _ _ Hget) as [Hnd Hsrc].
    split; [assumption |]. intros p Hp.
    destruct (Hsrc p Hp) as [_ [row [Hin [Hk Hpr]]]].
    exists row. now repeat split.
  - intros r1 r2 -> Hs Hb He Hp1 Hp2. subst out.
    unfold dedupedClosures, buildClosureMap. cbn [fold_left].
    assert (Hkey : closureKey r2 = closureKey r1).
    { unfold closureKey. now rewrite Hs, Hb, He. }
    unfold closureStep at 2. cbn [map_has map_get].
    unfold closureStep. rewrite Hkey. cbn [map_set]. unfold map_has.
    cbn [map_get]. rewrite String.eqb_refl. rewrite Hp1, Hp2.
    cbn [truthy purposes includes existsb sameValueZero String.eqb Ascii.eqb
         Bool.eqb negb andb orb map_set].
    eexists. split; [reflexivity |]. split; reflexivity.
Qed.

Lemma closures_merge_by_key_witness :
  (exists v, In v (dedupedClosures (fun _ => None) 0
                     [pavingRow (PStr "Paving"); pavingRow (PStr "Utility Work")])
     /\ closureKeyOf (base v) = closureKey (pavingRow (PStr "Utility Work"))
     /\ (truthy (PStr "Utility Work") = true ->
         In (PStr "Utility Work") (purposes (base v))))
  /\ (exists v, dedupedClosures (fun _ => None) 0
                  [pavingRow (PStr "Paving"); pavingRow (PStr "Utility Work")] = [v]
        /\ purposes (base v) = [PStr "Paving"; PStr "Utility Work"]
        /\ purpose_merged (base v) = PStr "Paving; Utility Work").
Proof.
  pose proof (closures_merge_by_key (fun _ => None) 0
                [pavingRow (PStr "Paving"); pavingRow (PStr "Utility Work")])
    as [_ [Hex [_ Htwo]]].
  split.
  - apply (Hex (pavingRow (PStr "Utility Work"))). right. now left.
  - apply (Htwo (pavingRow (PStr "Paving")) (pavingRow (PStr "Utility Work")));
      reflexivity.
Defined.

End ClosureFacts.

(** ** Retry *)

Section RetryFacts.
Import Js Reliability.

Context {H : Type} (ops : hostOps H) {V : Type}.

Local Abbreviation world := (@world H V).

Lemma invocations_app (l1 l2 : list event) :
  invocations (l1 ++ l2) = (invocations l1 + invocations l2)%nat.
Proof. unfold invocations. now rewrite filter_app, length_app. Qed.

Lemma pauses_app (l1 l2 : list event) :
  pauses (l1 ++ l2) = (pauses l1 + pauses l2)%nat.
Proof. unfold pauses. now rewrite filter_app, length_app. Qed.

Variable requestFn : Z -> world -> outcome V * world.
Variable options : retryOptions.

Local Abbreviation N := (maxAttempts_ options).

(** The [for] loop always ends: the number of attempts left is a
    sufficient bound. *)
Lemma retryLoop_total (fuel : nat) :
  forall attempt lastError w log,
    (Z.to_nat (N - attempt) <= fuel)%nat ->
    retryLoop ops requestFn options fuel attempt lastError w log <> None.
Proof.
  induction fuel as [| fuel IH]; intros attempt lastError w log Hfuel.
  - simpl. destruct (Z.ltb_spec attempt N) as [Hlt | Hge]; [lia | discriminate].
  - simpl. destruct (Z.ltb_spec attempt N) as [Hlt | Hge]; [| discriminate].
    destruct (requestFn attempt (trackRequest ops w)) as [[result | error] w2];
      [discriminate |].
    destruct error as [| e]; [discriminate |].
    destruct (fatalStatus (response_status e)); [discriminate |].
    destruct (attempt =? N - 1); [discriminate |].
    destruct (Math_random ops (host w2)) as [r h1].
    apply IH. lia.
Qed.

(** A success ends the loop at once. *)
Lemma retryLoop_success (fuel : nat) (attempt : Z) (lastError : thrown)
    (w w2 : world) (log : list event) (v : V) :
  attempt < N ->
  requestFn attempt (trackRequest ops w) = (Return v, w2) ->
  retryLoop ops requestFn options (S fuel) attempt lastError w log
  = Some (Return v, w2, (log ++ [EvInvoke])%list).
Proof.
  intros Hlt E. simpl. destruct (Z.ltb_spec attempt N); [| lia].
  now rewrite E.
Qed.

(** A fatal status (4xx other than 429) ends the loop at once. *)
Lemma retryLoop_fatal (fuel : nat) (attempt : Z) (lastError : thrown)
    (w w2 : world) (log : list event) (e : jsError) :
  attempt < N ->
  requestFn attempt (trackRequest ops w) = (Throw (ThrownError e), w2) ->
  fatalStatus (response_status e) = true ->
  retryLoop ops requestFn options (S fuel) attempt lastError w log
  = Some (Throw (ThrownError e), w2, (log ++ [EvInvoke])%list).
Proof.
  intros Hlt E Hf. simpl. destruct (Z.ltb_spec attempt N); [| lia].
  now rewrite E, Hf.
Qed.

(** A retryable failure on the last attempt is rethrown. *)
Lemma retryLoop_last (fuel : nat) (lastError : thrown)
    (w w2 : world) (log : list event) (e : jsError) :
  0 < N ->
  requestFn (N - 1) (trackRequest ops w) = (Throw (ThrownError e), w2) ->
  retryLoop ops requestFn options (S fuel) (N - 1) lastError w log
  = Some (Throw (ThrownError e), w2, (log ++ [EvInvoke])%list).
Proof.
  intros Hpos E. simpl. destruct (Z.ltb_spec (N - 1) N); [| lia].
  rewrite E. destruct (fatalStatus (response_status e)); [reflexivity |].
  now rewrite Z.eqb_refl.
Qed.

(** A retryable failure before the last attempt: warn, pause, go on. *)
Lemma retryLoop_retry (fuel : nat) (attempt : Z) (lastError : thrown)
    (w w2 : world) (log : list event) (e : jsError) :
  attempt < N - 1 ->
  requestFn attempt (trackRequest ops w) = (Throw (ThrownError e), w2) ->
  fatalStatus (response_status e) = false ->
  exists delay,
    retryLoop ops requestFn options (S fuel) attempt lastError w log
    = retryLoop ops requestFn options fuel (attempt + 1) (ThrownError e)
        (afterPause ops options attempt w2)
        (log ++ [EvInvoke;
                 EvWarn (attempt + 1) N delay (response_status e) (message e);
                 EvSleep delay])%list.
Proof.
  intros Hlt E Hf. simpl. destruct (Z.ltb_spec attempt N); [| lia].
  rewrite E, Hf. destruct (Z.eqb_spec attempt (N - 1)); [lia |].
  unfold afterPause. destruct (Math_random ops (host w2)) as [r h1].
  eexists. reflexivity.
Qed.

(** When every attempt fails with a retryable error, the loop makes all
    the remaining attempts and rethrows what the last one threw. *)
Lemma retryLoop_exhausted (fuel : nat) :
  forall attempt lastError w log,
    0 <= attempt < N ->
    (Z.to_nat (N - attempt) <= fuel)%nat ->
    (forall i w0, attempt <= i < N ->
       exists e w', requestFn i w0 = (Throw (ThrownError e), w')
                    /\ fatalStatus (response_status e) = false) ->
    exists e wLast w' log',
      retryLoop ops requestFn options fuel attempt lastError w log
      = Some (Throw (ThrownError e), w', (log ++ log')%list)
      /\ requestFn (N - 1) wLast = (Throw (ThrownError e), w')
      /\ invocations log' = Z.to_nat (N - attempt)
      /\ pauses log' = Z.to_nat (N - attempt - 1).
Proof.
  induction fuel as [| fuel IH]; intros attempt lastError w log Ha Hfuel Hall.
  - lia.
  - destruct (Hall attempt (trackRequest ops w)) as [e [w2 [E Hf]]]; [lia |].
    destruct (Z.eq_dec attempt (N - 1)) as [-> | Hne].
    + exists e, (trackRequest ops w), w2, [EvInvoke].
      rewrite (retryLoop_last fuel lastError w w2 log e); [| lia | assumption].
      replace (N - (N - 1)) with 1 by lia.
      repeat split; try reflexivity. assumption.
    + destruct (retryLoop_retry fuel attempt lastError w w2 log e)
        as [delay Estep]; [lia | assumption | assumption |].
      rewrite Estep.
      destruct (IH (attempt + 1) (ThrownError e) (afterPause ops options attempt w2)
                  (log ++ [EvInvoke;
                           EvWarn (attempt + 1) N delay (response_status e) (message e);
                           EvSleep delay])%list)
        as [e' [wLast [w' [log' [Eloop [Elast [Hinv Hp]]]]]]].
      * lia.
      * lia.
      * intros i w0 Hi. apply Hall. lia.
      * exists e', wLast, w',
          ([EvInvoke;
            EvWarn (attempt + 1) N delay (response_status e) (message e);
            EvSleep delay] ++ log')%list.
        rewrite Eloop, <- app_assoc.
        split; [reflexivity |]. split; [assumption |].
        rewrite invocations_app, pauses_app, Hinv, Hp.
        unfold invocations, pauses. simpl. lia.
Qed.

End RetryFacts.

Section RetryPolicy.
Import Js Reliability.

Context {H : Type} (ops : hostOps H) {V : Type}.

Local Abbreviation world := (@world H V).

(** The statuses that make an error fatal are the 4xx other than 429. *)
Lemma fatalStatus_iff (status : option Z) :
  fatalStatus status = true <->
  exists s, status = Some s /\ 400 <= s < 500 /\ s <> 429.
Proof.
  unfold fatalStatus. destruct status as [s |].
  - rewrite !andb_true_iff, !negb_true_iff, !Z.eqb_neq, Z.leb_le, Z.ltb_lt.
    split.
    + intros [[[H0 H1] H2] H3]. exists s. repeat split; assumption.
    + intros [s' [[= <-] [[H1 H2] H3]]]. repeat split; try assumption. lia.
  - split; [discriminate | intros [s [[=] _]]].
Qed.

Lemma defaultRetryOptions_attempts : maxAttempts_ defaultRetryOptions = 3.
Proof. reflexivity. Qed.

(** [withRetry] always ends, with a value or an exception. *)
Lemma withRetry_total (requestFn : Z -> world -> outcome V * world)
    (options : retryOptions) (w : world) :
  withRetry ops requestFn options w <> None.
Proof. unfold withRetry. apply retryLoop_total. lia. Qed.

(** C1.  [withRetry] with default options (three attempts):
    (a) when the first invocation throws an error whose status is a 4xx
        other than 429, that error is rethrown after exactly one
        invocation, without pause;
    (b) when the first two invocations throw errors of status 503 and the
        third returns [v], [withRetry] returns [v] after exactly three
        invocations and two pauses;
    (c) when each of the three invocations throws a retryable error,
        [withRetry] makes exactly three invocations and rethrows the error
        of the last one. *)
Theorem withRetry_policy (requestFn : Z -> world -> outcome V * world)
    (w : world) :
  (forall e w1,
     requestFn 0 (trackRequest ops w) = (Throw (ThrownError e), w1) ->
     (exists s, response_status e = Some s /\ 400 <= s < 500 /\ s <> 429) ->
     withRetry ops requestFn defaultRetryOptions w
       = Some (Throw (ThrownError e), w1, [EvInvoke])
     /\ invocations [EvInvoke] = 1%nat)
  /\
  (forall v,
     (forall i w0, 0 <= i < 2 ->
        exists e w', requestFn i w0 = (Throw (ThrownError e), w')
                     /\ response_status e = Some 503) ->
     (forall w0, exists w', requestFn 2 w0 = (Return v, w')) ->
     exists w' log,
       withRetry ops requestFn defaultRetryOptions w = Some (Return v, w', log)
       /\ invocations log = 3%nat /\ pauses log = 2%nat)
  /\
  ((forall i w0, 0 <= i < 3 ->
      exists e w', requestFn i w0 = (Throw (ThrownError e), w')
                   /\ fatalStatus (response_status e) = false) ->
   exists e wLast w' log,
     withRetry ops requestFn defaultRetryOptions w
       = Some (Throw (ThrownError e), w', log)
     /\ requestFn 2 wLast = (Throw (ThrownError e), w')
     /\ invocations log = 3%nat).
Proof.
  split; [| split].
  - intros e w1 E Hs. split; [| reflexivity].
    unfold withRetry. rewrite defaultRetryOptions_attempts.
    change (Z.to_nat 3) with 3%nat.
    rewrite (retryLoop_fatal ops requestFn defaultRetryOptions 2 0
               ThrownUndefined w w1 [] e).
    + reflexivity.
    + rewrite defaultRetryOptions_attempts. lia.
    + assumption.
    + now apply fatalStatus_iff.
  - intros v Hfail Hok.
    unfold withRetry. rewrite defaultRetryOptions_attempts.
    change (Z.to_nat 3) with 3%nat.
    destruct (Hfail 0 (trackRequest ops w)) as [e0 [w1 [E0 Hs0]]]; [lia |].
    destruct (retryLoop_retry ops requestFn defaultRetryOptions 2 0
                ThrownUndefined w w1 [] e0) as [d0 Step0].
    { rewrite defaultRetryOptions_attempts. lia. }
    { assumption. }
    { now rewrite Hs0. }
    rewrite Step0. cbn [app].
    set (wa := afterPause ops defaultRetryOptions 0 w1).
    destruct (Hfail 1 (trackRequest ops wa)) as [e1 [w2 [E1 Hs1]]]; [lia |].
    destruct (retryLoop_retry ops requestFn defaultRetryOptions 1 (0 + 1)
                (ThrownError e0) wa w2
                [EvInvoke;
                 EvWarn (0 + 1) (maxAttempts_ defaultRetryOptions) d0
                   (response_status e0) (message e0);
                 EvSleep d0] e1) as [d1 Step1].
    { rewrite defaultRetryOptions_attempts. lia. }
    { assumption. }
    { now rewrite Hs1. }
    rewrite Step1.
    set (wb := afterPause ops defaultRetryOptions (0 + 1) w2).
    destruct (Hok (trackRequest ops wb)) as [w3 E2].
    rewrite (retryLoop_success ops requestFn defaultRetryOptions 0 (0 + 1 + 1)
               (ThrownError e1) wb w3 _ v).
    + eexists. eexists. split; [reflexivity |]. split; reflexivity.
    + rewrite defaultRetryOptions_attempts. lia.
    + assumption.
  - intro Hall.
    destruct (retryLoop_exhausted ops requestFn defaultRetryOptions
                (Z.to_nat (maxAttempts_ defaultRetryOptions)) 0
                ThrownUndefined w [])
      as [e [wLast [w' [log' [Eloop [Elast [Hinv _]]]]]]].
    + rewrite defaultRetryOptions_attempts. lia.
    + lia.
    + intros i w0 Hi. apply Hall.
      rewrite defaultRetryOptions_attempts in Hi. lia.
    + exists e, wLast, w', log'. split; [exact Eloop |].
      split; [exact Elast |]. exact Hinv.
Qed.

End RetryPolicy.

Section RetryWitness.
Import Js Reliability.

Lemma withRetry_policy_witness :
  (withRetry sampleHost (alwaysFails 404) defaultRetryOptions (emptyWorld 0)
     = Some (Throw (ThrownError (httpError 404)),
             trackRequest sampleHost (emptyWorld 0), [EvInvoke])
   /\ invocations [EvInvoke] = 1%nat)
  /\ (exists w' log,
        withRetry sampleHost failsTwice defaultRetryOptions (emptyWorld 0)
          = Some (Return "rows", w', log)
        /\ invocations log = 3%nat /\ pauses log = 2%nat)
  /\ (exists e wLast w' log,
        withRetry sampleHost (alwaysFails 503) defaultRetryOptions (emptyWorld 0)
          = Some (Throw (ThrownError e), w', log)
        /\ alwaysFails 503 2 wLast = (Throw (ThrownError e), w')
        /\ invocations log = 3%nat).
Proof.
  split; [| split].
  - apply (proj1 (withRetry_policy sampleHost (alwaysFails 404) (emptyWorld 0))).
    + reflexivity.
    + exists 404. split; [reflexivity | lia].
  - apply (proj1 (proj2 (withRetry_policy sampleHost failsTwice (emptyWorld 0)))).
    + intros i w0 Hi. exists (httpError 503), w0. unfold failsTwice.
      destruct (Z.ltb_spec i 2); [split; reflexivity | lia].
    + intros w0. exists w0. reflexivity.
  - apply (proj2 (proj2 (withRetry_policy sampleHost (alwaysFails 503) (emptyWorld 0)))).
    intros i w0 Hi. exists (httpError 503), w0. split; reflexivity.
Defined.

End RetryWitness.

(** ** Pagination *)

Section PaginateFacts.
Import Js Reliability.

Context {H V R : Type}.

Local Abbreviation world := (@world H V).

Variable requestFn : Z -> Z -> world -> outcome (option (list R)) * world.
Variable options : paginateOptions.

Local Abbreviation maxR := (maxRecords_ options).
Local Abbreviation sizeP := (pageSize_ options).
Local Abbreviation maxP := (maxPages_ options).

Lemma len_nonneg (l : list R) : 0 <= len l.
Proof. unfold len. lia. Qed.

Lemma len_app (l1 l2 : list R) : len (l1 ++ l2) = len l1 + len l2.
Proof. unfold len. rewrite length_app. lia. Qed.

Lemma len_zero (l : list R) : len l = 0 <-> l = [].
Proof.
  unfold len. destruct l; simpl; split; intro E;
    try reflexivity; try discriminate; lia.
Qed.

(** The final [slice(0, maxRecords)] never returns more than the cap. *)
Lemma slice_cap (l : list R) (m : Z) :
  (m < 0 -> l = []) -> len (slice l 0 (Some m)) <= Z.max 0 m.
Proof.
  intro Hneg. unfold len, slice, clampIndex. change (0 <? 0) with false.
  cbv iota. rewrite length_firstn, length_skipn.
  destruct (Z.ltb_spec m 0) as [Hlt | Hge].
  - rewrite (Hneg Hlt). simpl. lia.
  - lia.
Qed.

Lemma stopsAsap_split (ext : list (@fetch R)) :
  forall n, stopsAsap options n ext ->
  forall pre f post, ext = (pre ++ f :: post)%list -> post <> [] ->
    exists rs, page_returned f = Some (Some rs)
      /\ rs <> [] /\ sizeP <= len rs
      /\ n + len (accumulated (pre ++ [f])) < maxR.
Proof.
  induction ext as [| g ext IH]; intros n Hs pre f post E Hpost.
  - destruct pre; discriminate.
  - destruct Hs as [Hhead Htail]. destruct pre as [| p pre]; simpl in E.
    + inversion E; subst. destruct post as [| q post]; [contradiction |].
      destruct Hhead as [rs [Ep [Hne [Hsz Hcap]]]].
      exists rs. repeat split; try assumption.
      unfold accumulated, pageOf. simpl. rewrite Ep, app_nil_r. assumption.
    + inversion E; subst.
      destruct (IH _ Htail pre f post eq_refl Hpost)
        as [rs [Ep [Hne [Hsz Hcap]]]].
      exists rs. repeat split; try assumption.
      unfold accumulated in *. simpl. rewrite len_app. lia.
Qed.

(** The [while] loop: it ends within the pages that are left, stops as
    soon as a page is empty or short or the cap is reached, and returns
    at most [maxRecords] records. *)
Lemma paginateLoop_spec (fuel : nat) :
  forall allRecords offset page w log,
    (Z.to_nat (maxP - page) <= fuel)%nat ->
    (maxR < 0 -> allRecords = []) ->
    exists out w' ext,
      paginateLoop requestFn options fuel allRecords offset page w log
        = Some (out, w', (log ++ ext)%list)
      /\ (List.length ext <= Z.to_nat (maxP - page))%nat
      /\ stopsAsap options (len allRecords) ext
      /\ (forall rs, out = Return rs -> len rs <= Z.max 0 maxR).
Proof.
  induction fuel as [| fuel IH]; intros allRecords offset page w log Hfuel Hneg.
  - simpl. destruct (Z.ltb_spec page maxP) as [Hlt | Hge]; [lia |].
    simpl. exists (Return (slice allRecords 0 (Some maxR))), w, [].
    rewrite app_nil_r. repeat split; simpl; try lia.
    intros rs [= <-]. now apply slice_cap.
  - simpl.
    destruct (Z.ltb_spec page maxP) as [Hlt | Hge];
      destruct (Z.ltb_spec (len allRecords) maxR) as [Hcap | Hfull]; simpl;
      try (exists (Return (slice allRecords 0 (Some maxR))), w, [];
           rewrite app_nil_r; repeat split; simpl; try lia;
           intros rs [= <-]; now apply slice_cap).
    pose proof (len_nonneg allRecords) as Hnn.
    destruct (requestFn offset sizeP w) as [[records | e] w1].
    + destruct records as [rs |].
      * destruct (Z.eqb_spec (len rs) 0) as [Hempty | Hnonempty].
        -- eexists _, w1, [_]. split; [reflexivity |].
           repeat split; simpl; try lia.
           intros rs' [= <-]. apply slice_cap. lia.
        -- destruct (Z.geb_spec (len (allRecords ++ rs)) maxR) as [Hreach | Hbelow].
           ++ eexists _, w1, [_]. split; [reflexivity |].
              repeat split; simpl; try lia.
              intros rs' [= <-]. apply slice_cap. lia.
           ++ destruct (Z.ltb_spec (len rs) sizeP) as [Hshort | Hlong].
              ** eexists _, w1, [_]. split; [reflexivity |].
                 repeat split; simpl; try lia.
                 intros rs' [= <-]. apply slice_cap. lia.
              ** destruct (IH (allRecords ++ rs)%list (offset + sizeP) (page + 1) w1
                            (log ++ [{| at_offset := offset;
                                        with_pageSize := sizeP;
                                        page_returned := Some (Some rs) |}])%list)
                   as [out [w' [ext [Eloop [Hlen [Hstop Hout]]]]]].
                 --- lia.
                 --- lia.
                 --- exists out, w',
                       ({| at_offset := offset; with_pageSize := sizeP;
                           page_returned := Some (Some rs) |} :: ext).
                     rewrite Eloop, <- app_assoc. split; [reflexivity |].
                     split; [simpl; lia |]. split; [| assumption].
                     simpl. split.
                     +++ destruct ext; [exact I |].
                         exists rs. rewrite len_app in Hbelow.
                         repeat split; try lia.
                         intro E. apply Hnonempty. now apply len_zero.
                     +++ unfold pageOf. simpl. now rewrite <- len_app.
      * eexists _, w1, [_]. split; [reflexivity |].
        repeat split; simpl; try lia.
        intros rs' [= <-]. apply slice_cap. lia.
    + eexists _, w1, [_]. split; [reflexivity |].
      repeat split; simpl; try lia. discriminate.
Qed.

(** C8.  For every page function and every options, [autoPaginate]
    terminates (with the records or with the exception of a request);
    it requests at most [maxPages] pages; every request but the last
    returned a non-empty page of at least [pageSize] records that left
    the accumulated count below [maxRecords], so that it stops as soon as
    a page is empty, short, or reaches the cap; and the array it returns
    holds at most [maxRecords] records. *)
Theorem autoPaginate_bounded (w : world) :
  exists out w' log,
    autoPaginate requestFn options w = Some (out, w', log)
    /\ Z.of_nat (List.length log) <= Z.max 0 maxP
    /\ (forall pre f post, log = (pre ++ f :: post)%list -> post <> [] ->
          exists rs, page_returned f = Some (Some rs)
            /\ rs <> [] /\ sizeP <= len rs
            /\ len (accumulated (pre ++ [f])) < maxR)
    /\ (forall rs, out = Return rs -> len rs <= Z.max 0 maxR).
Proof.
  unfold autoPaginate.
  destruct (paginateLoop_spec (Z.to_nat maxP) [] 0 0 w [])
    as [out [w' [ext [Eloop [Hlen [Hstop Hout]]]]]].
  - rewrite Z.sub_0_r. lia.
  - reflexivity.
  - exists out, w', ext. simpl in Eloop. split; [exact Eloop |].
    split; [lia |]. split; [| exact Hout].
    intros pre f post E Hpost.
    destruct (stopsAsap_split ext 0 Hstop pre f post E Hpost)
      as [rs [Ep [Hne [Hsz Hcap]]]].
    exists rs. repeat split; try assumption.
Qed.

End PaginateFacts.

(** ** The query cache *)

Section CacheFacts.
Import Js Reliability.

Context {H : Type} (ops : hostOps H) {V : Type} (truthyV : V -> bool).

Local Abbreviation world := (@world H V).

Implicit Types (w : world) (f : world -> outcome V * world).

(** A key that is not in the cache is a miss that changes nothing. *)
Lemma getCached_absent (key : string) w :
  map_get (queryCache w) key = None -> getCached ops key w = (None, w).
Proof. intro E. unfold getCached. now rewrite E. Qed.

(** A fresh entry is served. *)
Lemma getCached_fresh (key : string) w (e : @entry V) (now : Z) (h : H) :
  map_get (queryCache w) key = Some e ->
  Date_now ops (host w) = (now, h) ->
  now - timestamp e <= ttl e ->
  getCached ops key w = (Some (entry_data e), with_host w h).
Proof.
  intros E En Hage. unfold getCached. rewrite E, En.
  destruct (Z.gtb_spec (now - timestamp e) (ttl e)); [lia | reflexivity].
Qed.

(** An expired entry is evicted by the lookup. *)
Lemma getCached_expired (key : string) w (e : @entry V) (now : Z) (h : H) :
  map_get (queryCache w) key = Some e ->
  Date_now ops (host w) = (now, h) ->
  now - timestamp e > ttl e ->
  getCached ops key w
  = (None, with_cache (with_host w h) (map_delete (queryCache w) key)).
Proof.
  intros E En Hage. unfold getCached. rewrite E, En.
  destruct (Z.gtb_spec (now - timestamp e) (ttl e)); [reflexivity | lia].
Qed.

(** The lookup touches the cache only to evict the key it looks up. *)
Lemma getCached_cache (key : string) w :
  queryCache (snd (getCached ops key w)) = queryCache w
  \/ (fst (getCached ops key w) = None
      /\ queryCache (snd (getCached ops key w)) = map_delete (queryCache w) key).
Proof.
  unfold getCached. destruct (map_get (queryCache w) key) as [e |]; [| now left].
  destruct (Date_now ops (host w)) as [now h].
  destruct (now - timestamp e >? ttl e); [right | left]; simpl; auto.
Qed.

(** What the lookup returns is the data of the entry under the key. *)
Lemma getCached_data (key : string) w (d : V) :
  fst (getCached ops key w) = Some d ->
  exists e, map_get (queryCache w) key = Some e /\ entry_data e = d.
Proof.
  unfold getCached. destruct (map_get (queryCache w) key) as [e |];
    [| discriminate].
  destruct (Date_now ops (host w)) as [now h].
  destruct (now - timestamp e >? ttl e); [discriminate |].
  simpl. intros [= <-]. now exists e.
Qed.

(** After [setCache] the key holds the data, stamped with the clock. *)
Lemma setCache_get (key : string) (d : V) (t : option Z) w :
  map_get (queryCache (setCache ops key d t w)) key
  = Some {| entry_data := d;
            timestamp := fst (Date_now ops (host w));
            ttl := orDefault t CACHE_DEFAULT_TTL |}.
Proof.
  unfold setCache. destruct (Date_now ops (host w)) as [now h]. simpl.
  rewrite map_get_set_same. destruct t; reflexivity.
Qed.

(** [withCache] without a served entry: the producer is invoked once,
    in the world [wl] left by the lookup. *)
Lemma withCache_miss (endpoint : string) (params : obj) f
    (options : cacheOptions) w :
  let key := getCacheKey ops endpoint params in
  let skip := orDefault (opt_skipCache options) false in
  let wl := if skip then w else snd (getCached ops key w) in
  (if skip then True
   else match fst (getCached ops key w) with
        | Some d => truthyV d = false
        | None => True
        end) ->
  withCache ops truthyV endpoint params f options w
  = match f wl with
    | (Return d, w2) =>
        (Return {| data := d; cached := false; cacheKey := key |},
         setCache ops key d
           (Some (orDefault (opt_ttl options) CACHE_DEFAULT_TTL)) w2,
         [EvInvoke])
    | (Throw t, w2) => (Throw t, w2, [EvInvoke])
    end.
Proof.
  intros key skip wl Hmiss. unfold withCache. fold key. fold skip.
  subst wl. destruct skip; simpl negb; cbv iota.
  - destruct (f w) as [[d | t] w2]; reflexivity.
  - destruct (getCached ops key w) as [[d |] w1]; simpl in *.
    + rewrite Hmiss. destruct (f w1) as [[d' | t] w2]; reflexivity.
    + destruct (f w1) as [[d' | t] w2]; reflexivity.
Qed.

(** [withCache] on a fresh, truthy entry: served without the producer. *)
Lemma withCache_hit (endpoint : string) (params : obj) f
    (options : cacheOptions) w (e : @entry V) (now : Z) (h : H) :
  let key := getCacheKey ops endpoint params in
  orDefault (opt_skipCache options) false = false ->
  map_get (queryCache w) key = Some e ->
  Date_now ops (host w) = (now, h) ->
  now - timestamp e <= ttl e ->
  truthyV (entry_data e) = true ->
  withCache ops truthyV endpoint params f options w
  = (Return {| data := entry_data e; cached := true; cacheKey := key |},
     with_host w h, []).
Proof.
  intros key Hskip E En Hage Ht. unfold withCache. fold key.
  rewrite Hskip. simpl negb. cbv iota.
  rewrite (getCached_fresh key w e now h E En Hage), Ht. reflexivity.
Qed.

(** When the key is absent, or holds falsy data, the producer runs. *)
Lemma withCache_invokes (endpoint : string) (params : obj) f
    (options : cacheOptions) w :
  let key := getCacheKey ops endpoint params in
  (map_get (queryCache w) key = None
   \/ exists e, map_get (queryCache w) key = Some e
                /\ truthyV (entry_data e) = false) ->
  exists out w',
    withCache ops truthyV endpoint params f options w = (out, w', [EvInvoke]).
Proof.
  intros key Hcase. rewrite withCache_miss.
  - fold key. destruct (f _) as [[d | t] w2]; eexists; eexists; reflexivity.
  - fold key. destruct (orDefault (opt_skipCache options) false); [exact I |].
    destruct (fst (getCached ops key w)) as [d |] eqn:E; [| exact I].
    apply getCached_data in E. destruct E as [e [E <-]].
    destruct Hcase as [Hn | [e' [E' Hf]]]; congruence.
Qed.

End CacheFacts.

Section CacheClaims.
Import Js Reliability.

Context {H : Type} (ops : hostOps H) {V : Type} (truthyV : V -> bool).

Local Abbreviation world := (@world H V).

(** C4, as amended.  Let a first [withCache] call miss, invoke the
    producer and return a truthy result.  The result is stored under the
    key of endpoint and params with the TTL of the call.  In every later
    world with the same cache, a second call with the same endpoint and
    params (and without [skipCache]): while the age of the entry is
    within its TTL, returns the stored result with [cached = true] and
    does not invoke the producer, so that the producer ran exactly once
    over the two calls; once the age exceeds the TTL, invokes the producer
    again exactly once and, when it returns, answers with the new data and
    [cached = false]. *)
Theorem withCache_second_call (endpoint : string) (params : obj)
    (f : world -> outcome V * world) (options1 options2 : cacheOptions)
    (w0 w1 : world) (r1 : @cacheResult V) (log1 : list event) :
  let key := getCacheKey ops endpoint params in
  withCache ops truthyV endpoint params f options1 w0 = (Return r1, w1, log1) ->
  cached r1 = false ->
  truthyV (data r1) = true ->
  orDefault (opt_skipCache options2) false = false ->
  exists e,
    map_get (queryCache w1) key = Some e
    /\ entry_data e = data r1
    /\ ttl e = orDefault (opt_ttl options1) CACHE_DEFAULT_TTL
    /\ invocations log1 = 1%nat
    /\ forall w : world, queryCache w = queryCache w1 ->
         let now := fst (Date_now ops (host w)) in
         (now - timestamp e <= ttl e ->
            exists w',
              withCache ops truthyV endpoint params f options2 w
              = (Return {| data := data r1; cached := true; cacheKey := key |},
                 w', [])
              /\ invocations (log1 ++ []) = 1%nat)
         /\ (now - timestamp e > ttl e ->
            exists wl,
              withCache ops truthyV endpoint params f options2 w
              = match f wl with
                | (Return d, w2) =>
                    (Return {| data := d; cached := false; cacheKey := key |},
                     setCache ops key d
                       (Some (orDefault (opt_ttl options2) CACHE_DEFAULT_TTL)) w2,
                     [EvInvoke])
                | (Throw t, w2) => (Throw t, w2, [EvInvoke])
                end).
Proof.
  intros key Hcall Hmiss Htruthy Hskip.
  (* the first call: a miss, then the producer, then setCache *)
  assert (Hfirst : exists d w2,
             r1 = {| data := d; cached := false; cacheKey := key |}
             /\ w1 = setCache ops key d
                       (Some (orDefault (opt_ttl options1) CACHE_DEFAULT_TTL)) w2
             /\ log1 = [EvInvoke]).
  { unfold withCache in Hcall. fold key in Hcall.
    destruct (if negb (orDefault (opt_skipCache options1) false)
              then let '(c, w') := getCached ops key w0 in
                   match c with
                   | Some d => if truthyV d then (Some d, w') else (None, w')
                   | None => (None, w')
                   end
              else (None, w0)) as [[d0 |] wl].
    - inversion Hcall; subst. simpl in Hmiss. discriminate.
    - destruct (f wl) as [[d | t] w2]; [| discriminate].
      inversion Hcall; subst. exists d, w2. repeat split. }
  destruct Hfirst as [d [w2 [-> [-> ->]]]]. simpl in Htruthy.
  eexists. split; [apply setCache_get |].
  cbn [entry_data ttl timestamp data orDefault].
  split; [reflexivity |]. split; [reflexivity |]. split; [reflexivity |].
  intros w Hcache.
  destruct (Date_now ops (host w)) as [now h] eqn:En. cbn [fst].
  split.
  - intro Hage. exists (with_host w h). split; [| reflexivity].
    rewrite (withCache_hit ops truthyV endpoint params f options2 w
               {| entry_data := d;
                  timestamp := fst (Date_now ops (host w2));
                  ttl := orDefault (opt_ttl options1) CACHE_DEFAULT_TTL |}
               now h).
    + reflexivity.
    + assumption.
    + rewrite Hcache. fold key. rewrite setCache_get. reflexivity.
    + assumption.
    + exact Hage.
    + exact Htruthy.
  - intro Hage.
    exists (with_cache (with_host w h) (map_delete (queryCache w) key)).
    assert (Eg : getCached ops key w
                 = (None, with_cache (with_host w h)
                            (map_delete (queryCache w) key))).
    { apply (getCached_expired ops key w
               {| entry_data := d;
                  timestamp := fst (Date_now ops (host w2));
                  ttl := orDefault (opt_ttl options1) CACHE_DEFAULT_TTL |}
               now h).
      - rewrite Hcache. rewrite setCache_get. reflexivity.
      - assumption.
      - exact Hage. }
    rewrite withCache_miss; fold key; rewrite Hskip, Eg; simpl; [reflexivity | exact I].
Qed.

(** C10, as amended.  Let a [withCache] call miss and its producer throw
    [t], leaving the world [w2].  Then the call throws [t] and ends in
    [w2]: [withCache] itself stores nothing.  The lookup before it only
    evicts an expired entry of the key.  When the producer leaves the
    cache as it found it, every key of the final cache holds what it held
    before the call, except that the key of the call may have been
    evicted: no entry was created or updated.  And, when the call did not
    skip the cache, a later [withCache] call with the same endpoint and
    params on that cache misses again and invokes its producer. *)
Theorem withCache_producer_throws (endpoint : string) (params : obj)
    (f : world -> outcome V * world) (options : cacheOptions)
    (w w2 : world) (t : thrown) :
  let key := getCacheKey ops endpoint params in
  let skip := orDefault (opt_skipCache options) false in
  let wl := if skip then w else snd (getCached ops key w) in
  (if skip then True
   else match fst (getCached ops key w) with
        | Some d => truthyV d = false
        | None => True
        end) ->
  f wl = (Throw t, w2) ->
  withCache ops truthyV endpoint params f options w = (Throw t, w2, [EvInvoke])
  /\ (queryCache wl = queryCache w
      \/ queryCache wl = map_delete (queryCache w) key)
  /\ (queryCache w2 = queryCache wl ->
      (forall k, map_get (queryCache w2) k = map_get (queryCache w) k
                 \/ (k = key /\ map_get (queryCache w2) k = None))
      /\ (skip = false ->
          forall (w' : world) (f' : world -> outcome V * world)
                 (options' : cacheOptions),
            queryCache w' = queryCache w2 ->
            exists out w'',
              withCache ops truthyV endpoint params f' options' w'
              = (out, w'', [EvInvoke]))).
Proof.
  intros key skip wl Hmiss Hthrow.
  split; [| split].
  - rewrite withCache_miss; [| exact Hmiss]. fold key. fold skip. fold wl.
    now rewrite Hthrow.
  - subst wl. destruct skip; [now left |].
    destruct (getCached_cache ops key w) as [E | [_ E]]; [now left | now right].
  - intro Hkeep. split.
    + intro k. rewrite Hkeep. subst wl. destruct skip; [now left |].
      destruct (getCached_cache ops key w) as [E | [_ E]]; rewrite E.
      * now left.
      * rewrite map_get_delete.
        destruct (String.eqb_spec key k) as [<- | Hne];
          [right; split; reflexivity | now left].
    + intros Hskip w' f' options' Hcache.
      apply withCache_invokes. fold key. rewrite Hcache, Hkeep.
      subst wl. rewrite Hskip in *.
      destruct (getCached_cache ops key w) as [E | [_ E]]; rewrite E.
      * destruct (map_get (queryCache w) key) as [e |] eqn:Eg; [| now left].
        right. exists e. split; [reflexivity |].
        unfold getCached in Hmiss. rewrite Eg in Hmiss.
        unfold getCached in E. rewrite Eg in E.
        destruct (Date_now ops (host w)) as [now h].
        destruct (now - timestamp e >? ttl e) eqn:Hage; simpl in *.
        -- exfalso. assert (Hnone : map_get (map_delete (queryCache w) key) key = None).
           { rewrite map_get_delete, String.eqb_refl. reflexivity. }
           rewrite E in Hnone. congruence.
        -- exact Hmiss.
      * left. rewrite map_get_delete, String.eqb_refl. reflexivity.
Qed.

End CacheClaims.

Section CacheExamples.
Import Js Reliability.

(** C4, counterexample.  A producer that returns [null]: the result of
    the first call is stored and its entry is well within its TTL when
    the second call is made, yet the second call invokes the producer
    again and answers [cached = false]; the producer ran twice. *)
Lemma withCache_falsy_result_not_served :
  fst (fst nullFirst)
    = Return {| data := PNull; cached := false; cacheKey := sampleKey |}
  /\ (exists e,
        map_get (queryCache (snd (fst nullFirst))) sampleKey = Some e
        /\ fst (Date_now sampleHost (host (snd (fst nullFirst)))) - timestamp e
           <= ttl e)
  /\ fst (fst nullSecond)
       = Return {| data := PNull; cached := false; cacheKey := sampleKey |}
  /\ invocations (snd nullFirst ++ snd nullSecond) = 2%nat.
Proof.
  split; [reflexivity |]. split.
  - eexists. split; [reflexivity |]. vm_compute. discriminate.
  - split; reflexivity.
Qed.

Lemma withCache_second_call_witness :
  exists e,
    map_get (queryCache (setCache sampleHost sampleKey (PStr "rows")
                           (Some CACHE_DEFAULT_TTL) (emptyWorld 0)))
            sampleKey = Some e
    /\ entry_data e = PStr "rows"
    /\ ttl e = CACHE_DEFAULT_TTL
    /\ invocations [EvInvoke] = 1%nat
    /\ forall w : @world Z prim,
         queryCache w
         = queryCache (setCache sampleHost sampleKey (PStr "rows")
                         (Some CACHE_DEFAULT_TTL) (emptyWorld 0)) ->
         (fst (Date_now sampleHost (host w)) - timestamp e <= ttl e ->
            exists w',
              withCache sampleHost truthy "closures" sampleParams rowsProducer
                defaultCacheOptions w
              = (Return {| data := PStr "rows"; cached := true;
                           cacheKey := sampleKey |}, w', [])
              /\ invocations ([EvInvoke] ++ []) = 1%nat)
         /\ (fst (Date_now sampleHost (host w)) - timestamp e > ttl e ->
            exists wl,
              withCache sampleHost truthy "closures" sampleParams rowsProducer
                defaultCacheOptions w
              = match rowsProducer wl with
                | (Return d, w2) =>
                    (Return {| data := d; cached := false; cacheKey := sampleKey |},
                     setCache sampleHost sampleKey d (Some CACHE_DEFAULT_TTL) w2,
                     [EvInvoke])
                | (Throw t, w2) => (Throw t, w2, [EvInvoke])
                end).
Proof.
  apply (withCache_second_call sampleHost truthy "closures" sampleParams
           rowsProducer defaultCacheOptions defaultCacheOptions
           (emptyWorld 0)
           (setCache sampleHost sampleKey (PStr "rows")
              (Some CACHE_DEFAULT_TTL) (emptyWorld 0))
           {| data := PStr "rows"; cached := false; cacheKey := sampleKey |}
           [EvInvoke]); reflexivity.
Defined.

(** C10, counterexample.  The cache holds an expired entry under the
    key; the producer throws.  The error reaches the caller, but the
    cache is not as it was: the lookup has evicted the entry. *)
Lemma withCache_throw_after_eviction :
  fst (fst (withCache sampleHost truthy "closures" sampleParams failingProducer
              defaultCacheOptions staleWorld))
    = Throw (ThrownError (httpError 503))
  /\ queryCache staleWorld
     = [(sampleKey, {| entry_data := PStr "old rows"; timestamp := 0;
                       ttl := CACHE_SHORT_TTL |})]
  /\ queryCache (snd (fst (withCache sampleHost truthy "closures" sampleParams
                             failingProducer defaultCacheOptions staleWorld)))
     = []
  /\ queryCache (snd (fst (withCache sampleHost truthy "closures" sampleParams
                             failingProducer defaultCacheOptions staleWorld)))
     <> queryCache staleWorld.
Proof.
  split; [reflexivity |]. split; [reflexivity |]. split; [reflexivity |].
  discriminate.
Qed.

Lemma withCache_producer_throws_witness :
  withCache sampleHost truthy "closures" sampleParams failingProducer
    defaultCacheOptions staleWorld
  = (Throw (ThrownError (httpError 503)),
     snd (getCached sampleHost sampleKey staleWorld), [EvInvoke])
  /\ (queryCache (snd (getCached sampleHost sampleKey staleWorld))
        = queryCache staleWorld
      \/ queryCache (snd (getCached sampleHost sampleKey staleWorld))
         = map_delete (queryCache staleWorld) sampleKey)
  /\ (queryCache (snd (getCached sampleHost sampleKey staleWorld))
        = queryCache (snd (getCached sampleHost sampleKey staleWorld)) ->
      (forall k,
          map_get (queryCache (snd (getCached sampleHost sampleKey staleWorld))) k
            = map_get (queryCache staleWorld) k
          \/ (k = sampleKey
              /\ map_get (queryCache (snd (getCached sampleHost sampleKey staleWorld))) k
                 = None))
      /\ (false = false ->
          forall (w' : @world Z prim) f' options',
            queryCache w'
              = queryCache (snd (getCached sampleHost sampleKey staleWorld)) ->
            exists out w'',
              withCache sampleHost truthy "closures" sampleParams f' options' w'
              = (out, w'', [EvInvoke]))).
Proof.
  apply (withCache_producer_throws sampleHost truthy "closures" sampleParams
           failingProducer defaultCacheOptions staleWorld
           (snd (getCached sampleHost sampleKey staleWorld))
           (ThrownError (httpError 503))).
  - exact I.
  - reflexivity.
Defined.

End CacheExamples.

Section PaginateExamples.
Import Js Reliability.

(** Two full pages and a short one: three requests, all five rows. *)
Example autoPaginate_five_rows :
  exists w' log,
    autoPaginate servePage pagesOfTwo (emptyWorld 0)
      = Some (Return [11; 12; 13; 14; 15], w', log)
    /\ map at_offset log = [0; 2; 4].
Proof. eexists. eexists. split; reflexivity. Qed.

(** With a cap of three records: two requests, the result cut to three. *)
Example autoPaginate_capped :
  exists w' log,
    autoPaginate servePage pagesOfTwoCapped (emptyWorld 0)
      = Some (Return [11; 12; 13], w', log)
    /\ map at_offset log = [0; 2].
Proof. eexists. eexists. split; reflexivity. Qed.

Lemma autoPaginate_bounded_witness :
  exists out w' log,
    autoPaginate servePage pagesOfTwoCapped (emptyWorld 0) = Some (out, w', log)
    /\ Z.of_nat (List.length log) <= Z.max 0 (maxPages_ pagesOfTwoCapped)
    /\ (forall pre f post, log = (pre ++ f :: post)%list -> post <> [] ->
          exists rs, page_returned f = Some (Some rs)
            /\ rs <> [] /\ pageSize_ pagesOfTwoCapped <= len rs
            /\ len (accumulated (pre ++ [f])) < maxRecords_ pagesOfTwoCapped)
    /\ (forall rs, out = Return rs -> len rs <= Z.max 0 (maxRecords_ pagesOfTwoCapped)).
Proof.
  exact (autoPaginate_bounded servePage pagesOfTwoCapped (emptyWorld 0)).
Defined.

End PaginateExamples.

(** ** Custom time windows *)

Section WindowFacts.
Import Js TimeWindows.

Lemma div_mod_exact (a m q r : Z) :
  0 <= r < m -> a = m * q + r -> a / m = q /\ a mod m = r.
Proof.
  intros Hr E. split.
  - symmetry. apply Z.div_unique with (r := r); [left; exact Hr | exact E].
  - symmetry. apply Z.mod_unique with (q := q); [left; exact Hr | exact E].
Qed.

(** The clock fields of the last millisecond of local day [d]. *)
Lemma end_of_day_fields (d : Z) :
  let t := d * msPerDay + 86399999 in
  Day t = d /\ TimeWithinDay t = 86399999
  /\ HourFromTime t = 23 /\ MinFromTime t = 59
  /\ SecFromTime t = 59 /\ msFromTime t = 999.
Proof.
  intro t. subst t.
  unfold HourFromTime, MinFromTime, SecFromTime, msFromTime, Day,
    TimeWithinDay, msPerDay, msPerHour, msPerMinute, msPerSecond.
  set (t := d * 86400000 + 86399999).
  destruct (div_mod_exact t 3600000 (d * 24 + 23) 3599999) as [Eh _];
    [lia | subst t; lia |].
  destruct (div_mod_exact t 60000 (d * 1440 + 1439) 59999) as [Em _];
    [lia | subst t; lia |].
  destruct (div_mod_exact t 1000 (d * 86400 + 86399) 999) as [Es Ems];
    [lia | subst t; lia |].
  destruct (div_mod_exact t 86400000 d 86399999) as [Ed Et];
    [lia | subst t; lia |].
  rewrite Eh, Em, Es, Ems, Ed, Et.
  repeat split.
  - apply (div_mod_exact _ 24 d 23); lia.
  - apply (div_mod_exact _ 60 (d * 24 + 23) 59); lia.
  - apply (div_mod_exact _ 60 (d * 1440 + 1439) 59); lia.
Qed.

(** The clock fields of the first millisecond of local day [d]. *)
Lemma start_of_day_fields (d : Z) :
  let t := d * msPerDay in
  Day t = d /\ HourFromTime t = 0 /\ MinFromTime t = 0
  /\ SecFromTime t = 0 /\ msFromTime t = 0.
Proof.
  intro t. subst t.
  unfold HourFromTime, MinFromTime, SecFromTime, msFromTime, Day,
    msPerDay, msPerHour, msPerMinute, msPerSecond.
  set (t := d * 86400000).
  destruct (div_mod_exact t 3600000 (d * 24) 0) as [Eh _];
    [lia | subst t; lia |].
  destruct (div_mod_exact t 60000 (d * 1440) 0) as [Em _];
    [lia | subst t; lia |].
  destruct (div_mod_exact t 1000 (d * 86400) 0) as [Es Ems];
    [lia | subst t; lia |].
  destruct (div_mod_exact t 86400000 d 0) as [Ed _];
    [lia | subst t; lia |].
  rewrite Eh, Em, Es, Ems, Ed.
  repeat split.
  - apply (div_mod_exact _ 24 d 0); lia.
  - apply (div_mod_exact _ 60 (d * 24) 0); lia.
  - apply (div_mod_exact _ 60 (d * 1440) 0); lia.
Qed.

Lemma Day_any_time (d r : Z) :
  0 <= r < msPerDay -> Day (d * msPerDay + r) = d.
Proof.
  intro Hr. unfold Day. apply (div_mod_exact _ msPerDay d r); [assumption | lia].
Qed.

Lemma TimeClip_valid (t : Z) : Z.abs t <= MAX_TIME -> TimeClip t = Some t.
Proof.
  intro Ht. unfold TimeClip.
  destruct (Z.gtb_spec (Z.abs t) MAX_TIME); [lia | reflexivity].
Qed.

Lemma TimeClip_invalid (t : Z) : Z.abs t > MAX_TIME -> TimeClip t = None.
Proof.
  intro Ht. unfold TimeClip.
  destruct (Z.gtb_spec (Z.abs t) MAX_TIME); [reflexivity | lia].
Qed.

(** An elapsed time of [n] days less one millisecond... plus a day:
    the rounding of the window tests gives [n + 1]. *)
Lemma Math_round_inclusive (n : Z) :
  Math_round (inject_Z (n * 86400000 + 86399999)
              / inject_Z (1000 * 60 * 60 * 24))%Q = n + 1.
Proof.
  unfold Math_round. change (1000 * 60 * 60 * 24) with 86400000.
  unfold Qdiv, Qmult, Qplus, Qinv, inject_Z, Qfloor. cbn [Qnum Qden].
  cbn - [Z.mul Z.add Z.div]. symmetry.
  apply Z.div_unique with (r := 86399998); lia.
Qed.

Variable tza : Z.
Variable monthStart : Z -> Z.

Lemma setHours_end_of_day (now : Z) :
  Z.abs (windowEnd tza now) <= MAX_TIME ->
  setHours tza 23 59 59 999 (Some now) = Some (windowEnd tza now).
Proof.
  intro Hv. unfold setHours, LocalTime, UTC, MakeDate, MakeTime.
  change (23 * msPerHour + 59 * msPerMinute + 59 * msPerSecond + 999)
    with 86399999.
  now apply TimeClip_valid.
Qed.

(** [setDate(getDate() - n)] moves back by [n] calendar days and keeps
    the time within the day, whatever the calendar. *)
Lemma setDate_back (tv n : Z) :
  setDate tza monthStart
    (option_map (fun d => d - n) (getDate tza monthStart (Some tv))) (Some tv)
  = TimeClip ((Day (tv + tza) - n) * msPerDay + TimeWithinDay (tv + tza) - tza).
Proof.
  unfold setDate, getDate, option_map, LocalTime, UTC, MakeDate,
    MakeDayInMonthOf, DateFromTime.
  f_equal. lia.
Qed.

End WindowFacts.

Section WindowClaims.
Import Js TimeWindows.

(** C9, as amended.  In a time zone with a fixed offset:
    for every non-positive or non-integer argument [getCustomWindow]
    throws an [Error] whose message names the value it was given;
    for every positive integer [n] for which the two instants of the
    window are representable dates (magnitude at most 8.64e15 ms), it
    returns the window from local midnight [n] calendar days back to the
    last millisecond of today: the start has hour, minute, second and
    millisecond 0, the end has 23:59:59.999, the [days] field is [n], and
    the rounded number of elapsed days is [n + 1], one of [n] and
    [n + 1]. *)
Theorem getCustomWindow_inclusive (tza : Z) (monthStart : Z -> Z) (now : Z) :
  (forall days, rejected days = true ->
     getCustomWindow tza monthStart now days
     = Throws "Error"
         ("Days must be a positive integer, got: " ++ renderDays days))
  /\
  (forall n, 0 < n ->
     Z.abs (windowStart tza now n) <= MAX_TIME ->
     Z.abs (windowEnd tza now) <= MAX_TIME ->
     exists w,
       getCustomWindow tza monthStart now (IntegerDays n) = Window w
       /\ start w = windowStart tza now n
       /\ end_ w = windowEnd tza now
       /\ days w = n /\ type w = "custom"
       /\ getHours tza (start w) = 0 /\ getMinutes tza (start w) = 0
       /\ getSeconds tza (start w) = 0 /\ getMilliseconds tza (start w) = 0
       /\ getHours tza (end_ w) = 23 /\ getMinutes tza (end_ w) = 59
       /\ getSeconds tza (end_ w) = 59 /\ getMilliseconds tza (end_ w) = 999
       /\ elapsedDays w = n + 1
       /\ (elapsedDays w = n \/ elapsedDays w = n + 1)).
Proof.
  split.
  - intros [n | s] Hrej; simpl in Hrej; unfold getCustomWindow.
    + now rewrite Hrej.
    + reflexivity.
  - intros n Hn Hs He.
    set (D := Day (now + tza)).
    assert (Es : windowStart tza now n = (D - n) * msPerDay - tza) by reflexivity.
    assert (Ee : windowEnd tza now = D * msPerDay + 86399999 - tza) by reflexivity.
    destruct (end_of_day_fields D) as [EdD [EtD [Eh [Em [Esec Ems]]]]].
    destruct (end_of_day_fields (D - n)) as [EdS [EtS _]].
    destruct (start_of_day_fields (D - n)) as [Ed0 [Eh0 [Em0 [Es0 Ems0]]]].
    cbv zeta in *.
    assert (Hlocal_end : windowEnd tza now + tza = D * msPerDay + 86399999)
      by (rewrite Ee; lia).
    assert (Hlocal_start : windowStart tza now n + tza = (D - n) * msPerDay)
      by (rewrite Es; lia).
    assert (Hcall : getCustomWindow tza monthStart now (IntegerDays n)
                    = Window {| start := windowStart tza now n;
                                end_ := windowEnd tza now;
                                days := n; type := "custom" |}).
    { unfold getCustomWindow.
      destruct (Z.leb_spec n 0) as [Hle | _]; [lia |].
      rewrite (setHours_end_of_day tza now He).
      rewrite setDate_back, Hlocal_end, EdD, EtD.
      rewrite TimeClip_valid.
      - unfold setHours, LocalTime, UTC, MakeDate, MakeTime.
        replace ((D - n) * msPerDay + 86399999 - tza + tza)
          with ((D - n) * msPerDay + 86399999) by lia.
        rewrite EdS.
        replace ((D - n) * msPerDay
                 + (0 * msPerHour + 0 * msPerMinute + 0 * msPerSecond + 0) - tza)
          with (windowStart tza now n) by (rewrite Es; lia).
        rewrite (TimeClip_valid _ Hs). reflexivity.
      - unfold msPerDay in *. rewrite Es, Ee in *. unfold msPerDay in *. lia. }
    eexists. split; [exact Hcall |].
    cbn [start end_ days type].
    unfold getHours, getMinutes, getSeconds, getMilliseconds, LocalTime.
    rewrite Hlocal_end, Hlocal_start.
    repeat (split; [first [reflexivity | assumption] |]).
    assert (Hel : elapsedDays {| start := windowStart tza now n;
                                 end_ := windowEnd tza now;
                                 days := n; type := "custom" |} = n + 1).
    { unfold elapsedDays. cbn [start end_].
      replace (windowEnd tza now - windowStart tza now n)
        with (n * 86400000 + 86399999)
        by (rewrite Es, Ee; unfold msPerDay; lia).
      apply Math_round_inclusive. }
    split; [exact Hel | right; exact Hel].
Qed.

(** C9, counterexample.  For the positive integer 200,000,000 the start
    of the window lies more than 100,000,000 days before the epoch: the
    date is invalid and [toISOString] throws a [RangeError]; no window is
    returned. *)
Lemma getCustomWindow_out_of_range :
  0 < 200000000
  /\ getCustomWindow newYorkOffset gregorianMonthStart sampleNow
       (IntegerDays 200000000)
     = Throws "RangeError" "Invalid time value"
  /\ forall w, getCustomWindow newYorkOffset gregorianMonthStart sampleNow
                 (IntegerDays 200000000) <> Window w.
Proof.
  split; [lia |]. split; [reflexivity | discriminate].
Qed.

Lemma getCustomWindow_inclusive_witness :
  (getCustomWindow newYorkOffset gregorianMonthStart sampleNow (IntegerDays 0)
     = Throws "Error" "Days must be a positive integer, got: 0"
   /\ getCustomWindow newYorkOffset gregorianMonthStart sampleNow (OtherDays "3.5")
      = Throws "Error" "Days must be a positive integer, got: 3.5")
  /\ exists w,
       getCustomWindow newYorkOffset gregorianMonthStart sampleNow (IntegerDays 30)
         = Window w
       /\ start w = windowStart newYorkOffset sampleNow 30
       /\ end_ w = windowEnd newYorkOffset sampleNow
       /\ days w = 30 /\ type w = "custom"
       /\ getHours newYorkOffset (start w) = 0
       /\ getMinutes newYorkOffset (start w) = 0
       /\ getSeconds newYorkOffset (start w) = 0
       /\ getMilliseconds newYorkOffset (start w) = 0
       /\ getHours newYorkOffset (end_ w) = 23
       /\ getMinutes newYorkOffset (end_ w) = 59
       /\ getSeconds newYorkOffset (end_ w) = 59
       /\ getMilliseconds newYorkOffset (end_ w) = 999
       /\ elapsedDays w = 30 + 1
       /\ (elapsedDays w = 30 \/ elapsedDays w = 30 + 1).
Proof.
  pose proof (getCustomWindow_inclusive newYorkOffset gregorianMonthStart sampleNow)
    as [Hreject Hwindow].
  split; [split |].
  - apply (Hreject (IntegerDays 0)). reflexivity.
  - apply (Hreject (OtherDays "3.5")). reflexivity.
  - apply (Hwindow 30).
    + lia.
    + vm_compute. discriminate.
    + vm_compute. discriminate.
Defined.

End WindowClaims.

(* ================================================================== *)
(** * Further properties of the code *)
(* ================================================================== *)

(** ** De-duplication by key: accounting, first occurrences, idempotence *)

Section DedupMore.
Import Js Dedup.

Lemma keysOf_app (field : string) (l1 l2 : list obj) :
  keysOf field (l1 ++ l2) = (keysOf field l1 ++ keysOf field l2)%list.
Proof. unfold keysOf. now rewrite map_app, filter_app. Qed.

Lemma keysOf_single (field : string) (r : obj) :
  keysOf field [r] = if truthy (get r field) then [get r field] else [].
Proof. reflexivity. Qed.

(** What the loop has built after the records [rs]: the kept records
    extend a prefix-wise, their truthy keys are pairwise distinct and are
    exactly the keys seen, and kept plus dropped is the number read. *)
Lemma dedupRun_invariant (field : string) (rs : list obj) :
  let '(seen, d, c) := dedupRun field rs in
  (forall k, In k seen <-> In k (keysOf field d))
  /\ NoDup (keysOf field d)
  /\ Z.of_nat (List.length d) + c = Z.of_nat (List.length rs)
  /\ 0 <= c
  /\ incl d rs.
Proof.
  induction rs as [| r rs IH] using rev_ind.
  - simpl. repeat split; try tauto; try constructor; try lia.
    intros x [].
  - rewrite dedupRun_snoc.
    destruct (dedupRun field rs) as [[seen d] c].
    destruct IH as [Hseen [Hnd [Hlen [Hc Hincl]]]].
    unfold dedupStep.
    destruct (truthy (get r field)) eqn:Ht; simpl negb; cbv iota.
    + destruct (includes seen (get r field)) eqn:Hi.
      * repeat split; try assumption; try apply Hseen.
        -- rewrite length_app. simpl. lia.
        -- lia.
        -- intros x Hx. apply in_or_app. left. now apply Hincl.
      * apply includes_not_In in Hi.
        rewrite keysOf_app, keysOf_single, Ht.
        repeat split.
        -- intros [<- | Hk]; apply in_or_app;
             [right; now left | left; now apply Hseen].
        -- intro Hk. apply in_app_or in Hk.
           destruct Hk as [Hk | [<- | []]]; [right; now apply Hseen | now left].
        -- apply NoDup_app; [assumption | repeat constructor; simpl; tauto |].
           intros x Hx [<- | []]. apply Hi. now apply Hseen.
        -- rewrite !length_app. simpl. lia.
        -- assumption.
        -- intros x Hx. apply in_app_or in Hx. apply in_or_app.
           destruct Hx as [Hx | Hx]; [left; now apply Hincl | now right].
    + rewrite keysOf_app, keysOf_single, Ht, app_nil_r.
      repeat split; try assumption; try apply Hseen.
      * rewrite !length_app. simpl. lia.
      * intros x Hx. apply in_app_or in Hx. apply in_or_app.
        destruct Hx as [Hx | Hx]; [left; now apply Hincl | now right].
Qed.

(** On a list whose truthy keys are pairwise distinct the loop keeps
    everything. *)
Lemma dedupRun_distinct (field : string) (l : list obj) :
  NoDup (keysOf field l) ->
  dedupRun field l = (rev (keysOf field l), l, 0).
Proof.
  induction l as [| r l IH] using rev_ind; intro Hnd.
  - reflexivity.
  - rewrite keysOf_app, keysOf_single in Hnd.
    rewrite dedupRun_snoc, IH.
    + unfold dedupStep. rewrite keysOf_app, keysOf_single.
      destruct (truthy (get r field)) eqn:Ht; simpl negb; cbv iota.
      * assert (Hi : includes (rev (keysOf field l)) (get r field) = false).
        { apply includes_not_In. rewrite <- in_rev. intro Hin.
          apply NoDup_remove_2 in Hnd. apply Hnd. now rewrite app_nil_r. }
        rewrite Hi. rewrite rev_app_distr. reflexivity.
      * now rewrite app_nil_r.
    + destruct (truthy (get r field)).
      * now apply NoDup_remove_1 in Hnd; rewrite app_nil_r in Hnd.
      * now rewrite app_nil_r in Hnd.
Qed.

(** The kept records only grow as more records are read. *)
Lemma dedupRun_prefix (field : string) (l1 l2 : list obj) :
  exists ext,
    snd (fst (dedupRun field (l1 ++ l2))) = (snd (fst (dedupRun field l1)) ++ ext)%list.
Proof.
  induction l2 as [| r l2 IH] using rev_ind.
  - exists []. now rewrite !app_nil_r.
  - destruct IH as [ext IH]. rewrite app_assoc, dedupRun_snoc.
    destruct (dedupRun field (l1 ++ l2)) as [[seen d] c]. simpl in IH. subst d.
    unfold dedupStep.
    destruct (truthy (get r field)); simpl negb; cbv iota.
    + destruct (includes seen (get r field)); simpl.
      * now exists ext.
      * exists (ext ++ [r])%list. now rewrite app_assoc.
    + simpl. exists (ext ++ [r])%list. now rewrite app_assoc.
Qed.

(** X1.  The counts reported by [deduplicateRecords] add up: the number
    of records kept plus the number of duplicates removed is the number of
    records read, both are non-negative, and [original_count] and
    [deduplicated_count] are the lengths of the input and of the output. *)
Theorem deduplicateRecords_counts (rs : list obj) (keyField : option string) :
  let res := deduplicateRecords rs keyField in
  original_count res = deduplicated_count res + duplicates_removed res
  /\ original_count res = Z.of_nat (List.length rs)
  /\ deduplicated_count res = Z.of_nat (List.length (records res))
  /\ 0 <= duplicates_removed res <= original_count res.
Proof.
  intro res. subst res. rewrite deduplicateRecords_run.
  pose proof (dedupRun_invariant (keyFieldOf keyField) rs) as Hinv.
  destruct (dedupRun (keyFieldOf keyField) rs) as [[seen d] c].
  destruct Hinv as [_ [_ [Hlen [Hc _]]]]. simpl. lia.
Qed.

(** X2.  The output of [deduplicateRecords] holds only records of the
    input, no two of them with the same (truthy) key; every truthy key of
    the input is the key of a kept record; and the record kept for a key
    is its first occurrence: a record with a truthy key that no earlier
    record has is in the output. *)
Theorem deduplicateRecords_first_occurrence (rs : list obj)
    (keyField : option string) :
  let field := keyFieldOf keyField in
  let out := records (deduplicateRecords rs keyField) in
  incl out rs
  /\ NoDup (keysOf field out)
  /\ (forall r, In r rs -> truthy (get r field) = true ->
        exists r', In r' out /\ get r' field = get r field)
  /\ (forall pre r post, rs = (pre ++ r :: post)%list ->
        truthy (get r field) = true ->
        (forall r', In r' pre -> get r' field <> get r field) ->
        In r out).
Proof.
  intros field out. subst out. rewrite deduplicateRecords_run. fold field.
  pose proof (dedupRun_invariant field rs) as Hinv.
  pose proof (dedupRun_seen field rs) as Hseen.
  destruct (dedupRun field rs) as [[seen d] c] eqn:Erun.
  destruct Hinv as [Hkeys [Hnd [_ [_ Hincl]]]]. simpl in *.
  split; [assumption |]. split; [assumption |]. split.
  - intros r Hin Ht.
    assert (Hk : In (get r field) (keysOf field d)).
    { apply Hkeys. apply Hseen. split; [assumption | now exists r]. }
    unfold keysOf in Hk. apply filter_In in Hk. destruct Hk as [Hk _].
    apply in_map_iff in Hk. destruct Hk as [r' [E Hin']]. now exists r'.
  - intros pre r post -> Ht Hnew.
    destruct (dedupRun_prefix field (pre ++ [r]) post) as [ext Hext].
    rewrite <- app_assoc in Hext. simpl in Hext. rewrite Erun in Hext.
    simpl in Hext. rewrite Hext. apply in_or_app. left.
    rewrite dedupRun_snoc.
    pose proof (dedupRun_seen field pre) as Hseen'.
    destruct (dedupRun field pre) as [[seen' d'] c']. simpl in Hseen'.
    unfold dedupStep. rewrite Ht. simpl negb. cbv iota.
    assert (Hi : includes seen' (get r field) = false).
    { apply includes_not_In. intro Hin. apply Hseen' in Hin.
      destruct Hin as [_ [r' [Hin E]]]. now apply (Hnew r'). }
    rewrite Hi. simpl. apply in_or_app. right. now left.
Qed.

(** X3.  [deduplicateRecords] is idempotent: run on its own output it
    returns the same records and removes nothing. *)
Theorem deduplicateRecords_idempotent (rs : list obj) (keyField : option string) :
  let once := deduplicateRecords rs keyField in
  let twice := deduplicateRecords (records once) keyField in
  records twice = records once
  /\ duplicates_removed twice = 0
  /\ original_count twice = deduplicated_count once
  /\ deduplicated_count twice = deduplicated_count once.
Proof.
  intros once twice. subst once twice. rewrite !deduplicateRecords_run.
  pose proof (dedupRun_invariant (keyFieldOf keyField) rs) as Hinv.
  destruct (dedupRun (keyFieldOf keyField) rs) as [[seen d] c].
  destruct Hinv as [_ [Hnd _]]. cbn [records deduplicated_count].
  rewrite (dedupRun_distinct _ _ Hnd). simpl. repeat split.
Qed.

End DedupMore.

Section DedupMoreWitness.
Import Js Dedup.

Lemma deduplicateRecords_first_occurrence_witness :
  let rs := [keyed (PNum 1) (PStr "a"); keyed (PNum 2) (PStr "b");
             keyed (PNum 1) (PStr "c")] in
  In (keyed (PNum 2) (PStr "b")) (records (deduplicateRecords rs None)).
Proof.
  intros rs.
  apply (proj2 (proj2 (proj2
           (deduplicateRecords_first_occurrence rs None)))
           [keyed (PNum 1) (PStr "a")] (keyed (PNum 2) (PStr "b"))
           [keyed (PNum 1) (PStr "c")]).
  - reflexivity.
  - reflexivity.
  - intros r' [<- | []]. discriminate.
Defined.

End DedupMoreWitness.

(** ** Aggregated de-duplication: conservation and idempotence *)

Section AggregatedMore.
Import Js Dedup.

Lemma map_set_length_le {V : Type} (m : smap V) (k : string) (v : V) :
  (List.length (map_set m k v) <= S (List.length m))%nat.
Proof.
  induction m as [| [k0 v0] m IH]; simpl; [lia |].
  destruct (k0 =? k)%string; simpl; lia.
Qed.

Lemma map_set_fresh {V : Type} (m : smap V) (k : string) (v : V) :
  map_get m k = None -> map_set m k v = (m ++ [(k, v)])%list.
Proof.
  induction m as [| [k0 v0] m IH]; simpl; [reflexivity |].
  destruct (String.eqb_spec k0 k) as [-> | Hne]; [discriminate |].
  intro E. f_equal. now apply IH.
Qed.

Lemma totalCount_app (l1 l2 : list aggRecord) :
  totalCount (l1 ++ l2) = totalCount l1 + totalCount l2.
Proof. induction l1 as [| r l1 IH]; simpl; [reflexivity | rewrite IH; lia]. Qed.





(** Rows with pairwise distinct keys are filed one after the other. *)
Lemma fold_aggStep_distinct (l : list aggRecord) :
  forall m : smap aggRecord,
    NoDup (map_keys m ++ map aggKey l) ->
    fold_left aggStep l m = (m ++ map (fun r => (aggKey r, r)) l)%list.
Proof.
  induction l as [| r l IH]; intros m Hnd; simpl.
  - now rewrite app_nil_r.
  - assert (Hfresh : map_get m (aggKey r) = None).
    { apply map_get_None_keys. intro Hin.
      apply NoDup_remove_2 in Hnd. apply Hnd. apply in_or_app. now left. }
    assert (Estep : aggStep m r = (m ++ [(aggKey r, r)])%list).
    { rewrite aggStep_set. unfold merged. rewrite Hfresh.
      rewrite (map_set_fresh _ _ _ Hfresh). now destruct r. }
    rewrite Estep, IH.
    + now rewrite <- app_assoc.
    + unfold map_keys in *. rewrite map_app. simpl.
      rewrite <- app_assoc. exact Hnd.
Qed.

Lemma deduplicateAggregated_distinct_keys (rs : list aggRecord) :
  NoDup (map aggKey (deduplicateAggregated rs)).
Proof.
  destruct (fold_aggStep_invariants rs []) as [Hk [Hnd _]].
  - intros k v [].
  - constructor.
  - unfold deduplicateAggregated, map_values. rewrite map_map.
    replace (map (fun x => aggKey (snd x)) (fold_left aggStep rs []))
      with (map_keys (fold_left aggStep rs [])); [assumption |].
    unfold map_keys. apply map_ext_in. intros [k v] Hin. simpl.
    symmetry. now apply Hk.
Qed.

(** X5.  [deduplicateAggregated] is idempotent: merging an already
    merged list returns it unchanged. *)
Theorem deduplicateAggregated_idempotent (rs : list aggRecord) :
  deduplicateAggregated (deduplicateAggregated rs) = deduplicateAggregated rs.
Proof.
  pose proof (deduplicateAggregated_distinct_keys rs) as Hnd.
  unfold deduplicateAggregated at 1.
  rewrite fold_aggStep_distinct; [| exact Hnd].
  unfold map_values. simpl. rewrite map_map. simpl. apply map_id.
Qed.

End AggregatedMore.

(** ** Street closures: repeated rows and the summary counts *)

Section ClosureMore.
Import Js Closures ClosureSummary.

(** A row whose key is filed and whose purpose is already listed leaves
    the map as it is. *)
Lemma closureStep_noop (m : smap closure) (c : rawClosure) (v : closure) :
  map_get m (closureKey c) = Some v ->
  (truthy (purpose c) = true -> In (purpose c) (purposes v)) ->
  closureStep m c = m.
Proof.
  intros E Hp. unfold closureStep, map_has. rewrite E.
  destruct (truthy (purpose c)) eqn:Ht; simpl andb; [| reflexivity].
  assert (Hi : includes (purposes v) (purpose c) = true)
    by (apply includes_In; now apply Hp).
  now rewrite Hi.
Qed.

Lemma buildClosureMap_repeat (data extra : list rawClosure) :
  incl extra data ->
  buildClosureMap (data ++ extra) = buildClosureMap data.
Proof.
  intro Hincl. unfold buildClosureMap. rewrite fold_left_app.
  pose proof (buildClosureMap_inv data) as Hinv.
  unfold buildClosureMap in Hinv.
  induction extra as [| c extra IH]; simpl; [reflexivity |].
  assert (Hin : In c data) by (apply Hincl; now left).
  destruct (map_get (fold_left closureStep data []) (closureKey c)) as [v |] eqn:E.
  - rewrite (closureStep_noop _ c v E).
    + apply IH. intros x Hx. apply Hincl. now right.
    + intro Ht. now apply (inv_collects _ _ Hinv c).
  - exfalso. now apply (inv_present _ _ Hinv c).
Qed.

(** X6.  The closure search is stable under repeats: rows that repeat
    rows already present (an overlapping or repeated response) change
    nothing in the de-duplicated closures, neither the records nor their
    purposes. *)
Theorem dedupedClosures_stable_under_repeats
    (Date_parse : prim -> option Z) (today : Z) (data extra : list rawClosure) :
  incl extra data ->
  dedupedClosures Date_parse today (data ++ extra)
  = dedupedClosures Date_parse today data.
Proof.
  intro Hincl. unfold dedupedClosures. now rewrite buildClosureMap_repeat.
Qed.

Lemma dedupedClosures_stable_under_repeats_witness :
  dedupedClosures (fun _ => None) 0
    ([pavingRow (PStr "Paving"); pavingRow (PStr "Utility Work")]
     ++ [pavingRow (PStr "Utility Work"); pavingRow (PStr "Paving")])
  = dedupedClosures (fun _ => None) 0
      [pavingRow (PStr "Paving"); pavingRow (PStr "Utility Work")].
Proof.
  apply dedupedClosures_stable_under_repeats.
  intros x [<- | [<- | []]]; simpl; auto.
Defined.

Lemma buildClosureMap_length (data : list rawClosure) :
  (List.length (buildClosureMap data) <= List.length data)%nat
  /\ (data <> [] -> buildClosureMap data <> []).
Proof.
  split.
  - unfold buildClosureMap.
    assert (Hlen : forall l m,
               (List.length (fold_left closureStep l m)
                <= List.length m + List.length l)%nat).
    { induction l as [| c l IH]; intro m; simpl; [lia |].
      specialize (IH (closureStep m c)).
      assert (Hstep : (List.length (closureStep m c) <= S (List.length m))%nat).
      { pose proof (closureStep_keys m c) as Hk.
        assert (El : forall x : smap closure, List.length x = List.length (map_keys x))
          by (intro x; unfold map_keys; now rewrite length_map).
        rewrite (El (closureStep m c)), Hk, (El m).
        destruct (map_has m (closureKey c)); [lia |].
        rewrite length_app. simpl. lia. }
      lia. }
    apply (Hlen data []).
  - intro Hne. destruct data as [| c data]; [contradiction |].
    pose proof (buildClosureMap_inv (c :: data)) as Hinv.
    intro E. apply (inv_present _ _ Hinv c); [now left |].
    now rewrite E.
Qed.

Lemma filter_length_le {A : Type} (f : A -> bool) (l : list A) :
  (List.length (filter f l) <= List.length l)%nat.
Proof. induction l as [| x l IH]; simpl; [lia | destruct (f x); simpl; lia]. Qed.

Lemma filter_length_Permutation {A : Type} (f : A -> bool) (l l' : list A) :
  Permutation l l' -> List.length (filter f l) = List.length (filter f l').
Proof.
  induction 1 as [| x l l' _ IH | x y l | l l' l'' _ IH1 _ IH2]; simpl.
  - reflexivity.
  - destruct (f x); simpl; now rewrite IH.
  - destruct (f x), (f y); reflexivity.
  - now rewrite IH1.
Qed.

(** The two-digit rounding of a percentage stays a percentage. *)
Lemma roundTo2_percentage (x : Q) :
  (0 <= x <= 100)%Q -> (0 <= Trend.roundTo2 x <= 100)%Q.
Proof.
  intros [Hx Hx']. unfold Trend.roundTo2, Trend.scaledRound, Trend.Qnegative.
  destruct (Qcompare_spec x 0) as [E | L | G];
    try (exfalso; apply (Qlt_irrefl 0); now apply Qle_lt_trans with x).
  - change (inject_Z (10 ^ Z.of_nat 2)) with (100 # 1)%Q.
    assert (E0 : (Qabs x * (100 # 1) + (1 # 2) == 1 # 2)%Q).
    { rewrite (Qabs_pos x Hx), E. reflexivity. }
    rewrite (Qfloor_comp _ _ E0). simpl. split; unfold Qle; simpl; lia.
  - change (inject_Z (10 ^ Z.of_nat 2)) with (100 # 1)%Q.
    set (n := Qfloor (Qabs x * (100 # 1) + (1 # 2))).
    assert (Hn0 : 0 <= n).
    { change 0 with (Qfloor 0). apply Qfloor_resp_le.
      rewrite (Qabs_pos x Hx). lra. }
    assert (Hn1 : n <= 10000).
    { change 10000 with (Qfloor (20001 # 2)). apply Qfloor_resp_le.
      rewrite (Qabs_pos x Hx). lra. }
    split; unfold Qle; simpl; lia.
Qed.

Lemma percentage_of_part (a b : Z) :
  0 <= a <= b -> 0 < b -> (0 <= inject_Z a / inject_Z b * 100 <= 100)%Q.
Proof.
  intros Ha Hb. destruct b as [| p | p]; try lia.
  unfold Qdiv, Qinv, inject_Z, Qmult, Qle. cbn [Qnum Qden].
  rewrite !Pos2Z.inj_mul. split; nia.
Qed.

(** X7.  The summary counts of the closure search are consistent,
    however the sort has arranged the de-duplicated closures: the total
    is the number of distinct composite keys, total plus duplicates
    removed is the raw row count, no count is negative, active plus
    inactive closures is the total, a non-empty response keeps at least
    one closure, and the de-duplication rate lies between 0 and 100. *)
Theorem closure_summary_consistent (Date_parse : prim -> option Z) (today : Z)
    (data : list rawClosure) (sorted : list closureView) :
  Permutation (dedupedClosures Date_parse today data) sorted ->
  let s := summarize data sorted in
  total_closures s = Z.of_nat (List.length (buildClosureMap data))
  /\ total_closures s + duplicates_removed s = raw_api_count s
  /\ 0 <= duplicates_removed s
  /\ 0 <= total_closures s <= raw_api_count s
  /\ (data <> [] -> 1 <= total_closures s)
  /\ active_closures s + inactive_closures s = total_closures s
  /\ 0 <= active_closures s <= total_closures s
  /\ (0 <= deduplication_rate s <= 100)%Q.
Proof.
  intros Hperm s.
  assert (Etotal : total_closures s = Z.of_nat (List.length (buildClosureMap data))).
  { subst s. simpl. rewrite <- (Permutation_length Hperm).
    unfold dedupedClosures, map_values. now rewrite !length_map. }
  destruct (buildClosureMap_length data) as [Hle Hne].
  assert (Hraw : raw_api_count s = Z.of_nat (List.length data)) by reflexivity.
  assert (Hdup : duplicates_removed s = raw_api_count s - total_closures s)
    by reflexivity.
  assert (Hact : 0 <= active_closures s <= total_closures s).
  { subst s. simpl.
    pose proof (filter_length_le (fun c => is_active c) sorted). lia. }
  split; [exact Etotal |].
  split; [lia |]. split; [lia |]. split; [lia |]. split.
  - intro Hd. specialize (Hne Hd).
    destruct (buildClosureMap data) as [| kv m']; [contradiction |].
    rewrite Etotal. cbn [List.length]. lia.
  - split; [subst s; simpl; lia |]. split; [exact Hact |].
    subst s. cbn [deduplication_rate summarize].
    destruct (Z.gtb_spec (Z.of_nat (List.length data)) 0) as [Hpos | Hzero].
    + apply roundTo2_percentage. cbn [total_closures raw_api_count summarize] in *.
      apply percentage_of_part; lia.
    + split; unfold Qle; simpl; lia.
Qed.

Lemma closure_summary_consistent_witness :
  let data := [pavingRow (PStr "Paving"); pavingRow (PStr "Utility Work")] in
  let s := summarize data (dedupedClosures (fun _ => None) 0 data) in
  total_closures s = 1 /\ duplicates_removed s = 1 /\ raw_api_count s = 2
  /\ (deduplication_rate s == 50)%Q.
Proof.
  intros data s.
  pose proof (closure_summary_consistent (fun _ => None) 0 data
                (dedupedClosures (fun _ => None) 0 data)
                (Permutation_refl _)) as [H1 [H2 [H3 _]]].
  fold s in H1, H2, H3.
  assert (E1 : total_closures s = 1) by (rewrite H1; reflexivity).
  split; [exact E1 |]. split; [| split].
  - rewrite E1 in H2. change (raw_api_count s) with 2 in H2. lia.
  - reflexivity.
  - reflexivity.
Defined.

End ClosureMore.

(** ** The query cache: round trip, capacity, eviction, statistics *)

Section CacheMore.
Import Js Reliability CacheStats.

Context {H : Type} (ops : hostOps H) {V : Type} (truthyV : V -> bool).

Local Abbreviation world := (@world H V).

Implicit Types (w : world).






(** X8.  What [setCache] stores, [getCached] gives back: after
    [setCache(key, data, ttl)], in any later world with the same cache, a
    lookup of the key returns the data and leaves the cache alone as long
    as the clock is at most [ttl] past the time of storing, and returns
    [null] and removes the entry once it is later than that. *)
Theorem setCache_getCached_round_trip (key : string) (d : V)
    (ttl_arg : option Z) (w0 : world) :
  let w1 := setCache ops key d ttl_arg w0 in
  let stored := fst (Date_now ops (host w0)) in
  let ttl_ := orDefault ttl_arg CACHE_DEFAULT_TTL in
  forall w : world, queryCache w = queryCache w1 ->
    let now := fst (Date_now ops (host w)) in
    (now - stored <= ttl_ ->
       fst (getCached ops key w) = Some d
       /\ queryCache (snd (getCached ops key w)) = queryCache w)
    /\ (now - stored > ttl_ ->
       fst (getCached ops key w) = None
       /\ map_get (queryCache (snd (getCached ops key w))) key = None).
Proof.
  intros w1 stored ttl_ w Hcache now.
  assert (E : map_get (queryCache w) key
              = Some {| entry_data := d; timestamp := stored; ttl := ttl_ |}).
  { rewrite Hcache. subst w1. apply setCache_get. }
  subst now. destruct (Date_now ops (host w)) as [now h] eqn:En. cbn [fst].
  split; intro Hage.
  - rewrite (getCached_fresh ops key w _ now h E En Hage). split; reflexivity.
  - rewrite (getCached_expired ops key w _ now h E En Hage). simpl.
    split; [reflexivity |]. now rewrite map_get_delete, String.eqb_refl.
Qed.

Lemma setCache_cache (key : string) (d : V) (ttl_arg : option Z) w :
  queryCache (setCache ops key d ttl_arg w)
  = map_set
      (if map_size (queryCache w) >=? CACHE_MAX_SIZE then
         match map_keys (queryCache w) with
         | firstKey :: _ => map_delete (queryCache w) firstKey
         | [] => queryCache w
         end
       else queryCache w)
      key
      {| entry_data := d; timestamp := fst (Date_now ops (host w));
         ttl := orDefault ttl_arg CACHE_DEFAULT_TTL |}.
Proof.
  unfold setCache. destruct (Date_now ops (host w)) as [now h]. simpl.
  destruct ttl_arg; reflexivity.
Qed.


(** X10.  [setCache] touches no other key than the one it writes, except
    that, when the cache is full, the oldest-inserted key is evicted
    first: every other key keeps its entry. *)
Theorem setCache_other_keys (key : string) (d : V) (ttl_arg : option Z) w
    (k : string) :
  k <> key ->
  map_get (queryCache (setCache ops key d ttl_arg w)) k
  = if map_size (queryCache w) >=? CACHE_MAX_SIZE then
      match map_keys (queryCache w) with
      | firstKey :: _ =>
          if (firstKey =? k)%string then None else map_get (queryCache w) k
      | [] => map_get (queryCache w) k
      end
    else map_get (queryCache w) k.
Proof.
  intro Hne. rewrite setCache_cache, map_get_set_other; [| congruence].
  destruct (map_size (queryCache w) >=? CACHE_MAX_SIZE); [| reflexivity].
  destruct (map_keys (queryCache w)) as [| firstKey rest]; [reflexivity |].
  apply map_get_delete.
Qed.

Lemma countEntry_fold (now : Z) (l : list (@entry V)) :
  forall v e,
    let '(v', e') := fold_left (countEntry now) l (v, e) in
    v' + e' = v + e + Z.of_nat (List.length l) /\ v <= v' /\ e <= e'.
Proof.
  induction l as [| x l IH]; intros v e; simpl.
  - lia.
  - destruct (now - timestamp x >? ttl x).
    + specialize (IH v (e + 1)).
      destruct (fold_left (countEntry now) l (v, e + 1)) as [v' e']. lia.
    + specialize (IH (v + 1) e).
      destruct (fold_left (countEntry now) l (v + 1, e)) as [v' e']. lia.
Qed.

(** X11.  In the statistics of the cache the valid and the expired
    entries add up to the total, which is the size of the cache; neither
    count is negative; and the call leaves the cache as it is (expired
    entries are counted, not evicted). *)
Theorem getCacheStats_adds_up w :
  let stats := fst (getCacheStats ops w) in
  valid stats + expired stats = total stats
  /\ total stats = map_size (queryCache w)
  /\ 0 <= valid stats /\ 0 <= expired stats
  /\ max_size stats = CACHE_MAX_SIZE
  /\ queryCache (snd (getCacheStats ops w)) = queryCache w.
Proof.
  unfold getCacheStats. destruct (Date_now ops (host w)) as [now h].
  pose proof (countEntry_fold now (map_values (queryCache w)) 0 0) as Hc.
  destruct (fold_left (countEntry now) (map_values (queryCache w)) (0, 0))
    as [v e].
  simpl. unfold map_size, map_values in *. rewrite length_map in Hc.
  repeat split; try lia.
Qed.

End CacheMore.

Section CacheMoreWitness.
Import Js Reliability CacheStats.

Lemma setCache_getCached_round_trip_witness :
  let w1 := setCache sampleHost sampleKey (PStr "rows") None (emptyWorld 0) in
  fst (getCached sampleHost sampleKey w1) = Some (PStr "rows")
  /\ queryCache (snd (getCached sampleHost sampleKey w1)) = queryCache w1.
Proof.
  intros w1.
  apply (setCache_getCached_round_trip sampleHost sampleKey (PStr "rows") None
           (emptyWorld 0) w1 eq_refl).
  vm_compute. discriminate.
Defined.


Lemma setCache_other_keys_witness :
  map_get (queryCache (setCache sampleHost "fresh" (PStr "rows") None staleWorld))
          sampleKey
  = map_get (queryCache staleWorld) sampleKey.
Proof.
  apply (setCache_other_keys sampleHost "fresh" (PStr "rows") None staleWorld
           sampleKey).
  vm_compute. discriminate.
Defined.

End CacheMoreWitness.

(** ** Retry: where it stops, how often it tries, how long it waits *)

Section RetryMore.
Import Js Reliability.

Context {H : Type} (ops : hostOps H) {V : Type}.

Local Abbreviation world := (@world H V).

Variable requestFn : Z -> world -> outcome V * world.
Variable options : retryOptions.

Local Abbreviation N := (maxAttempts_ options).

Lemma retryLoop_terminal (fuel : nat) (attempt : Z) (lastError : thrown)
    (w w2 : world) (log : list event) (res : outcome V) :
  attempt < N ->
  requestFn attempt (trackRequest ops w) = (res, w2) ->
  endsRetry res ->
  retryLoop ops requestFn options (S fuel) attempt lastError w log
  = Some (res, w2, (log ++ [EvInvoke])%list).
Proof.
  intros Hlt E Hend. destruct res as [v | [| e]]; simpl in Hend.
  - now apply retryLoop_success.
  - contradiction.
  - now apply retryLoop_fatal.
Qed.

Lemma retryLoop_stops_at (k : Z) (res : outcome V) (n : nat) :
  forall fuel attempt lastError w log,
    n = Z.to_nat (k - attempt) -> 0 <= attempt <= k -> k < N ->
    (n < fuel)%nat ->
    (forall i w0, attempt <= i < k ->
       exists e w', requestFn i w0 = (Throw (ThrownError e), w')
                    /\ fatalStatus (response_status e) = false) ->
    (forall w0, exists w', requestFn k w0 = (res, w')) ->
    endsRetry res ->
    exists w' log',
      retryLoop ops requestFn options fuel attempt lastError w log
      = Some (res, w', (log ++ log')%list)
      /\ invocations log' = S n /\ pauses log' = n.
Proof.
  induction n as [| n IH];
    intros fuel attempt lastError w log En Ha Hk Hfuel Hretry Hres Hend;
    (destruct fuel as [| fuel]; [lia |]).
  - assert (attempt = k) by lia. subst attempt.
    destruct (Hres (trackRequest ops w)) as [w2 E].
    exists w2, [EvInvoke].
    rewrite (retryLoop_terminal fuel k lastError w w2 log res Hk E Hend).
    repeat split.
  - destruct (Hretry attempt (trackRequest ops w)) as [e [w2 [E Hf]]]; [lia |].
    destruct (retryLoop_retry ops requestFn options fuel attempt lastError
                w w2 log e) as [delay Estep]; [lia | assumption | assumption |].
    rewrite Estep.
    destruct (IH fuel (attempt + 1) (ThrownError e)
                (afterPause ops options attempt w2)
                (log ++ [EvInvoke;
                         EvWarn (attempt + 1) N delay (response_status e) (message e);
                         EvSleep delay])%list)
      as [w' [log' [Eloop [Hinv Hp]]]]; try assumption; try lia.
    + intros i w0 Hi. apply Hretry. lia.
    + exists w',
        ([EvInvoke;
          EvWarn (attempt + 1) N delay (response_status e) (message e);
          EvSleep delay] ++ log')%list.
      rewrite Eloop, <- app_assoc. split; [reflexivity |].
      rewrite invocations_app, pauses_app, Hinv, Hp.
      unfold invocations, pauses. simpl. lia.
Qed.

(** X12.  [withRetry] stops at the first attempt that succeeds or fails
    with a fatal status: when the attempts before attempt [k] (counted
    from 0, [k] below [maxAttempts]) throw retryable errors and attempt
    [k] returns a value or throws a 4xx error other than 429, the call
    ends with just that outcome, after [k + 1] invocations and [k]
    pauses. *)
Theorem withRetry_stops_at_first_final_outcome (k : Z) (res : outcome V)
    (w : world) :
  0 <= k < N ->
  (forall i w0, 0 <= i < k ->
     exists e w', requestFn i w0 = (Throw (ThrownError e), w')
                  /\ fatalStatus (response_status e) = false) ->
  (forall w0, exists w', requestFn k w0 = (res, w')) ->
  endsRetry res ->
  exists w' log,
    withRetry ops requestFn options w = Some (res, w', log)
    /\ invocations log = Z.to_nat (k + 1)
    /\ pauses log = Z.to_nat k.
Proof.
  intros Hk Hretry Hres Hend. unfold withRetry.
  destruct (retryLoop_stops_at k res (Z.to_nat (k - 0))
              (Z.to_nat N) 0 ThrownUndefined w [] eq_refl)
    as [w' [log' [Eloop [Hinv Hp]]]];
    [lia | lia | lia | exact Hretry | exact Hres | exact Hend |].
  exists w', log'. simpl in Eloop. split; [exact Eloop |].
  rewrite Hinv, Hp. split; lia.
Qed.

Lemma retryLoop_counts (fuel : nat) :
  forall attempt lastError w log,
    (Z.to_nat (N - attempt) <= fuel)%nat -> attempt < N ->
    exists out w' log',
      retryLoop ops requestFn options fuel attempt lastError w log
      = Some (out, w', (log ++ log')%list)
      /\ (1 <= invocations log' <= Z.to_nat (N - attempt))%nat
      /\ (pauses log' + 1 = invocations log')%nat.
Proof.
  induction fuel as [| fuel IH]; intros attempt lastError w log Hfuel Hlt.
  - lia.
  - simpl. destruct (Z.ltb_spec attempt N) as [_ | Hge]; [| lia].
    destruct (requestFn attempt (trackRequest ops w)) as [[result | error] w2].
    + exists (Return result), w2, [EvInvoke]. split; [reflexivity |].
      unfold invocations, pauses. simpl. lia.
    + destruct error as [| e].
      * eexists _, w2, [EvInvoke]. split; [reflexivity |].
        unfold invocations, pauses. simpl. lia.
      * destruct (fatalStatus (response_status e)).
        -- eexists _, w2, [EvInvoke]. split; [reflexivity |].
           unfold invocations, pauses. simpl. lia.
        -- destruct (Z.eqb_spec attempt (N - 1)) as [Elast | Hmore].
           ++ eexists _, w2, [EvInvoke]. split; [reflexivity |].
              unfold invocations, pauses. simpl. lia.
           ++ destruct (Math_random ops (host w2)) as [r h1].
              match goal with
              | |- context [retryLoop _ _ _ _ _ _ ?w0 (log ++ ?step)%list] =>
                  destruct (IH (attempt + 1) (ThrownError e) w0 (log ++ step)%list)
                    as [out [w' [log' [Eloop [Hinv Hp]]]]];
                  [lia | lia |];
                  exists out, w', (step ++ log')%list
              end.
              rewrite Eloop, <- app_assoc. split; [reflexivity |].
              rewrite invocations_app, pauses_app.
              unfold invocations, pauses in *. simpl. lia.
Qed.

(** X13.  Whatever the operation does, [withRetry] invokes it at most
    [maxAttempts] times.  With [maxAttempts] of at least 1 it invokes it
    at least once and pauses exactly once between two consecutive
    invocations; with [maxAttempts] of 0 or less it never invokes it and
    throws [undefined] (the unassigned [lastError]). *)
Theorem withRetry_attempts_bounded (w : world) :
  exists out w' log,
    withRetry ops requestFn options w = Some (out, w', log)
    /\ (invocations log <= Z.to_nat N)%nat
    /\ (0 < N -> (1 <= invocations log)%nat
                 /\ (pauses log + 1 = invocations log)%nat)
    /\ (N <= 0 -> out = Throw ThrownUndefined /\ w' = w /\ log = []).
Proof.
  unfold withRetry. destruct (Z.ltb_spec 0 N) as [Hpos | Hnone].
  - destruct (retryLoop_counts (Z.to_nat N) 0 ThrownUndefined w [])
      as [out [w' [log' [Eloop [Hinv Hp]]]]]; [lia | lia |].
    exists out, w', log'. simpl in Eloop. split; [exact Eloop |].
    rewrite Z.sub_0_r in Hinv. split; [lia |]. split; [intros _; lia | lia].
  - exists (Throw ThrownUndefined), w, [].
    replace (Z.to_nat N) with 0%nat by lia. simpl.
    destruct (Z.ltb_spec 0 N) as [Hlt | _]; [lia |].
    split; [reflexivity |]. split; [unfold invocations; simpl; lia |].
    split; [lia | auto].
Qed.

End RetryMore.

Section RetryMoreWitness.
Import Js Reliability.

Lemma withRetry_stops_at_first_final_outcome_witness :
  exists w' log,
    withRetry sampleHost failsTwice defaultRetryOptions (emptyWorld 0)
      = Some (Return "rows", w', log)
    /\ invocations log = 3%nat /\ pauses log = 2%nat.
Proof.
  apply (withRetry_stops_at_first_final_outcome sampleHost failsTwice
           defaultRetryOptions 2 (Return "rows") (emptyWorld 0)).
  - split; [vm_compute; discriminate | reflexivity].
  - intros i w0 Hi. exists (httpError 503), w0. unfold failsTwice.
    destruct (Z.ltb_spec i 2); [split; reflexivity | lia].
  - intros w0. exists w0. reflexivity.
  - exact I.
Defined.

End RetryMoreWitness.

Section RetryBoundWitness.
Import Js Reliability.

Lemma withRetry_attempts_bounded_witness :
  exists out w' log,
    withRetry sampleHost (alwaysFails 503) defaultRetryOptions (emptyWorld 0)
      = Some (out, w', log)
    /\ (1 <= invocations log <= 3)%nat
    /\ (pauses log + 1 = invocations log)%nat.
Proof.
  destruct (withRetry_attempts_bounded sampleHost (alwaysFails 503)
              defaultRetryOptions (emptyWorld 0))
    as (out & w' & log & E & Hmax & Hpos & _).
  exists out, w', log. split; [exact E |].
  destruct (Hpos eq_refl) as [Hone Hpauses].
  change (Z.to_nat (maxAttempts_ defaultRetryOptions)) with 3%nat in Hmax.
  repeat split; assumption.
Defined.

End RetryBoundWitness.

Section RetryDelays.
Import Js Reliability.

Context {H : Type} (ops : hostOps H) {V : Type}.

Local Abbreviation world := (@world H V).

Variable requestFn : Z -> world -> outcome V * world.
Variable options : retryOptions.

Local Abbreviation N := (maxAttempts_ options).
Local Abbreviation jit := (jitter_ options).
Local Abbreviation expDelay := (exponentialDelay options).

Lemma sleeps_app (l1 l2 : list event) :
  sleeps (l1 ++ l2) = (sleeps l1 ++ sleeps l2)%list.
Proof. unfold sleeps. apply flat_map_app. Qed.

Lemma jitter_window (e j r : Q) :
  (0 <= e -> 0 <= j -> j <= 1 -> 0 <= r -> r <= 1 ->
   e * (1 - j) <= e + e * j * (r - (1 # 2)) * 2
   /\ e + e * j * (r - (1 # 2)) * 2 <= e * (1 + j))%Q.
Proof.
  intros He Hj0 Hj1 Hr0 Hr1.
  assert (0 <= e * j * r)%Q
    by (apply Qmult_le_0_compat; [apply Qmult_le_0_compat |]; assumption).
  assert (0 <= e * j * (1 - r))%Q
    by (apply Qmult_le_0_compat; [apply Qmult_le_0_compat |]; lra).
  split; lra.
Qed.

Hypothesis random_range : forall h, (0 <= fst (Math_random ops h) <= 1)%Q.
Hypothesis baseDelay_nonneg : (0 <= baseDelay_ options)%Q.
Hypothesis maxDelay_nonneg : (0 <= maxDelay_ options)%Q.
Hypothesis base_nonneg : (0 <= exponentialBase_ options)%Q.
Hypothesis jitter_range : (0 <= jit <= 1)%Q.

Lemma exponentialDelay_range (attempt : Z) :
  (0 <= expDelay attempt <= maxDelay_ options)%Q.
Proof.
  unfold exponentialDelay. split.
  - apply Q.min_glb; [| assumption].
    apply Qmult_le_0_compat; [assumption | now apply Qpower_0_le].
  - apply Q.le_min_r.
Qed.

Lemma retryLoop_delays (fuel : nat) :
  forall attempt lastError w log out w' log1,
    retryLoop ops requestFn options fuel attempt lastError w log
    = Some (out, w', log1) ->
    exists log', log1 = (log ++ log')%list
      /\ forall i d, nth_error (sleeps log') i = Some d ->
           (expDelay (attempt + Z.of_nat i) * (1 - jit) <= d
            /\ d <= expDelay (attempt + Z.of_nat i) * (1 + jit))%Q.
Proof.
  induction fuel as [| fuel IH]; intros attempt lastError w log out w' log1.
  - simpl. destruct (attempt <? N); [discriminate |].
    intros [= <- <- <-]. exists []. rewrite app_nil_r. split; [reflexivity |].
    intros [| i] d; discriminate.
  - simpl. destruct (attempt <? N).
    2:{ intros [= <- <- <-]. exists []. rewrite app_nil_r.
        split; [reflexivity |]. intros [| i] d; discriminate. }
    destruct (requestFn attempt (trackRequest ops w)) as [[result | error] w2].
    + intros [= <- <- <-]. exists [EvInvoke]. split; [reflexivity |].
      intros [| i] d; discriminate.
    + destruct error as [| e].
      * intros [= <- <- <-]. exists [EvInvoke]. split; [reflexivity |].
        intros [| i] d; discriminate.
      * destruct (fatalStatus (response_status e)).
        -- intros [= <- <- <-]. exists [EvInvoke]. split; [reflexivity |].
           intros [| i] d; discriminate.
        -- destruct (attempt =? N - 1).
           ++ intros [= <- <- <-]. exists [EvInvoke]. split; [reflexivity |].
              intros [| i] d; discriminate.
           ++ pose proof (random_range (host w2)) as Hr.
              destruct (Math_random ops (host w2)) as [r h1]. cbn [fst] in Hr.
              intro Eloop. apply IH in Eloop.
              destruct Eloop as [log' [-> Hd]].
              eexists. rewrite <- app_assoc. split; [reflexivity |].
              intros i d. rewrite sleeps_app. cbn [sleeps flat_map app].
              destruct i as [| i]; cbn [nth_error].
              ** intros [= <-]. rewrite Z.add_0_r.
                 pose proof (exponentialDelay_range attempt) as [He _].
                 destruct jitter_range as [Hj0 Hj1]. destruct Hr as [Hr0 Hr1].
                 now apply jitter_window.
              ** intro Ei. specialize (Hd i d Ei).
                 replace (attempt + Z.of_nat (S i))
                   with (attempt + 1 + Z.of_nat i) by lia.
                 exact Hd.
Qed.

(** X14.  Every pause of [withRetry] is the capped exponential delay of
    its attempt, give or take the jitter fraction: the pause after
    attempt [i] lies between [(1 - jitter)] and [(1 + jitter)] times
    [min(baseDelay * exponentialBase^i, maxDelay)]; hence no pause is
    negative and none exceeds [maxDelay * (1 + jitter)].  (For a random
    generator with values in the unit interval, non-negative delays and
    base, and a jitter fraction between 0 and 1.) *)
Theorem withRetry_delays_bounded (w w' : world) (out : outcome V)
    (log : list event) :
  withRetry ops requestFn options w = Some (out, w', log) ->
  forall i d, nth_error (sleeps log) i = Some d ->
    (expDelay (Z.of_nat i) * (1 - jit) <= d
     /\ d <= expDelay (Z.of_nat i) * (1 + jit)
     /\ 0 <= d /\ d <= maxDelay_ options * (1 + jit))%Q.
Proof.
  intros Ecall i d Ei. unfold withRetry in Ecall.
  apply retryLoop_delays in Ecall. destruct Ecall as [log' [-> Hd]].
  simpl in Ei. destruct (Hd i d Ei) as [Hlo Hhi]. simpl in Hlo, Hhi.
  pose proof (exponentialDelay_range (Z.of_nat i)) as [He0 He1].
  destruct jitter_range as [Hj0 Hj1].
  split; [assumption |]. split; [assumption |]. split.
  - apply Qle_trans with (expDelay (Z.of_nat i) * (1 - jit))%Q; [| assumption].
    apply Qmult_le_0_compat; lra.
  - apply Qle_trans with (expDelay (Z.of_nat i) * (1 + jit))%Q; [assumption |].
    apply Qmult_le_compat_r; lra.
Qed.

End RetryDelays.

Section RetryDelaysWitness.
Import Js Reliability.

Lemma withRetry_delays_bounded_witness :
  exists out w' log d,
    withRetry sampleHost failsTwice defaultRetryOptions (emptyWorld 0)
      = Some (out, w', log)
    /\ nth_error (sleeps log) 1 = Some d
    /\ (exponentialDelay defaultRetryOptions 1 * (1 - jitter_ defaultRetryOptions)
          <= d
        /\ d <= exponentialDelay defaultRetryOptions 1
                * (1 + jitter_ defaultRetryOptions)
        /\ 0 <= d
        /\ d <= maxDelay_ defaultRetryOptions * (1 + jitter_ defaultRetryOptions))%Q.
Proof.
  do 4 eexists.
  split; [vm_compute; reflexivity |].
  split; [vm_compute; reflexivity |].
  eapply (withRetry_delays_bounded sampleHost failsTwice defaultRetryOptions)
    with (w := emptyWorld 0) (i := 1%nat).
  - intros h. split; vm_compute; discriminate.
  - vm_compute; discriminate.
  - vm_compute; discriminate.
  - vm_compute; discriminate.
  - split; vm_compute; discriminate.
  - vm_compute; reflexivity.
  - vm_compute; reflexivity.
Defined.

End RetryDelaysWitness.

(** ** Pagination: where the pages are asked and what is returned *)

Section PaginateMore.
Import Js Reliability.

Context {H V R : Type}.

Local Abbreviation world := (@world H V).

Variable requestFn : Z -> Z -> world -> outcome (option (list R)) * world.
Variable options : paginateOptions.

Local Abbreviation maxR := (maxRecords_ options).
Local Abbreviation sizeP := (pageSize_ options).
Local Abbreviation maxP := (maxPages_ options).

Lemma accumulated_app (l1 l2 : list (@fetch R)) :
  accumulated (l1 ++ l2) = (accumulated l1 ++ accumulated l2)%list.
Proof. unfold accumulated. apply flat_map_app. Qed.

(** [slice(0, m)] is the first [m] elements. *)
Lemma slice_firstn (l : list R) (m : Z) :
  (m < 0 -> l = []) -> slice l 0 (Some m) = firstn (Z.to_nat m) l.
Proof.
  intro Hneg. unfold slice, clampIndex. change (0 <? 0) with false. cbv iota.
  destruct (Z.ltb_spec m 0) as [Hlt | Hge].
  - rewrite (Hneg Hlt). simpl. now rewrite !firstn_nil.
  - replace (Z.to_nat (Z.min 0 (Z.of_nat (List.length l)))) with 0%nat by lia.
    cbn [skipn].
    destruct (Z.le_ge_cases m (Z.of_nat (List.length l))) as [Hle | Hgt].
    + f_equal. lia.
    + rewrite !firstn_all2; [reflexivity | lia | lia].
Qed.

Lemma shaped_done (base : list R) (offset : Z) :
  (maxR < 0 -> base = []) ->
  shaped options base offset (Return (slice base 0 (Some maxR))) [].
Proof.
  intro Hneg. unfold shaped. split; [intros [| i] f; discriminate |].
  split; [intros rs [= <-]; rewrite app_nil_r; now apply slice_firstn |].
  split; [discriminate |]. intros [| p pre] f post E; discriminate.
Qed.

Lemma shaped_last (base all : list R) (offset : Z) (f0 : @fetch R) :
  (maxR < 0 -> all = []) ->
  all = (base ++ pageOf f0)%list ->
  at_offset f0 = offset -> with_pageSize f0 = sizeP ->
  page_returned f0 <> None ->
  shaped options base offset (Return (slice all 0 (Some maxR))) [f0].
Proof.
  intros Hneg Hall Hoff Hsz Hret. unfold shaped. split.
  - intros [| [| i]] f; cbn [nth_error]; try discriminate.
    intros [= <-]. split; [lia | assumption].
  - split.
    + intros rs [= <-]. unfold accumulated. cbn [flat_map].
      rewrite app_nil_r, <- Hall. now apply slice_firstn.
    + split; [discriminate |].
      intros [| p pre] f post E Hpost; simpl in E.
      * inversion E; subst. contradiction.
      * inversion E as [[Ep Er]]. destruct pre; discriminate.
Qed.

Lemma paginateLoop_shape (fuel : nat) :
  forall allRecords offset page w log out w' log1,
    paginateLoop requestFn options fuel allRecords offset page w log
    = Some (out, w', log1) ->
    (maxR < 0 -> allRecords = []) ->
    exists ext, log1 = (log ++ ext)%list /\ shaped options allRecords offset out ext.
Proof.
  induction fuel as [| fuel IH];
    intros allRecords offset page w log out w' log1 Eloop Hneg.
  - simpl in Eloop.
    destruct ((page <? maxP) && (len allRecords <? maxR))%bool; [discriminate |].
    unfold finish in Eloop. inversion Eloop; subst.
    exists []. rewrite app_nil_r. split; [reflexivity | now apply shaped_done].
  - simpl in Eloop.
    destruct ((page <? maxP) && (len allRecords <? maxR))%bool eqn:Hcond.
    2:{ unfold finish in Eloop. inversion Eloop; subst.
        exists []. rewrite app_nil_r. split; [reflexivity | now apply shaped_done]. }
    apply andb_true_iff in Hcond. destruct Hcond as [_ Hcap].
    apply Z.ltb_lt in Hcap.
    assert (Hpos : 0 < maxR) by (unfold len in Hcap; lia).
    destruct (requestFn offset sizeP w) as [[records | e] w1].
    + destruct records as [rs |].
      * destruct (len rs =? 0) eqn:Hempty.
        -- apply Z.eqb_eq in Hempty.
           assert (rs = [])
             by (destruct rs; [reflexivity
                              | unfold len in Hempty; simpl in Hempty; lia]).
           subst rs. unfold finish in Eloop. inversion Eloop; subst.
           eexists [_]. split; [reflexivity |].
           apply shaped_last; try reflexivity; try discriminate; try lia.
           unfold pageOf. simpl. now rewrite app_nil_r.
        -- destruct (len (allRecords ++ rs) >=? maxR).
           ++ unfold finish in Eloop. inversion Eloop; subst.
              eexists [_]. split; [reflexivity |].
              apply shaped_last; try reflexivity; try discriminate; lia.
           ++ destruct (len rs <? sizeP).
              ** unfold finish in Eloop. inversion Eloop; subst.
                 eexists [_]. split; [reflexivity |].
                 apply shaped_last; try reflexivity; try discriminate; lia.
              ** apply IH in Eloop; [| lia].
                 destruct Eloop as [ext [-> [Hoff [Hres [Hthrow Hmid]]]]].
                 eexists (_ :: ext). rewrite <- app_assoc.
                 split; [reflexivity |]. split.
                 --- intros [| i] f; cbn [nth_error].
                     +++ intros [= <-]. split; [simpl; lia | reflexivity].
                     +++ intro Ei. destruct (Hoff i f Ei) as [Ho Hs].
                         split; [rewrite Ho; lia | assumption].
                 --- split.
                     +++ intros rs' Eout. rewrite (Hres rs' Eout).
                         unfold accumulated at 2. cbn [flat_map pageOf page_returned].
                         now rewrite <- app_assoc.
                     +++ split.
                         *** intros t Eout.
                             destruct (Hthrow t Eout) as [pre [f [-> Hf]]].
                             eexists (_ :: pre), f.
                             split; [reflexivity | assumption].
                         *** intros [| p pre] f post E Hpost; simpl in E.
                             ---- inversion E; subst. discriminate.
                             ---- inversion E; subst. now apply (Hmid pre f post).
      * unfold finish in Eloop. inversion Eloop; subst.
        eexists [_]. split; [reflexivity |].
        apply shaped_last; try reflexivity; try discriminate; try lia.
        unfold pageOf. simpl. now rewrite app_nil_r.
    + inversion Eloop; subst. eexists [_]. split; [reflexivity |]. split.
      * intros [| [| i]] f; cbn [nth_error]; try discriminate.
        intros [= <-]. split; [simpl; lia | reflexivity].
      * split; [discriminate |]. split.
        -- intros t _. eexists [], _. split; reflexivity.
        -- intros [| p pre] f post E Hpost; simpl in E.
           ++ inversion E; subst. contradiction.
           ++ inversion E as [[Ep Er]]. destruct pre; discriminate.
Qed.

(** X15.  [autoPaginate] asks for the pages one after the other: its
    request number [i] is for offset [i * pageSize] with limit
    [pageSize].  When it returns, the result is the concatenation of the
    pages received, in order, cut to the first [maxRecords] records.  When
    a request throws, that was the last request, the exception reaches the
    caller and the records received before are not returned. *)
Theorem autoPaginate_pages_in_order (w : world) :
  exists out w' log,
    autoPaginate requestFn options w = Some (out, w', log)
    /\ (forall i f, nth_error log i = Some f ->
          at_offset f = Z.of_nat i * sizeP /\ with_pageSize f = sizeP)
    /\ (forall rs, out = Return rs ->
          rs = firstn (Z.to_nat maxR) (accumulated log))
    /\ (forall t, out = Throw t ->
          exists pre f, log = (pre ++ [f])%list /\ page_returned f = None)
    /\ (forall pre f post, log = (pre ++ f :: post)%list -> post <> [] ->
          page_returned f <> None).
Proof.
  destruct (paginateLoop_spec requestFn options (Z.to_nat maxP) [] 0 0 w [])
    as [out [w' [ext [Eloop _]]]]; [lia | reflexivity |].
  exists out, w', ext. unfold autoPaginate. simpl in Eloop.
  split; [exact Eloop |].
  apply paginateLoop_shape in Eloop; [| reflexivity].
  destruct Eloop as [ext' [E Hshape]]. simpl in E. subst ext'.
  exact Hshape.
Qed.

End PaginateMore.

Section PaginateMoreWitness.
Import Js Reliability.

Lemma autoPaginate_pages_in_order_witness :
  exists out w' log,
    autoPaginate servePage pagesOfTwoCapped (emptyWorld 0) = Some (out, w', log)
    /\ (forall rs, out = Return rs -> rs = firstn 3 (accumulated log)).
Proof.
  destruct (autoPaginate_pages_in_order servePage pagesOfTwoCapped (emptyWorld 0))
    as (out & w' & log & E & _ & Hrs & _).
  exists out, w', log. split; [exact E | exact Hrs].
Defined.

End PaginateMoreWitness.

(** ** Trend: the direction follows the averages *)

Section TrendMore.
Import Js Trend.

Lemma sumCounts_nonneg (l : list periodRow) :
  (forall p, In p l -> 0 <= count p) -> 0 <= sumCounts l.
Proof.
  unfold sumCounts.
  assert (Hgen : forall l acc, (forall p, In p l -> 0 <= count p) -> 0 <= acc ->
                   0 <= fold_left (fun sum p => sum + count p) l acc).
  { clear l. induction l as [| x l IH]; intros acc Hall Hacc; simpl.
    - assumption.
    - apply IH.
      + intros p Hp. apply Hall. now right.
      + specialize (Hall x (or_introl eq_refl)). lia. }
  intro Hall. now apply Hgen.
Qed.

Lemma average_nonneg (l : list periodRow) :
  (forall p, In p l -> 0 <= count p) -> (0 <= average l)%Q.
Proof.
  intro Hall. unfold average, Qdiv.
  apply Qmult_le_0_compat.
  - pose proof (sumCounts_nonneg l Hall). unfold Qle, inject_Z. simpl. lia.
  - apply Qinv_le_0_compat. unfold Qle, inject_Z. simpl. lia.
Qed.

Lemma In_firstn {A : Type} (n : nat) (l : list A) (x : A) :
  In x (firstn n l) -> In x l.
Proof.
  revert l. induction n as [| n IH]; intros l Hx; simpl in Hx; [contradiction |].
  destruct l as [| y l]; [contradiction |].
  destruct Hx as [<- | Hx]; [now left | right; now apply IH].
Qed.

Lemma In_skipn {A : Type} (n : nat) (l : list A) (x : A) :
  In x (skipn n l) -> In x l.
Proof.
  revert l. induction n as [| n IH]; intros l Hx; simpl in Hx; [assumption |].
  destruct l as [| y l]; [assumption |]. right. now apply IH.
Qed.

Lemma slice_incl {A : Type} (l : list A) (a : Z) (b : option Z) :
  incl (slice l a b) l.
Proof.
  unfold slice. intros x Hx. apply In_firstn in Hx. now apply In_skipn in Hx.
Qed.

Lemma Qpositive_iff (q : Q) : Qpositive q = true <-> (0 < q)%Q.
Proof.
  unfold Qpositive. destruct (Qcompare_spec 0 q) as [E | L | G]; split;
    try discriminate; try reflexivity; intro Hq; try assumption; exfalso.
  - rewrite <- E in Hq. now apply (Qlt_irrefl 0).
  - apply (Qlt_irrefl 0). now apply Qlt_trans with q.
Qed.

Lemma Qnegative_iff (q : Q) : Qnegative q = true <-> (q < 0)%Q.
Proof.
  unfold Qnegative. destruct (Qcompare_spec q 0) as [E | L | G]; split;
    try discriminate; try reflexivity; intro Hq; try assumption; exfalso.
  - rewrite E in Hq. now apply (Qlt_irrefl 0).
  - apply (Qlt_irrefl 0). now apply Qlt_trans with q.
Qed.

(** The sign of the guarded percentage change is the sign of the
    difference of the averages. *)
Lemma percentageChange_sign (r p : Q) :
  (0 <= r)%Q -> (0 <= p)%Q ->
  ((0 < percentageChange r p)%Q <-> (p < r)%Q)
  /\ ((percentageChange r p < 0)%Q <-> (r < p)%Q).
Proof.
  intros Hr Hp. unfold percentageChange.
  destruct (Qpositive p) eqn:Epos.
  - apply Qpositive_iff in Epos.
    assert (Hinv : (0 < / p)%Q) by now apply Qinv_lt_0_compat.
    unfold Qdiv. set (q := (/ p)%Q) in *.
    destruct (Q_dec r p) as [[Hlt | Hgt] | Heq].
    + assert (Hneg : ((r - p) * q * 100 < 0)%Q).
      { assert (0 < (p - r) * q)%Q by (apply Qmult_lt_0_compat; [lra | assumption]).
        lra. }
      split; split; intro Hx; try assumption; exfalso; lra.
    + assert (Hposi : (0 < (r - p) * q * 100)%Q).
      { assert (0 < (r - p) * q)%Q by (apply Qmult_lt_0_compat; [lra | assumption]).
        lra. }
      split; split; intro Hx; try assumption; exfalso; lra.
    + assert (Hz : ((r - p) * q * 100 == 0)%Q).
      { rewrite Heq. ring. }
      split; split; intro Hx; exfalso; lra.
  - assert (Hp0 : (p == 0)%Q).
    { destruct (Qlt_le_dec 0 p) as [Hlt | Hle].
      - apply Qpositive_iff in Hlt. congruence.
      - lra. }
    destruct (Qpositive r) eqn:Er.
    + apply Qpositive_iff in Er. split; split; intro Hx; try lra.
    + assert (Hr0 : (r == 0)%Q).
      { destruct (Qlt_le_dec 0 r) as [Hlt | Hle].
        - apply Qpositive_iff in Hlt. congruence.
        - lra. }
      split; split; intro Hx; exfalso; lra.
Qed.

(** X16.  For a timeline of at least 14 periods with non-negative
    counts, the direction of the trend is decided by the two 7-period
    averages: "increasing" exactly when the recent average exceeds the
    previous one, "decreasing" exactly when it is below, and "stable"
    exactly when they are equal. *)
Theorem trend_direction_follows_averages (timeline : list periodRow) :
  (14 <= List.length timeline)%nat ->
  (forall p, In p timeline -> 0 <= count p) ->
  let recentAvg := average (slice timeline (-7) None) in
  let previousAvg := average (slice timeline (-14) (Some (-7))) in
  exists t, calculateTrend timeline = Some t
    /\ (direction t = "increasing" <-> (previousAvg < recentAvg)%Q)
    /\ (direction t = "decreasing" <-> (recentAvg < previousAvg)%Q)
    /\ (direction t = "stable" <-> (recentAvg == previousAvg)%Q).
Proof.
  intros Hlen Hall recentAvg previousAvg.
  assert (Hr : (0 <= recentAvg)%Q).
  { apply average_nonneg. intros p Hp. apply Hall.
    exact (slice_incl timeline (-7) None p Hp). }
  assert (Hp : (0 <= previousAvg)%Q).
  { apply average_nonneg. intros p Hp. apply Hall.
    exact (slice_incl timeline (-14) (Some (-7)) p Hp). }
  unfold calculateTrend.
  destruct (Z.ltb_spec (Z.of_nat (List.length timeline)) 14) as [Hlt | _]; [lia |].
  fold recentAvg. fold previousAvg.
  eexists. split; [reflexivity |]. cbn [direction].
  destruct (percentageChange_sign recentAvg previousAvg Hr Hp) as [Hpos Hneg].
  unfold directionOf.
  destruct (Qpositive (percentageChange recentAvg previousAvg)) eqn:E1.
  - apply Qpositive_iff in E1. apply Hpos in E1.
    split; [| split]; split; intro Hx;
      first [assumption | reflexivity | discriminate | exfalso; lra].
  - destruct (Qnegative (percentageChange recentAvg previousAvg)) eqn:E2.
    + apply Qnegative_iff in E2. apply Hneg in E2.
      split; [| split]; split; intro Hx;
        first [assumption | reflexivity | discriminate | exfalso; lra].
    + assert (Hn1 : ~ (previousAvg < recentAvg)%Q).
      { intro Hx. apply Hpos in Hx. apply Qpositive_iff in Hx. congruence. }
      assert (Hn2 : ~ (recentAvg < previousAvg)%Q).
      { intro Hx. apply Hneg in Hx. apply Qnegative_iff in Hx. congruence. }
      split; [| split]; split; intro Hx; try discriminate; try contradiction;
        try reflexivity.
      destruct (Q_dec recentAvg previousAvg) as [[Hlt | Hgt] | Heq];
        [contradiction | contradiction | assumption].
Qed.

End TrendMore.

Section TrendMoreWitness.
Import Js Trend.

Lemma trend_direction_follows_averages_witness :
  exists t,
    calculateTrend (sampleTimeline 7 0 ++ sampleTimeline 7 100)%list = Some t
    /\ direction t = "increasing".
Proof.
  destruct (trend_direction_follows_averages
              (sampleTimeline 7 0 ++ sampleTimeline 7 100)%list)
    as (t & Et & Hinc & _).
  - vm_compute. lia.
  - intros p Hp. vm_compute in Hp.
    repeat (destruct Hp as [<- | Hp]; [vm_compute; discriminate |]).
    destruct Hp.
  - exists t. split; [exact Et |]. apply Hinc. vm_compute. reflexivity.
Defined.

End TrendMoreWitness.

(** ** String escaping ([validateAndEscapeString]) *)

Section EscapeFacts.
Import Js Json JsStrings InputValidation.

Lemma append_associative (a b c : string) : (a ++ b) ++ c = a ++ (b ++ c).
Proof.
  induction a as [| x a IH]; simpl; [reflexivity | now rewrite IH].
Qed.

Lemma doubleQuotes_app (s t : string) :
  doubleQuotes (s ++ t) = doubleQuotes s ++ doubleQuotes t.
Proof.
  induction s as [| c s IH]; simpl; [reflexivity |].
  destruct (c =? quote)%char; simpl; now rewrite IH.
Qed.

Lemma doubleQuotes_quoteFree (s : string) :
  quoteFree s = true -> doubleQuotes s = s.
Proof.
  induction s as [| c s IH]; simpl; [reflexivity |].
  destruct (c =? quote)%char; simpl; [discriminate |].
  intro Hs. now rewrite IH.
Qed.

Lemma readLiteral_doubleQuotes (s rest : string) :
  noLeadingQuote rest ->
  readLiteral (doubleQuotes s ++ String quote rest) = Some (s, rest).
Proof.
  intro Hrest. induction s as [| c s IH].
  - simpl. destruct rest as [| c' rest']; [reflexivity |].
    simpl in Hrest. apply Ascii.eqb_neq in Hrest. now rewrite Hrest.
  - cbn [doubleQuotes]. destruct (c =? quote)%char eqn:Ec.
    + apply Ascii.eqb_eq in Ec. subst c.
      change (readLiteral (String quote (String quote
                (doubleQuotes s ++ String quote rest))) = Some (String quote s, rest)).
      cbn [readLiteral]. rewrite Ascii.eqb_refl.
      fold readLiteral. rewrite IH. reflexivity.
    + change (readLiteral (String c (doubleQuotes s ++ String quote rest))
              = Some (String c s, rest)).
      cbn [readLiteral]. rewrite Ec. fold readLiteral. now rewrite IH.
Qed.

Lemma doubleQuotes_length (s : string) :
  length s <= length (doubleQuotes s) <= 2 * length s.
Proof.
  unfold length. induction s as [| c s IH]; simpl; [lia |].
  destruct (c =? quote)%char; simpl String.length; lia.
Qed.

(** What a valid result of [validateAndEscapeString] is. *)
Lemma validateAndEscapeString_valid (value : prim) (options : stringOptions) :
  valid (validateAndEscapeString value options) = true ->
  (escaped (validateAndEscapeString value options) = None
   /\ (nullish value || sameValueZero value (PStr EmptyString))%bool = true)
  \/ (escaped (validateAndEscapeString value options)
        = Some (doubleQuotes (toString value))
      /\ (nullish value || sameValueZero value (PStr EmptyString))%bool = false
      /\ length (toString value) <= orElse (maxLength options) 1000).
Proof.
  unfold validateAndEscapeString.
  destruct (nullish value || sameValueZero value (PStr EmptyString))%bool.
  - destruct (string_required options); simpl; [discriminate |].
    intros _. left. split; reflexivity.
  - destruct (Z.gtb_spec (length (toString value)) (orElse (maxLength options) 1000));
      [simpl; discriminate |].
    destruct (pattern options) as [re |].
    + destruct (test re (toString value)); simpl; [| discriminate].
      intros _. right. split; [reflexivity |]. split; [reflexivity | lia].
    + simpl. intros _. right. split; [reflexivity |]. split; [reflexivity | lia].
Qed.

(** X17.  The string escaped by [validateAndEscapeString] cannot end the
    SoQL literal it is placed in: for every accepted non-empty value,
    [escaped] is the string with each single quote doubled, at most twice
    as long as the accepted length; and a single-quoted literal made of
    any quote-free prefix, the escaped string and any quote-free suffix
    (as in [complaint_type = '...'] and [purpose LIKE '%...%']) reads
    back as exactly the original string between that prefix and suffix,
    leaving the rest of the query untouched. *)
Theorem validateAndEscapeString_literal_safe (value : prim)
    (options : stringOptions) (e : string) :
  valid (validateAndEscapeString value options) = true ->
  escaped (validateAndEscapeString value options) = Some e ->
  let s := toString value in
  e = doubleQuotes s
  /\ length s <= orElse (maxLength options) 1000
  /\ length e <= 2 * orElse (maxLength options) 1000
  /\ forall pre post rest,
       quoteFree pre = true -> quoteFree post = true -> noLeadingQuote rest ->
       readLiteral (pre ++ e ++ post ++ String quote rest)
       = Some (pre ++ s ++ post, rest).
Proof.
  intros Hv He s.
  destruct (validateAndEscapeString_valid value options Hv)
    as [[Hnone _] | [Hsome [_ Hlen]]]; [congruence |].
  rewrite Hsome in He. injection He as <-. fold s in Hlen |- *.
  split; [reflexivity |]. split; [exact Hlen |]. split.
  - pose proof (doubleQuotes_length s). lia.
  - intros pre post rest Hpre Hpost Hrest.
    rewrite <- (doubleQuotes_quoteFree pre Hpre) at 1.
    rewrite <- (doubleQuotes_quoteFree post Hpost) at 1.
    rewrite <- (readLiteral_doubleQuotes (pre ++ s ++ post) rest Hrest).
    f_equal. rewrite !doubleQuotes_app.
    now rewrite !append_associative.
Qed.

End EscapeFacts.

Section EscapeWitness.
Import Js Json JsStrings InputValidation.

Lemma validateAndEscapeString_literal_safe_witness :
  let options := {| maxLength := Some 200; pattern := None;
                    string_required := false;
                    paramName := Some "complaint_type" |} in
  readLiteral ("%" ++ "Noise'' OR ''1''=''1" ++ "%" ++ String quote " AND x")
  = Some ("%" ++ "Noise' OR '1'='1" ++ "%", " AND x").
Proof.
  intros options.
  apply (validateAndEscapeString_literal_safe (PStr "Noise' OR '1'='1") options
           "Noise'' OR ''1''=''1" eq_refl eq_refl).
  - reflexivity.
  - reflexivity.
  - simpl. discriminate.
Defined.

End EscapeWitness.

(** ** Enumerated parameters ([validateEnum]) *)

Section EnumFacts.
Import Js Json JsStrings InputValidation.

Lemma includes_str_In (l : list string) (x : string) :
  includes_str l x = true <-> In x l.
Proof.
  unfold includes_str. rewrite existsb_exists. split.
  - intros [y [Hin E]]. apply String.eqb_eq in E. now subst.
  - intro Hin. exists x. split; [assumption | apply String.eqb_refl].
Qed.

Lemma indexOf_range (l : list string) (x : string) : -1 <= indexOf l x.
Proof.
  induction l as [| y l IH]; simpl; [lia |].
  destruct (y =? x)%string; [lia |].
  destruct (Z.ltb_spec (indexOf l x) 0); lia.
Qed.

(** [indexOf] finds the first occurrence. *)
Lemma indexOf_first (l : list string) (x : string) :
  In x l ->
  exists i, indexOf l x = Z.of_nat i
    /\ nth_error l i = Some x
    /\ forall j y, (j < i)%nat -> nth_error l j = Some y -> y <> x.
Proof.
  induction l as [| y l IH]; intro Hin; [destruct Hin |].
  simpl. destruct (String.eqb_spec y x) as [-> | Hne].
  - exists 0%nat. repeat split. intros j z Hj. lia.
  - destruct Hin as [-> | Hin]; [contradiction |].
    destruct (IH Hin) as (i & Ei & Hi & Hfirst).
    exists (S i). rewrite Ei.
    destruct (Z.ltb_spec (Z.of_nat i) 0); [lia |].
    split; [lia |]. split; [exact Hi |].
    intros [| j] z Hj Hz; simpl in Hz.
    + injection Hz as <-. exact Hne.
    + apply (Hfirst j); [lia | exact Hz].
Qed.

Lemma at_index_nth (l : list string) (i : nat) (v : string) :
  nth_error l i = Some v -> at_index l (Z.of_nat i) = PStr v.
Proof.
  intro E. unfold at_index.
  destruct (Z.ltb_spec (Z.of_nat i) 0); [lia |].
  now rewrite Nat2Z.id, E.
Qed.

Lemma toLowerCase_empty (s : string) :
  toLowerCase s = EmptyString -> s = EmptyString.
Proof. destruct s; simpl; [reflexivity | discriminate]. Qed.

Lemma string_of_uint_nonempty (d : Decimal.uint) :
  NilZero.string_of_uint d <> EmptyString.
Proof. destruct d; simpl; discriminate. Qed.

(** The text of a value that is neither [undefined], [null] nor the
    empty string is not empty. *)
Lemma toString_nonempty (value : prim) :
  (nullish value || sameValueZero value (PStr EmptyString))%bool = false ->
  toString value <> EmptyString.
Proof.
  destruct value as [| | [|] | n | s]; simpl; try discriminate.
  - intros _. unfold NilZero.string_of_int.
    destruct (Z.to_int n); [apply string_of_uint_nonempty | discriminate].
  - intros E Hs. subst s. discriminate.
Qed.

(** The first valid value with a given lower-cased form. *)
Lemma indexOf_map_first (validValues : list string) (k : string) :
  In k (map toLowerCase validValues) ->
  exists i v,
    nth_error validValues i = Some v /\ toLowerCase v = k
    /\ indexOf (map toLowerCase validValues) k = Z.of_nat i
    /\ (forall j v', (j < i)%nat -> nth_error validValues j = Some v' ->
          toLowerCase v' <> k).
Proof.
  intro Hin. destruct (indexOf_first _ _ Hin) as (i & Ei & Hi & Hfirst).
  rewrite nth_error_map in Hi.
  destruct (nth_error validValues i) as [v |] eqn:Ev; [| discriminate].
  injection Hi as Hv. exists i, v. repeat split; try assumption.
  intros j v' Hj Ej. apply (Hfirst j); [exact Hj |].
  now rewrite nth_error_map, Ej.
Qed.

(** X18.  [validateEnum] compares without regard to letter case and
    answers in the spelling of the list: a value that is present (not
    [undefined], [null] or empty) is accepted exactly when its lower-cased
    text is the lower-cased form of a valid value; [normalized] is then
    the first such valid value, in its original spelling; validating that
    normalized value again gives the same result; and a rejected value
    comes with an error and no normalized value. *)
Theorem validateEnum_canonical (value : prim) (validValues : list string)
    (paramName : option string) (required : bool) :
  (nullish value || sameValueZero value (PStr EmptyString))%bool = false ->
  let r := validateEnum value validValues paramName required in
  let key := toLowerCase (toString value) in
  (valid r = true <-> exists v, In v validValues /\ toLowerCase v = key)
  /\ (valid r = true ->
      exists i v,
        nth_error validValues i = Some v
        /\ normalized r = Some (str v)
        /\ toLowerCase v = key
        /\ (forall j v', (j < i)%nat -> nth_error validValues j = Some v' ->
              toLowerCase v' <> key)
        /\ validateEnum (PStr v) validValues paramName required = r)
  /\ (valid r = false -> normalized r = None /\ error r <> None).
Proof.
  intros Hpresent r key.
  assert (Hr : r = validateEnum value validValues paramName required)
    by reflexivity.
  unfold validateEnum in Hr. rewrite Hpresent in Hr. fold key in Hr.
  destruct (includes_str (map toLowerCase validValues) key) eqn:Einc;
    simpl negb in Hr; cbv iota in Hr.
  - apply includes_str_In in Einc.
    destruct (indexOf_map_first validValues key Einc) as (i & v & Ev & Hv & Ei & Hfirst).
    rewrite Ei, (at_index_nth _ _ _ Ev) in Hr.
    split; [| split].
    + rewrite Hr. simpl. split; [| reflexivity].
      intros _. exists v. split; [now apply nth_error_In with i | exact Hv].
    + intros _. exists i, v. split; [exact Ev |].
      split; [rewrite Hr; reflexivity |]. split; [exact Hv |].
      split; [exact Hfirst |].
      rewrite Hr. unfold validateEnum.
      assert (Hne : sameValueZero (PStr v) (PStr EmptyString) = false).
      { simpl. apply String.eqb_neq. intros ->.
        simpl in Hv. symmetry in Hv. apply toLowerCase_empty in Hv.
        now apply (toString_nonempty value Hpresent). }
      simpl nullish. rewrite Hne. simpl orb. cbv iota.
      cbn [toString]. rewrite Hv.
      assert (Einc' : includes_str (map toLowerCase validValues) key = true)
        by now apply includes_str_In.
      rewrite Einc'. simpl negb. cbv iota.
      rewrite Ei, (at_index_nth _ _ _ Ev). reflexivity.
    + rewrite Hr. simpl. discriminate.
  - split; [| split].
    + rewrite Hr. simpl. split; [discriminate |].
      intros (v & Hin & Hv). exfalso.
      assert (Hin' : In key (map toLowerCase validValues))
        by (rewrite <- Hv; now apply in_map).
      apply includes_str_In in Hin'. congruence.
    + rewrite Hr. simpl. discriminate.
    + intros _. rewrite Hr. simpl. split; [reflexivity | discriminate].
Qed.

End EnumFacts.

Section EnumWitness.
Import Js Json JsStrings InputValidation.

Lemma validateEnum_canonical_witness :
  let valid_options := ["day"; "week"; "month"] in
  let r := validateEnum (PStr "MONTH") valid_options (Some "group_by") false in
  exists i v,
    nth_error valid_options i = Some v
    /\ normalized r = Some (str v)
    /\ toLowerCase v = "month"
    /\ (forall j v', (j < i)%nat -> nth_error valid_options j = Some v' ->
          toLowerCase v' <> "month")
    /\ validateEnum (PStr v) valid_options (Some "group_by") false = r.
Proof.
  intros valid_options r.
  exact (proj1 (proj2 (validateEnum_canonical (PStr "MONTH") valid_options
                         (Some "group_by") false eq_refl)) eq_refl).
Defined.

End EnumWitness.

(** ** Batch validation ([batchValidate]) *)

Section BatchFacts.
Import Js Json JsStrings StandardEnvelope InputValidation.

Lemma getProp_setProp (o : object) (k k' : string) (v : value) :
  getProp (setProp o k v) k' = if (k =? k')%string then v else getProp o k'.
Proof.
  unfold getProp, setProp. rewrite map_get_set.
  destruct (k =? k')%string; reflexivity.
Qed.

(** The loop of [batchValidate] from any state: it ends when every
    failed result has its error; it appends one error per failed result
    and sets, for each passed result that carries a value, the property
    named after its parameter. *)
Lemma batchLoop_spec (entries : list (string * result)) :
  (forall p r, In (p, r) entries -> valid r = false -> error r <> None) ->
  NoDup (map fst entries) ->
  forall errors o,
  exists errors' o',
    batchLoop entries (errors, o) = Some ((errors ++ errors')%list, o')
    /\ List.length errors' = List.length (failures entries)
    /\ (forall k, ~ In k (map fst entries) -> getProp o' k = getProp o k)
    /\ (forall p r, In (p, r) entries ->
          getProp o' p =
          match (if valid r then carried r else None) with
          | Some v => v
          | None => getProp o p
          end).
Proof.
  induction entries as [| [p r] entries IH]; intros Herr Hnd errors o.
  - exists [], o. simpl. rewrite app_nil_r. repeat split; auto.
    intros p r [].
  - inversion Hnd as [| ? ? Hnotin Hnd']; subst.
    assert (Herr' : forall p0 r0, In (p0, r0) entries -> valid r0 = false ->
                      error r0 <> None)
      by (intros p0 r0 Hin; apply (Herr p0 r0); now right).
    cbn [batchLoop batchStep failures filter snd].
    destruct (valid r) eqn:Ev; cbn [negb].
    + (* a passed result *)
      assert (Hstep : exists o1,
                match defined (normalized r), escaped r, parsed r with
                | Some v, _, _ => Some (errors, setProp o p v)
                | None, Some s, _ => Some (errors, setProp o p (str s))
                | None, None, Some t => Some (errors, setProp o p (VDate t))
                | None, None, None => Some (errors, o)
                end = Some (errors, o1)
                /\ (forall k, k <> p -> getProp o1 k = getProp o k)
                /\ getProp o1 p = match carried r with
                                  | Some v => v
                                  | None => getProp o p
                                  end).
      { unfold carried.
        destruct (defined (normalized r)) as [v |];
          [| destruct (escaped r) as [s |]; [| destruct (parsed r) as [t |]]];
          eexists; (split; [reflexivity |]); split;
          try (intros k Hk; rewrite getProp_setProp;
               destruct (String.eqb_spec p k); [congruence | reflexivity]);
          try (rewrite getProp_setProp, String.eqb_refl; reflexivity);
          auto. }
      destruct Hstep as (o1 & -> & Hother & Hsame).
      destruct (IH Herr' Hnd' errors o1) as (errors' & o' & -> & Hlen & Hout & Hin).
      exists errors', o'. split; [reflexivity |]. split; [exact Hlen |]. split.
      * intros k Hk. rewrite Hout by (intro; apply Hk; now right).
        apply Hother. intros ->. apply Hk. now left.
      * intros p0 r0 [E | Hin0].
        -- injection E as <- <-. rewrite Ev.
           rewrite Hout by exact Hnotin. exact Hsame.
        -- rewrite (Hin p0 r0 Hin0).
           assert (Hne : p0 <> p).
           { intros ->. apply Hnotin. change p with (fst (p, r0)).
             now apply in_map. }
           now rewrite (Hother p0 Hne).
    + (* a failed result *)
      destruct (error r) as [envelope |] eqn:Ee;
        [| exfalso; apply (Herr p r); [now left | exact Ev | exact Ee]].
      destruct (IH Herr' Hnd'
                  (errors ++ [VObj (spread [("param", str p)]
                                      (spreadable (getProp envelope "error")))])%list
                  o)
        as (errors' & o' & -> & Hlen & Hout & Hin).
      eexists (_ :: errors'), o'. split.
      * now rewrite <- app_assoc.
      * split; [simpl; now rewrite Hlen |]. split.
        -- intros k Hk. apply Hout. intro. apply Hk. now right.
        -- intros p0 r0 [E | Hin0].
           ++ injection E as <- <-. rewrite Ev. now apply Hout.
           ++ apply (Hin p0 r0 Hin0).
Qed.

Lemma failures_nil (validations : list (string * result)) :
  failures validations = [] <->
  forall p r, In (p, r) validations -> valid r = true.
Proof.
  unfold failures. split.
  - intros Hnil p r Hpr. destruct (valid r) eqn:Ev; [reflexivity |].
    assert (Hf : In (p, r) (filter (fun e => negb (valid (snd e))) validations)).
    { apply filter_In. split; [exact Hpr | simpl; now rewrite Ev]. }
    rewrite Hnil in Hf. destruct Hf.
  - intro Hvalid.
    destruct (filter (fun e => negb (valid (snd e))) validations)
      as [| [p r] l] eqn:Ef; [reflexivity |].
    assert (Hf : In (p, r) (filter (fun e => negb (valid (snd e))) validations))
      by (rewrite Ef; now left).
    apply filter_In in Hf. destruct Hf as [Hpr Hneg]. simpl in Hneg.
    rewrite (Hvalid p r Hpr) in Hneg. discriminate.
Qed.

(** [batchValidate] in terms of what its loop has collected. *)
Lemma batchValidate_cases (validations : list (string * result)) :
  (forall p r, In (p, r) validations -> valid r = false -> error r <> None) ->
  NoDup (map fst validations) ->
  exists errors o,
    List.length errors = List.length (failures validations)
    /\ (forall k, ~ In k (map fst validations) -> getProp o k = undefined)
    /\ (forall p r, In (p, r) validations ->
          getProp o p =
          match (if valid r then carried r else None) with
          | Some v => v
          | None => undefined
          end)
    /\ batchValidate validations
       = Some (if Z.of_nat (List.length errors) >? 0 then
                 rejectedWith (createErrorEnvelope
                   (str ERROR_TYPES_VALIDATION_ERROR)
                   (str ("Validation failed for "
                         ++ render (Z.of_nat (List.length errors))
                         ++ " parameter(s)"))
                   [("errors", VArr errors)]
                   (str "Fix the validation errors listed above"))
               else
                 {| valid := true; normalized := Some (VObj o);
                    escaped := None; parsed := None; error := None |}).
Proof.
  intros Herr Hnd.
  destruct (batchLoop_spec validations Herr Hnd [] [])
    as (errors & o & Eloop & Hlen & Hout & Hin).
  simpl app in Eloop. exists errors, o.
  split; [exact Hlen |]. split; [exact Hout |]. split; [exact Hin |].
  unfold batchValidate.
  destruct (batchLoop validations ([], [])) as [[errors0 o0] |] eqn:E0;
    pose proof (eq_trans (eq_sym E0) Eloop) as Heq; [| discriminate].
  injection Heq as -> ->.
  destruct (Z.of_nat (List.length errors) >? 0); reflexivity.
Qed.

(** A batch that passed: every result passed, and the normalized
    object holds what the results carry. *)
Lemma batchValidate_valid (validations : list (string * result)) (b : result) :
  (forall p r, In (p, r) validations -> valid r = false -> error r <> None) ->
  NoDup (map fst validations) ->
  batchValidate validations = Some b -> valid b = true ->
  (forall p r, In (p, r) validations -> valid r = true)
  /\ exists o, normalized b = Some (VObj o)
       /\ forall p r, In (p, r) validations ->
            getProp o p = match carried r with
                          | Some v => v
                          | None => undefined
                          end.
Proof.
  intros Herr Hnd Eb Hvalid.
  destruct (batchValidate_cases validations Herr Hnd)
    as (errors & o & Hlen & _ & Hin & Ecase).
  rewrite Ecase in Eb. injection Eb as <-.
  destruct (Z.gtb_spec (Z.of_nat (List.length errors)) 0) as [Hpos | Hzero];
    [discriminate Hvalid |].
  assert (Hall : forall p r, In (p, r) validations -> valid r = true).
  { apply failures_nil. destruct (failures validations); [reflexivity |].
    simpl in Hlen. lia. }
  split; [exact Hall |]. exists o. split; [reflexivity |].
  intros p r Hpr. rewrite (Hin p r Hpr), (Hall p r Hpr). reflexivity.
Qed.

(** X19.  [batchValidate] is all or nothing.  For results under distinct
    parameter names, each failed one with its error: the batch is valid
    exactly when every result is valid; a valid batch has no error and
    its [normalized] object holds, under each parameter name, the value
    its result carries ([normalized], else [escaped], else [parsed]) and
    nothing for the others; an invalid batch has no [normalized] object
    and its error lists one entry per failed result and says how many
    there are. *)
Theorem batchValidate_all_or_nothing (validations : list (string * result)) :
  (forall p r, In (p, r) validations -> valid r = false -> error r <> None) ->
  NoDup (map fst validations) ->
  exists b,
    batchValidate validations = Some b
    /\ (valid b = true <-> forall p r, In (p, r) validations -> valid r = true)
    /\ (valid b = true ->
        error b = None
        /\ exists o, normalized b = Some (VObj o)
             /\ (forall p r, In (p, r) validations ->
                   getProp o p = match carried r with
                                 | Some v => v
                                 | None => undefined
                                 end)
             /\ (forall k, ~ In k (map fst validations) -> getProp o k = undefined))
    /\ (valid b = false ->
        normalized b = None
        /\ exists e errors,
             error b = Some e
             /\ member (getProp e "error") "type" = str "VALIDATION_ERROR"
             /\ member (getProp e "error") "errors" = VArr errors
             /\ List.length errors = List.length (failures validations)
             /\ member (getProp e "error") "message"
                = str ("Validation failed for "
                       ++ render (Z.of_nat (List.length (failures validations)))
                       ++ " parameter(s)")).
Proof.
  intros Herr Hnd.
  destruct (batchValidate_cases validations Herr Hnd)
    as (errors & o & Hlen & Hout & Hin & Ecase).
  pose proof (failures_nil validations) as Hall.
  rewrite Ecase.
  destruct (Z.gtb_spec (Z.of_nat (List.length errors)) 0) as [Hpos | Hzero].
  - eexists. split; [reflexivity |]. split; [| split].
    + cbn [valid rejectedWith]. split; [discriminate |].
      intro Hvalid. apply Hall in Hvalid. rewrite Hlen, Hvalid in Hpos.
      simpl in Hpos. lia.
    + cbn [valid rejectedWith]. discriminate.
    + intros _. split; [reflexivity |].
      eexists _, errors. split; [reflexivity |].
      rewrite <- Hlen. repeat split; reflexivity.
  - assert (Hnil : failures validations = []).
    { destruct (failures validations); [reflexivity |].
      simpl in Hlen. lia. }
    eexists. split; [reflexivity |]. split; [| split].
    + cbn [valid]. split; [intros _; now apply Hall | reflexivity].
    + intros _. split; [reflexivity |]. exists o. split; [reflexivity |].
      split.
      * intros p r Hpr. rewrite (Hin p r Hpr).
        rewrite (proj1 Hall Hnil p r Hpr). reflexivity.
      * exact Hout.
    + cbn [valid]. discriminate.
Qed.

End BatchFacts.

Section BatchWitness.
Import Js Json JsStrings StandardEnvelope InputValidation.

Lemma batchValidate_all_or_nothing_witness :
  exists b e errors,
    batchValidate sampleValidations = Some b
    /\ valid b = false
    /\ error b = Some e
    /\ member (getProp e "error") "errors" = VArr errors
    /\ List.length errors = 2%nat.
Proof.
  destruct (batchValidate_all_or_nothing sampleValidations)
    as (b & Eb & Hall & _ & Hbad).
  - intros p r [E | [E | [E | []]]]; injection E as <- <-;
      vm_compute; discriminate.
  - repeat constructor; simpl; intuition discriminate.
  - assert (Hv : valid b = false).
    { destruct (valid b) eqn:Ev; [| reflexivity].
      pose proof (proj1 Hall eq_refl "limit" _ (or_introl eq_refl)) as Hl.
      vm_compute in Hl. discriminate. }
    destruct (Hbad Hv) as (_ & e & errors & Ee & _ & Eerrors & Hlen & _).
    exists b, e, errors. repeat split; assumption.
Defined.

End BatchWitness.

(** ** Envelopes ([lib/standard-envelope.js]) and the validators'
    errors *)

Section EnvelopeFacts.
Import Js Json JsStrings StandardEnvelope InputValidation.

Lemma getProp_spread_absent (details o : object) (k : string) :
  map_get details k = None -> getProp (spread o details) k = getProp o k.
Proof.
  unfold spread. revert o.
  induction details as [| [k0 v0] details IH]; intros o Habsent; simpl.
  - reflexivity.
  - simpl in Habsent. destruct (String.eqb_spec k0 k) as [-> | Hne];
      [discriminate |].
    rewrite (IH _ Habsent). rewrite getProp_setProp.
    destruct (String.eqb_spec k0 k); [contradiction | reflexivity].
Qed.

(** [validateEnvelope] on an error envelope looks at the [type] and the
    [message] of the error object only. *)
Lemma validateEnvelope_error (type message guidance : value) (details : object) :
  let error := spread [("type", type); ("message", message)] details in
  validateEnvelope (createErrorEnvelope type message details guidance)
  = andAlso (getProp error "type") (getProp error "message")
  /\ member (getProp (createErrorEnvelope type message details guidance) "error")
            "type" = getProp error "type"
  /\ member (getProp (createErrorEnvelope type message details guidance) "error")
            "message" = getProp error "message".
Proof.
  intro error. unfold validateEnvelope, createErrorEnvelope. fold error.
  cbn [getProp map_get String.eqb Ascii.eqb Bool.eqb bool_ truthyValue truthy
       negb member andAlso].
  destruct (truthyValue guidance); cbn [member];
    rewrite ?getProp_setProp; cbn [String.eqb Ascii.eqb Bool.eqb];
    repeat split; reflexivity.
Qed.

(** An error envelope whose (possibly overridden) type and message are
    non-empty strings is a well-formed rejection. *)
Lemma rejectedWith_wellFormed (type message guidance : value)
    (details : object) (t m : string) :
  getProp (spread [("type", type); ("message", message)] details) "type" = str t ->
  getProp (spread [("type", type); ("message", message)] details) "message"
    = str m ->
  t <> EmptyString -> m <> EmptyString ->
  wellFormed (rejectedWith (createErrorEnvelope type message details guidance)) t.
Proof.
  intros Et Em Ht Hm. split; [discriminate |]. intros _.
  destruct (validateEnvelope_error type message guidance details)
    as (Ev & Etype & Emsg).
  exists (createErrorEnvelope type message details guidance), m.
  split; [reflexivity |]. split; [reflexivity |].
  rewrite Etype, Emsg, Ev, Et, Em.
  repeat split; try assumption.
  unfold andAlso, str, truthyValue, truthy.
  destruct (String.eqb_spec t EmptyString); [contradiction | reflexivity].
Qed.

Lemma accepted_wellFormed (r : result) (t : string) :
  valid r = true -> error r = None -> wellFormed r t.
Proof.
  intros Hv He. split; [intros _; exact He | congruence].
Qed.

Lemma typeof_nonempty (v : value) : typeof v <> EmptyString.
Proof. destruct v as [[| | b | n | s] | | |]; discriminate. Qed.

End EnvelopeFacts.

Section ValidatorErrors.
Import Js Json JsStrings StandardEnvelope InputValidation.

Ltac rejection :=
  eapply rejectedWith_wellFormed;
  [ reflexivity | reflexivity
  | first [ discriminate | apply typeof_nonempty ]
  | first [ discriminate
          | let Hm := fresh in intro Hm; simpl in Hm; discriminate ] ].

Ltac acceptance := apply accepted_wellFormed; reflexivity.

Lemma validateEnum_wellFormed (value : prim) (validValues : list string)
    (paramName : option string) (required : bool) :
  wellFormed (validateEnum value validValues paramName required)
             ERROR_TYPES_INVALID_INPUT.
Proof.
  unfold validateEnum.
  destruct (nullish value || sameValueZero value (PStr EmptyString))%bool.
  - destruct required; [rejection | acceptance].
  - destruct (includes_str _ _); simpl negb; cbv iota;
      [acceptance | rejection].
Qed.

Lemma validateAndEscapeString_wellFormed (value : prim) (options : stringOptions) :
  wellFormed (validateAndEscapeString value options) ERROR_TYPES_INVALID_INPUT.
Proof.
  unfold validateAndEscapeString.
  destruct (nullish value || sameValueZero value (PStr EmptyString))%bool.
  - destruct (string_required options); [rejection | acceptance].
  - destruct (_ >? _); [rejection |].
    destruct (pattern options) as [re |]; [| acceptance].
    destruct (test re _); simpl negb; cbv iota; [acceptance | rejection].
Qed.

Lemma validateDate_wellFormed (Date_parse : prim -> option Z) (date : prim)
    (paramName : option string) (required : bool) :
  wellFormed (validateDate Date_parse date paramName required)
             ERROR_TYPES_INVALID_INPUT.
Proof.
  unfold validateDate. destruct (truthy date); simpl negb; cbv iota.
  - destruct (Date_parse date); [acceptance | rejection].
  - destruct required; [rejection | acceptance].
Qed.

Lemma validateBorough_wellFormed (borough : prim) :
  wellFormed (ofValidation (Validation.validateBorough borough))
             ERROR_TYPES_INVALID_INPUT.
Proof.
  unfold Validation.validateBorough.
  destruct (truthy borough); simpl negb; cbv iota; [| acceptance].
  destruct (includes_str Validation.VALID_BOROUGHS_codes _); [acceptance |].
  destruct (includes_str Validation.VALID_BOROUGHS_names _); [acceptance |].
  destruct (map_get Validation.VALID_BOROUGHS_mapping _); [acceptance |].
  split; [discriminate |]. intros _.
  eexists _, _. split; [reflexivity |].
  split; [reflexivity |]. split; [reflexivity |]. split; [reflexivity |].
  split; [discriminate | reflexivity].
Qed.

Lemma validateDays_wellFormed (days : prim) (options : rangeOptions) :
  wellFormed (validateDays days options) (reportedType days).
Proof.
  unfold validateDays, reportedType. destruct (nullish days).
  - destruct (required options); [rejection | acceptance].
  - destruct (Number_isInteger days) as [n |].
    + destruct (_ || _)%bool; [rejection | acceptance].
    + rejection.
Qed.

Lemma validateLimit_wellFormed (limit : prim) (options : rangeOptions) :
  wellFormed (validateLimit limit options) (reportedType limit).
Proof.
  unfold validateLimit, reportedType. destruct (nullish limit).
  - acceptance.
  - destruct (Number_isInteger limit) as [n |].
    + destruct (_ || _)%bool; [rejection | acceptance].
    + rejection.
Qed.

End ValidatorErrors.

Section EnvelopeClaims.
Import Js Json JsStrings StandardEnvelope InputValidation.

(** X20.  What [validateEnvelope] makes of the envelopes the two
    constructors build.  A success envelope is accepted exactly when its
    source, event type, window start and window end are truthy, its count
    is a number and its records are an array (the [meta] test cannot
    fail, since an absent [meta] becomes an empty object), and the answer
    is then [true].  For an error envelope the answer is
    [type && message] of the error object as built, where a [type] or
    [message] property of [details] replaces the argument; with details
    that have neither, it is [type && message] of the arguments: the
    message itself when both are truthy, not a boolean. *)
Theorem validateEnvelope_of_constructed :
  (forall source eventType window count records meta,
     let e := createSuccessEnvelope source eventType window count records meta in
     (truthyValue (validateEnvelope e) = true <->
        truthyValue source = true /\ truthyValue eventType = true
        /\ truthyValue (getProp window "start") = true
        /\ truthyValue (getProp window "end") = true
        /\ typeof count = "number"
        /\ exists items, records = VArr items)
     /\ (truthyValue (validateEnvelope e) = true ->
         validateEnvelope e = bool_ true))
  /\ (forall type message details guidance,
        let e := createErrorEnvelope type message details guidance in
        let error := spread [("type", type); ("message", message)] details in
        validateEnvelope e = andAlso (getProp error "type") (getProp error "message")
        /\ (map_get details "type" = None -> map_get details "message" = None ->
            validateEnvelope e = andAlso type message
            /\ (truthyValue type = true -> validateEnvelope e = message))).
Proof.
  split.
  - intros source eventType window count records meta e.
    assert (Hmeta : match (match meta with
                           | VPrim PUndefined => VObj []
                           | _ => meta
                           end) with
                    | VPrim PUndefined => false
                    | _ => true
                    end = true)
      by (destruct meta as [[| | b | n | s] | | |]; reflexivity).
    subst e. unfold validateEnvelope, createSuccessEnvelope.
    cbn [getProp map_get String.eqb Ascii.eqb Bool.eqb bool_ truthyValue truthy
         negb member].
    rewrite Hmeta. unfold andAlso.
    destruct (truthyValue source) eqn:E1;
      [| split; [rewrite E1; split; [discriminate | tauto] | congruence]].
    destruct (truthyValue eventType) eqn:E2;
      [| split; [rewrite E2; split; [discriminate | tauto] | congruence]].
    cbn [truthyValue].
    destruct (truthyValue (getProp window "start")) eqn:E3;
      [| split; [rewrite E3; split; [discriminate | tauto] | congruence]].
    destruct (truthyValue (getProp window "end")) eqn:E4;
      [| split; [rewrite E4; split; [discriminate | tauto] | congruence]].
    destruct (String.eqb_spec (typeof count) "number") as [Ec | Ec];
      cbn [truthyValue truthy bool_];
      [| split; [split; [discriminate | tauto] | discriminate]].
    destruct records as [p | t | items | o]; cbn [truthyValue truthy bool_];
      try (split; [split; [discriminate | intros (_ & _ & _ & _ & _ & [x Hx]);
                                          discriminate] | discriminate]).
    split; [| reflexivity].
    split; [intros _; repeat split; eauto | reflexivity].
  - intros type message details guidance e error.
    destruct (validateEnvelope_error type message guidance details) as (Ev & _).
    split; [exact Ev |].
    intros Ht Hm. fold e error in Ev. rewrite Ev. subst error.
    rewrite (getProp_spread_absent details _ "type" Ht).
    rewrite (getProp_spread_absent details _ "message" Hm).
    cbn [getProp map_get String.eqb Ascii.eqb Bool.eqb].
    split; [reflexivity |]. unfold andAlso. now intros ->.
Qed.

(** X21.  Every validator answers in one of two shapes: a valid result
    without error, or an invalid result whose error is an error envelope
    ([success: false], a [type], a non-empty [message]) that
    [validateEnvelope] accepts.  For [validateEnum],
    [validateAndEscapeString], [validateDate] and [validateBorough] the
    type is [INVALID_INPUT]. *)
Theorem validators_reject_with_envelopes :
  (forall value validValues paramName required,
     wellFormed (validateEnum value validValues paramName required)
                "INVALID_INPUT")
  /\ (forall value options,
        wellFormed (validateAndEscapeString value options) "INVALID_INPUT")
  /\ (forall Date_parse date paramName required,
        wellFormed (validateDate Date_parse date paramName required)
                   "INVALID_INPUT")
  /\ (forall borough,
        wellFormed (ofValidation (Validation.validateBorough borough))
                   "INVALID_INPUT").
Proof.
  split; [exact validateEnum_wellFormed |].
  split; [exact validateAndEscapeString_wellFormed |].
  split; [exact validateDate_wellFormed | exact validateBorough_wellFormed].
Qed.

(** X22.  The errors of [validateDays] and [validateLimit] for an
    argument that is present but not an integer do not have the type
    [INVALID_INPUT]: their details carry a property [type] (the [typeof]
    of the argument) that replaces it, so the envelope's error type is
    ["string"], ["boolean"] and the like.  An integer out of range, and a
    missing required argument, are reported as [INVALID_INPUT]. *)
Theorem integer_errors_report_typeof (p : prim) (options : rangeOptions) :
  wellFormed (validateDays p options) (reportedType p)
  /\ wellFormed (validateLimit p options) (reportedType p)
  /\ (nullish p = false -> Number_isInteger p = None ->
      valid (validateDays p options) = false
      /\ valid (validateLimit p options) = false
      /\ reportedType p = typeof (VPrim p)
      /\ reportedType p <> "INVALID_INPUT")
  /\ (nullish p = true \/ (exists n, p = PNum n) ->
      reportedType p = "INVALID_INPUT").
Proof.
  split; [apply validateDays_wellFormed |].
  split; [apply validateLimit_wellFormed |].
  split.
  - intros Hn Hi. unfold validateDays, validateLimit, reportedType.
    rewrite Hn, Hi. repeat split.
    destruct p as [| | b | n | s]; simpl; discriminate.
  - intros [Hn | [n ->]]; unfold reportedType; [now rewrite Hn | reflexivity].
Qed.

End EnvelopeClaims.

(** ** Standard windows ([getTimeWindow]) and the window of the trend
    tool *)

Section StandardWindowFacts.
Import Js TimeWindows StandardWindows.

(** An elapsed time of [n] days and all but the last millisecond of a
    further day is rounded up to [n + 1] days. *)
Lemma Math_ceil_inclusive (n : Z) :
  Math_ceil (inject_Z (n * 86400000 + 86399999)
             / inject_Z (1000 * 60 * 60 * 24))%Q = n + 1.
Proof.
  unfold Math_ceil, Qceiling. change (1000 * 60 * 60 * 24) with 86400000.
  unfold Qdiv, Qmult, Qopp, Qinv, inject_Z, Qfloor. cbn [Qnum Qden].
  cbn - [Z.mul Z.add Z.div Z.opp].
  assert (E : - ((n * 86400000 + 86399999) * 1) / 86400000 = - (n + 1)).
  { symmetry. apply Z.div_unique with (r := 1); lia. }
  rewrite E. lia.
Qed.

Variable tza : Z.
Variable monthStart : Z -> Z.

(** The two dates every window function computes: the end of today, and
    from there [n] calendar days back, at midnight. *)
Lemma look_back (now n : Z) :
  0 <= n -> representable tza now n ->
  setHours tza 23 59 59 999 (Some now) = Some (windowEnd tza now)
  /\ setHours tza 0 0 0 0
       (setDate tza monthStart
          (option_map (fun d => d - n)
             (getDate tza monthStart (Some (windowEnd tza now))))
          (Some (windowEnd tza now)))
     = Some (windowStart tza now n).
Proof.
  intros Hn [Hs He].
  set (D := Day (now + tza)).
  assert (Es : windowStart tza now n = (D - n) * msPerDay - tza) by reflexivity.
  assert (Ee : windowEnd tza now = D * msPerDay + 86399999 - tza) by reflexivity.
  destruct (end_of_day_fields D) as [EdD [EtD _]].
  destruct (end_of_day_fields (D - n)) as [EdS _].
  cbv zeta in *.
  assert (Hlocal_end : windowEnd tza now + tza = D * msPerDay + 86399999)
    by (rewrite Ee; lia).
  split; [now apply setHours_end_of_day |].
  rewrite setDate_back, Hlocal_end, EdD, EtD.
  rewrite TimeClip_valid.
  - unfold setHours, LocalTime, UTC, MakeDate, MakeTime.
    replace ((D - n) * msPerDay + 86399999 - tza + tza)
      with ((D - n) * msPerDay + 86399999) by lia.
    rewrite EdS.
    replace ((D - n) * msPerDay
             + (0 * msPerHour + 0 * msPerMinute + 0 * msPerSecond + 0) - tza)
      with (windowStart tza now n) by (rewrite Es; lia).
    now apply TimeClip_valid.
  - unfold msPerDay in *. rewrite Es, Ee in *. unfold msPerDay in *. lia.
Qed.

Lemma getCustomWindow_value (now n : Z) :
  0 < n -> representable tza now n ->
  getCustomWindow tza monthStart now (IntegerDays n)
  = Window {| start := windowStart tza now n;
              end_ := windowEnd tza now;
              days := n;
              type := "custom" |}.
Proof.
  intros Hn Hrep. unfold getCustomWindow.
  destruct (Z.leb_spec n 0) as [Hle | _]; [lia |].
  destruct (look_back now n ltac:(lia) Hrep) as [-> ->]. reflexivity.
Qed.

Lemma window_span (now n : Z) :
  windowEnd tza now - windowStart tza now n = n * 86400000 + 86399999.
Proof. unfold windowEnd, windowStart, msPerDay. lia. Qed.

Lemma getTimeWindow_value (now : Z) (windowType : prim) (n : Z) :
  standardDays windowType = Some n -> representable tza now n ->
  getTimeWindow tza monthStart now windowType
  = Window {| start := windowStart tza now n;
              end_ := windowEnd tza now;
              days := n + 1;
              type := reportedWindowType windowType |}.
Proof.
  intros Hstd Hrep.
  assert (Hn : 0 <= n).
  { destruct windowType as [| | b | z | s]; simpl in Hstd; try discriminate.
    - injection Hstd as <-. lia.
    - destruct (s =? "90d")%string; [injection Hstd as <-; lia |].
      destruct ((s =? "12m") || (s =? "365d"))%bool%string;
        [injection Hstd as <-; lia | discriminate]. }
  destruct (look_back now n Hn Hrep) as [Eend Estart].
  assert (Hgo : forall wt : prim,
            match setHours tza 0 0 0 0
                    (setDate tza monthStart
                       (option_map (fun d => d - n)
                          (getDate tza monthStart
                             (setHours tza 23 59 59 999 (Some now))))
                       (setHours tza 23 59 59 999 (Some now))),
                  setHours tza 23 59 59 999 (Some now) with
            | Some s, Some e =>
                Window {| start := s; end_ := e;
                          days := Math_ceil (inject_Z (e - s)
                                             / inject_Z (1000 * 60 * 60 * 24))%Q;
                          type := toString wt |}
            | _, _ => Throws "RangeError" "Invalid time value"
            end
            = Window {| start := windowStart tza now n;
                        end_ := windowEnd tza now;
                        days := n + 1;
                        type := toString wt |}).
  { intro wt. rewrite Eend, Estart, window_span, Math_ceil_inclusive.
    reflexivity. }
  unfold getTimeWindow, strictEq.
  destruct windowType as [| | b | z | s]; simpl in Hstd; try discriminate.
  - injection Hstd as <-. cbn [sameValueZero String.eqb Ascii.eqb Bool.eqb].
    apply (Hgo (PStr "90d")).
  - cbn [sameValueZero].
    destruct (s =? "90d")%string.
    + injection Hstd as <-. apply (Hgo (PStr s)).
    + destruct ((s =? "12m") || (s =? "365d"))%bool%string;
        [| discriminate].
      injection Hstd as <-. apply (Hgo (PStr s)).
Qed.

Lemma getTimeWindow_invalid (now : Z) (windowType : prim) :
  standardDays windowType = None ->
  getTimeWindow tza monthStart now windowType
  = Throws "Error" ("Invalid window type: " ++ toString windowType
                    ++ ". Use '90d' or '12m'").
Proof.
  intro Hstd. unfold getTimeWindow, strictEq.
  destruct windowType as [| | b | z | s]; simpl in Hstd; try discriminate;
    try reflexivity.
  cbn [sameValueZero].
  destruct (s =? "90d")%string; [discriminate |].
  destruct ((s =? "12m") || (s =? "365d"))%bool%string; [discriminate |].
  reflexivity.
Qed.

End StandardWindowFacts.

Section StandardWindowClaims.
Import Js TimeWindows StandardWindows.

(** X23.  [getTimeWindow] covers the same instants as [getCustomWindow]
    but counts one day more.  In a time zone with a fixed offset, for
    the types '90d' (also the default), '12m' and '365d', which look
    back [n] = 90, 365 and 365 days, and representable dates: the window
    runs from local midnight [n] calendar days back to the last
    millisecond of today, exactly as the window of [getCustomWindow(n)],
    but its [days] field is [n + 1] (91 and 366) where
    [getCustomWindow(n)] reports [n].  Every other type is refused with
    an [Error] that names it. *)
Theorem getTimeWindow_counts_one_more_day (tza : Z) (monthStart : Z -> Z)
    (now : Z) (windowType : prim) :
  (forall n, standardDays windowType = Some n -> representable tza now n ->
     getTimeWindow tza monthStart now windowType
     = Window {| start := windowStart tza now n;
                 end_ := windowEnd tza now;
                 days := n + 1;
                 type := reportedWindowType windowType |}
     /\ getCustomWindow tza monthStart now (IntegerDays n)
        = Window {| start := windowStart tza now n;
                    end_ := windowEnd tza now;
                    days := n;
                    type := "custom" |}
     /\ (n = 90 \/ n = 365))
  /\ (standardDays windowType = None ->
      getTimeWindow tza monthStart now windowType
      = Throws "Error" ("Invalid window type: " ++ toString windowType
                        ++ ". Use '90d' or '12m'")).
Proof.
  split; [| apply getTimeWindow_invalid].
  intros n Hstd Hrep.
  assert (Hn : n = 90 \/ n = 365).
  { destruct windowType as [| | b | z | s]; simpl in Hstd; try discriminate.
    - injection Hstd as <-. now left.
    - destruct (s =? "90d")%string; [injection Hstd as <-; now left |].
      destruct ((s =? "12m") || (s =? "365d"))%bool%string;
        [injection Hstd as <-; now right | discriminate]. }
  split; [now apply getTimeWindow_value |].
  split; [apply getCustomWindow_value; [lia | exact Hrep] | exact Hn].
Qed.

Lemma getTimeWindow_counts_one_more_day_witness :
  getTimeWindow newYorkOffset gregorianMonthStart sampleNow (PStr "90d")
  = Window {| start := windowStart newYorkOffset sampleNow 90;
              end_ := windowEnd newYorkOffset sampleNow;
              days := 91;
              type := "90d" |}
  /\ getCustomWindow newYorkOffset gregorianMonthStart sampleNow (IntegerDays 90)
     = Window {| start := windowStart newYorkOffset sampleNow 90;
                 end_ := windowEnd newYorkOffset sampleNow;
                 days := 90;
                 type := "custom" |}
  /\ (90 = 90 \/ 90 = 365).
Proof.
  apply (proj1 (getTimeWindow_counts_one_more_day newYorkOffset
                  gregorianMonthStart sampleNow (PStr "90d")) 90).
  - reflexivity.
  - split; vm_compute; discriminate.
Defined.

End StandardWindowClaims.

(** ** The parameters of the trend tool, after validation *)

Section TrendParameters.
Import Js Json JsStrings StandardEnvelope InputValidation AnalyzeTrends
  TimeWindows StandardWindows.

Lemma wellFormed_error (r : result) (t : string) :
  wellFormed r t -> valid r = false -> error r <> None.
Proof.
  intros [_ Hw] Hv. destruct (Hw Hv) as (e & m & -> & _). discriminate.
Qed.





End TrendParameters.

Section TrendParametersWitness.
Import Js Json JsStrings StandardEnvelope InputValidation AnalyzeTrends
  TimeWindows StandardWindows.


End TrendParametersWitness.

(** ** Grouping in the trend tool *)

Section TrendGrouping.
Import Js Json JsStrings InputValidation StandardWindows AnalyzeTrends.

Lemma validateEnum_normalized (value : prim) (validValues : list string)
    (paramName : option string) (required : bool) (v : string) :
  normalized (validateEnum value validValues paramName required) = Some (str v) ->
  In v validValues /\ toLowerCase v = toLowerCase (toString value).
Proof.
  unfold validateEnum.
  destruct (nullish value || sameValueZero value (PStr EmptyString))%bool.
  - destruct required; discriminate.
  - destruct (includes_str (map toLowerCase validValues)
                (toLowerCase (toString value))) eqn:Einc;
      simpl negb; cbv iota; [| discriminate].
    apply includes_str_In in Einc.
    destruct (indexOf_map_first validValues _ Einc) as (i & v0 & Ev & Hv & Ei & _).
    rewrite Ei, (at_index_nth _ _ _ Ev). cbn [normalized].
    intros [= <-]. split; [now apply nth_error_In with i | exact Hv].
Qed.

(** X25.  The trend tool validates [group_by] without regard to letter
    case but dispatches on the raw value: among the accepted values,
    the monthly truncation is used exactly for the two spellings "week"
    and "month" themselves (both of them: grouping by week is grouping
    by month), and every other accepted spelling, "MONTH" or "Week" for
    instance, is grouped by day although it is normalized to "month" or
    "week". *)
Theorem analyzeTrends_grouping_ignores_normalization (group_by : prim)
    (v : string) :
  normalized (validateEnum group_by ["day"; "week"; "month"]
                (Some "group_by") false) = Some (str v) ->
  (dateGroupExpr group_by = "date_trunc_ym(created_date)"
   <-> (v = "week" \/ v = "month") /\ group_by = PStr v)
  /\ (dateGroupExpr group_by = "date_trunc_ymd(created_date)"
      <-> v = "day" \/ group_by <> PStr v)
  /\ dateGroupExpr (PStr "week") = dateGroupExpr (PStr "month").
Proof.
  intro Hn. apply validateEnum_normalized in Hn. destruct Hn as [Hin Hv].
  assert (Hexact : forall s, group_by = PStr s -> toLowerCase s = s -> In s ["day"; "week"; "month"] -> v = s).
  { intros s -> Hs Hins. simpl in Hv. rewrite Hs in Hv.
    simpl in Hin, Hins.
    destruct Hin as [<- | [<- | [<- | []]]];
      destruct Hins as [<- | [<- | [<- | []]]];
      simpl in Hv; congruence. }
  unfold dateGroupExpr, strictEq.
  destruct (sameValueZero group_by (PStr "week")) eqn:Ew.
  - apply sameValueZero_eq in Ew.
    pose proof (Hexact "week" Ew eq_refl ltac:(simpl; tauto)) as ->.
    repeat split; auto; try discriminate.
    intros [E | E]; [discriminate | contradiction].
  - destruct (sameValueZero group_by (PStr "month")) eqn:Em.
    + apply sameValueZero_eq in Em.
      pose proof (Hexact "month" Em eq_refl ltac:(simpl; tauto)) as ->.
      repeat split; auto; try discriminate.
      intros [E | E]; [discriminate | contradiction].
    + assert (Hw : group_by <> PStr "week")
        by (intro E; apply sameValueZero_eq in E; congruence).
      assert (Hm : group_by <> PStr "month")
        by (intro E; apply sameValueZero_eq in E; congruence).
      split; [| split; [| reflexivity]].
      * split; [discriminate |]. intros [[-> | ->] E]; contradiction.
      * split; [| reflexivity]. intros _.
        simpl in Hin. destruct Hin as [<- | [<- | [<- | []]]]; auto.
Qed.

End TrendGrouping.

Section TrendGroupingWitness.
Import Js Json JsStrings InputValidation StandardWindows AnalyzeTrends.

Lemma analyzeTrends_grouping_ignores_normalization_witness :
  normalized (validateEnum (PStr "MONTH") ["day"; "week"; "month"]
                (Some "group_by") false) = Some (str "month")
  /\ dateGroupExpr (PStr "MONTH") = "date_trunc_ymd(created_date)".
Proof.
  split; [reflexivity |].
  apply (proj1 (proj2 (analyzeTrends_grouping_ignores_normalization
                         (PStr "MONTH") "month" eq_refl))).
  right. discriminate.
Defined.

End TrendGroupingWitness.

(** ** The query of the street-closure tool *)

Section ClosureQueryFacts.
Import Js Json JsStrings StandardEnvelope InputValidation StandardWindows
  ClosureQuery.

Lemma map_get_value_In {V : Type} (m : smap V) (k : string) (v : V) :
  map_get m k = Some v -> In v (map_values m).
Proof.
  intro E. apply map_get_In in E. unfold map_values.
  change v with (snd (k, v)). now apply in_map.
Qed.

(** What [validateBorough] normalizes to: one of the five names or one
    of the five numeric codes. *)
Lemma validateBorough_normalized (borough : prim) (n : string) :
  Validation.normalized (Validation.validateBorough borough) = Some n ->
  In n Validation.VALID_BOROUGHS_names \/ In n Validation.VALID_BOROUGHS_codes.
Proof.
  unfold Validation.validateBorough.
  destruct (truthy borough); simpl negb; cbv iota; [| discriminate].
  destruct (includes_str Validation.VALID_BOROUGHS_codes _) eqn:Ec.
  - intros [= <-]. right. now apply includes_str_In.
  - destruct (includes_str Validation.VALID_BOROUGHS_names _) eqn:En.
    + intros [= <-]. left. now apply includes_str_In.
    + destruct (map_get Validation.VALID_BOROUGHS_mapping _) as [name |] eqn:Em;
        [| discriminate].
      intros [= <-]. left. apply map_get_value_In in Em. simpl in Em.
      simpl. tauto.
Qed.

(** What [validateLimit] accepts. *)
Lemma validateLimit_valid (limit : prim) (options : rangeOptions) :
  valid (validateLimit limit options) = true ->
  (nullish limit = true
   /\ normalized (validateLimit limit options)
      = Some (num (orElse (defaultValue options) 100)))
  \/ (exists n, limit = PNum n
        /\ orElse (min options) 1 <= n <= orElse (max options) 1000
        /\ normalized (validateLimit limit options) = Some (num n)).
Proof.
  unfold validateLimit. destruct (nullish limit) eqn:En.
  - intros _. left. split; reflexivity.
  - destruct limit as [| | b | n | s]; simpl; try discriminate.
    destruct (Z.ltb_spec n (orElse (min options) 1));
      [simpl; discriminate |].
    destruct (Z.gtb_spec n (orElse (max options) 1000));
      [simpl; discriminate |].
    intros _. right. exists n. split; [reflexivity |].
    split; [lia | reflexivity].
Qed.

(** The three results that [searchStreetClosures] hands to
    [batchValidate]. *)
Lemma closure_validation_entries (borough work_type limit : prim) :
  let entries :=
    [("borough", ofValidation (Validation.validateBorough borough));
     ("work_type",
      validateAndEscapeString work_type
        {| maxLength := Some 100; pattern := None; string_required := false;
           paramName := Some "work_type" |});
     ("limit",
      validateLimit (defaultTo limit (PNum 1000))
        {| min := Some 1; max := Some 5000; required := false;
           defaultValue := Some 1000 |})] in
  validation borough work_type limit = batchValidate entries
  /\ (forall k r, In (k, r) entries -> valid r = false -> error r <> None)
  /\ NoDup (map fst entries).
Proof.
  intro entries. split; [reflexivity |]. split.
  - intros k r [E | [E | [E | []]]]; injection E as <- <-.
    + apply (wellFormed_error _ _ (validateBorough_wellFormed _)).
    + apply (wellFormed_error _ _ (validateAndEscapeString_wellFormed _ _)).
    + apply (wellFormed_error _ _ (validateLimit_wellFormed _ _)).
  - repeat constructor; simpl; intuition discriminate.
Qed.

(** X26.  The closure search never asks the API for more than 5000 rows
    or fewer than 1: whenever its parameters pass validation, the
    [$limit] of the query is an integer between 1 and 5000; it is the
    given limit, or 1000 when the limit is [undefined] or [null]. *)
Theorem searchStreetClosures_limit_bounded (borough work_type limit : prim)
    (r : result) :
  validation borough work_type limit = Some r -> valid r = true ->
  exists o n,
    normalized r = Some (VObj o)
    /\ queryLimit o = num n
    /\ 1 <= n <= 5000
    /\ (nullish limit = true -> n = 1000)
    /\ (forall m, limit = PNum m -> n = m).
Proof.
  intros Hval Hvalid.
  destruct (closure_validation_entries borough work_type limit)
    as (Eentries & Herr & Hnd).
  cbv zeta in *.
  rewrite Eentries in Hval.
  destruct (batchValidate_valid _ r Herr Hnd Hval Hvalid)
    as (Hall & o & Eo & Hprops).
  pose proof (Hall "limit" _ (or_intror (or_intror (or_introl eq_refl))))
    as Hlimit.
  pose proof (Hprops "limit" _ (or_intror (or_intror (or_introl eq_refl))))
    as Hprop.
  unfold queryLimit. exists o.
  destruct (validateLimit_valid _ _ Hlimit) as [[Hnull Hn] | (n & En & Hrange & Hn)].
  - exists 1000. unfold carried in Hprop. rewrite Hn in Hprop.
    split; [exact Eo |]. split; [exact Hprop |]. split; [lia |].
    split; [reflexivity |].
    intros m ->. simpl in Hnull. discriminate.
  - exists n. unfold carried in Hprop. rewrite Hn in Hprop.
    split; [exact Eo |]. split; [exact Hprop |].
    unfold orElse in Hrange. cbn in Hrange. split; [exact Hrange |].
    split.
    + intro Hnull. destruct limit as [| | b0 | z | s]; simpl in Hnull, En;
        try discriminate. now injection En as <-.
    + intros m ->. simpl in En. now injection En as <-.
Qed.

(** X27.  The borough filter of the closure search.  A borough that
    [validateBorough] normalizes to a name is put in the query as one of
    the letter codes M, X, B, Q, S of the closures data, and
    [mapBoroughCode] maps that code back to the same name.  A borough
    given as a numeric code 1 to 5 is normalized to the digit and put in
    the query as that digit, which is none of the letter codes. *)
Theorem searchStreetClosures_borough_code (borough : prim) (n : string) :
  Validation.normalized (Validation.validateBorough borough) = Some n ->
  (In n Validation.VALID_BOROUGHS_names
   /\ In (boroughCode (PStr n)) (map PStr ["M"; "X"; "B"; "Q"; "S"])
   /\ Closures.mapBoroughCode (boroughCode (PStr n)) = PStr n)
  \/ (In n Validation.VALID_BOROUGHS_codes
      /\ boroughCode (PStr n) = PStr n
      /\ ~ In (boroughCode (PStr n)) (map PStr ["M"; "X"; "B"; "Q"; "S"])).
Proof.
  intro Hn. destruct (validateBorough_normalized borough n Hn) as [Hin | Hin].
  - left. split; [exact Hin |]. simpl in Hin.
    destruct Hin as [<- | [<- | [<- | [<- | [<- | []]]]]];
      (split; [simpl; tauto | reflexivity]).
  - right. split; [exact Hin |]. simpl in Hin.
    destruct Hin as [<- | [<- | [<- | [<- | [<- | []]]]]];
      (split; [reflexivity |]); simpl; intuition discriminate.
Qed.

End ClosureQueryFacts.

Section ClosureQueryWitness.
Import Js Json JsStrings StandardEnvelope InputValidation StandardWindows
  ClosureQuery.

Lemma searchStreetClosures_limit_bounded_witness :
  exists o n,
    validation (PStr "bronx") (PStr "Paving") PUndefined
       = Some {| valid := true; normalized := Some (VObj o); escaped := None;
                 parsed := None; error := None |}
    /\ queryLimit o = num n /\ 1 <= n <= 5000.
Proof.
  destruct (searchStreetClosures_limit_bounded (PStr "bronx") (PStr "Paving")
              PUndefined _ eq_refl eq_refl)
    as (o & n & Eo & El & Hn & _).
  exists o, n. injection Eo as <-.
  split; [reflexivity |]. split; assumption.
Defined.

Lemma searchStreetClosures_borough_code_witness :
  boroughCode (PStr "1") = PStr "1"
  /\ boroughCode (PStr "BRONX") = PStr "X".
Proof.
  destruct (searchStreetClosures_borough_code (PNum 1) "1" eq_refl)
    as [(Hin & _) | (_ & Hcode & _)].
  - exfalso. simpl in Hin. intuition discriminate.
  - split; [exact Hcode | reflexivity].
Defined.

End ClosureQueryWitness.

(** ** Activity of a closure *)

Section ActivityFacts.
Import Js Closures.

Lemma ceilDiv_nonneg (a b : Z) : 0 < b -> 0 <= a -> 0 <= ceilDiv a b.
Proof.
  intros Hb Ha. unfold ceilDiv.
  assert (- a / b <= 0); [| lia].
  apply Z.div_le_upper_bound; lia.
Qed.

Lemma ceilDiv_monotone (a a' b : Z) :
  0 < b -> a <= a' -> ceilDiv a b <= ceilDiv a' b.
Proof.
  intros Hb Ha. unfold ceilDiv.
  assert (- a' / b <= - a / b); [| lia].
  apply Z.div_le_mono; lia.
Qed.

(** [Math.ceil(a / b)] is the least integer not below the quotient. *)
Lemma ceilDiv_spec (a b : Z) :
  0 < b -> (ceilDiv a b - 1) * b < a <= ceilDiv a b * b.
Proof.
  intro Hb. unfold ceilDiv.
  pose proof (Z.div_mod (- a) b ltac:(lia)) as E.
  pose proof (Z.mod_pos_bound (- a) b Hb) as Hr.
  nia.
Qed.

(** X28.  The activity fields of a closure.  A closure is active exactly
    when both its dates are valid and today lies between them (bounds
    included).  An inactive closure has 0 days remaining.  An active one
    has a number of days remaining that is not negative, does not exceed
    its duration in days, and is the least number of whole days that
    reaches its end date from today. *)
Theorem closure_activity_bounds (Date_parse : prim -> option Z) (today : Z)
    (c : closure) :
  let v := activity Date_parse today c in
  (is_active v = true <->
     exists s e, Date_parse (work_start_date c) = Some s
       /\ Date_parse (work_end_date c) = Some e /\ s <= today <= e)
  /\ (is_active v = false -> days_remaining v = 0)
  /\ (is_active v = true ->
      exists e d,
        Date_parse (work_end_date c) = Some e
        /\ duration_days v = Some d
        /\ 0 <= days_remaining v <= d
        /\ (days_remaining v - 1) * MS_PER_DAY < e - today
           <= days_remaining v * MS_PER_DAY)
  /\ base v = c.
Proof.
  intro v. subst v. unfold activity. cbn [is_active days_remaining duration_days base].
  assert (Hday : 0 < MS_PER_DAY) by (unfold MS_PER_DAY; lia).
  destruct (Date_parse (work_start_date c)) as [s |];
    [| repeat split; try discriminate; try reflexivity;
       intros (s & e & E & _); discriminate].
  destruct (Date_parse (work_end_date c)) as [e |];
    [| repeat split; try discriminate; try reflexivity;
       intros (s' & e & _ & E & _); discriminate].
  destruct (Z.leb_spec s today) as [Hs | Hs];
    destruct (Z.leb_spec today e) as [He | He]; cbn [andb].
  - split; [| split; [discriminate | split; [| reflexivity]]].
    + split; [intros _; exists s, e; repeat split; auto | reflexivity].
    + intros _. exists e, (ceilDiv (e - s) MS_PER_DAY).
      split; [reflexivity |]. split; [reflexivity |]. split.
      * split; [apply ceilDiv_nonneg; lia | apply ceilDiv_monotone; lia].
      * apply ceilDiv_spec; exact Hday.
  - split; [| split; [reflexivity | split; [discriminate | reflexivity]]].
    split; [discriminate |]. intros (s' & e' & [= <-] & [= <-] & H1 & H2). lia.
  - split; [| split; [reflexivity | split; [discriminate | reflexivity]]].
    split; [discriminate |]. intros (s' & e' & [= <-] & [= <-] & H1 & H2). lia.
  - split; [| split; [reflexivity | split; [discriminate | reflexivity]]].
    split; [discriminate |]. intros (s' & e' & [= <-] & [= <-] & H1 & H2). lia.
Qed.

End ActivityFacts.

(** ** Forced refresh ([withCache] with [skipCache]) *)

Section CacheRefresh.
Import Js Reliability.

Context {H : Type} (ops : hostOps H) {V : Type} (truthyV : V -> bool).

Local Abbreviation world := (@world H V).

(** X29.  [skipCache] forces a refresh without giving up the cache.  A
    call with [skipCache: true] invokes the producer whatever the cache
    holds, does not look the key up (so it evicts nothing and does not
    read the clock before the producer runs), and when the producer
    returns it stores the new result under the key, in place of any
    entry that was there.  A later call without [skipCache], made while
    the new entry is within its TTL, is served that result (when it is
    truthy) without invoking its producer. *)
Theorem withCache_skipCache_refreshes (endpoint : string) (params : obj)
    (f g : world -> outcome V * world) (t : option Z) (w w2 : world) (d : V) :
  let key := getCacheKey ops endpoint params in
  let ttl_ := orDefault t CACHE_DEFAULT_TTL in
  let forced := {| opt_ttl := t; opt_skipCache := Some true |} in
  let w3 := setCache ops key d (Some ttl_) w2 in
  f w = (Return d, w2) ->
  withCache ops truthyV endpoint params f forced w
  = (Return {| data := d; cached := false; cacheKey := key |}, w3, [EvInvoke])
  /\ map_get (queryCache w3) key
     = Some {| entry_data := d;
               timestamp := fst (Date_now ops (host w2));
               ttl := ttl_ |}
  /\ (forall later options,
        queryCache later = queryCache w3 ->
        orDefault (opt_skipCache options) false = false ->
        fst (Date_now ops (host later)) - fst (Date_now ops (host w2)) <= ttl_ ->
        truthyV d = true ->
        withCache ops truthyV endpoint params g options later
        = (Return {| data := d; cached := true; cacheKey := key |},
           with_host later (snd (Date_now ops (host later))), [])).
Proof.
  intros key ttl_ forced w3 Hf.
  assert (Hget : map_get (queryCache w3) key
                 = Some {| entry_data := d;
                           timestamp := fst (Date_now ops (host w2));
                           ttl := ttl_ |})
    by (subst w3; now rewrite setCache_get).
  split; [| split; [exact Hget |]].
  - rewrite withCache_miss; [| exact I].
    cbn [forced opt_skipCache opt_ttl orDefault]. rewrite Hf. reflexivity.
  - intros later options Hcache Hskip Hage Ht.
    destruct (Date_now ops (host later)) as [now h] eqn:En.
    apply (withCache_hit ops truthyV endpoint params g options later
             {| entry_data := d;
                timestamp := fst (Date_now ops (host w2));
                ttl := ttl_ |} now h); try assumption.
    now rewrite Hcache.
Qed.

End CacheRefresh.

Section CacheRefreshWitness.
Import Js Reliability.

Lemma withCache_skipCache_refreshes_witness :
  withCache sampleHost truthy "closures" sampleParams rowsProducer
    {| opt_ttl := None; opt_skipCache := Some true |} staleWorld
  = (Return {| data := PStr "rows"; cached := false; cacheKey := sampleKey |},
     setCache sampleHost sampleKey (PStr "rows") (Some CACHE_DEFAULT_TTL)
       staleWorld,
     [EvInvoke]).
Proof.
  exact (proj1 (withCache_skipCache_refreshes sampleHost truthy "closures"
                  sampleParams rowsProducer rowsProducer None staleWorld
                  staleWorld (PStr "rows") eq_refl)).
Defined.

End CacheRefreshWitness.

(** ** The timeline of the trend tool *)

Section TimelineFacts.
Import Js Timeline.

Lemma map_set_set {V : Type} (m : smap V) (k : string) (a b : V) :
  map_set (map_set m k a) k b = map_set m k b.
Proof.
  induction m as [| [k0 v0] m IH]; simpl.
  - now rewrite String.eqb_refl.
  - destruct (String.eqb_spec k0 k) as [-> | Hne]; simpl.
    + now rewrite String.eqb_refl.
    + destruct (String.eqb_spec k0 k); [contradiction |]. now rewrite IH.
Qed.

(** One step, as a single update of the map. *)
Lemma periodStep_set (m : smap periodData) (r : row) :
  periodStep m r
  = map_set m (row_period r)
      match map_get m (row_period r) with
      | Some pd =>
          {| period := period pd;
             count := count pd + row_count r;
             types := map_set (types pd) (row_type r)
                        (orZero (map_get (types pd) (row_type r)) + row_count r) |}
      | None =>
          {| period := row_period r;
             count := 0 + row_count r;
             types := map_set [] (row_type r) (0 + row_count r) |}
      end.
Proof.
  unfold periodStep, map_has.
  destruct (map_get m (row_period r)) as [pd |] eqn:E; simpl negb; cbv iota.
  - rewrite E. reflexivity.
  - rewrite map_get_set_same, map_set_set. reflexivity.
Qed.

Lemma heldTotal_set (m : smap periodData) (k : string) (v : periodData) :
  heldTotal (map_set m k v)
  = heldTotal m - match map_get m k with Some pd => count pd | None => 0 end
    + count v.
Proof.
  induction m as [| [k0 v0] m IH]; simpl; [lia |].
  destruct (String.eqb_spec k0 k) as [-> | Hne]; simpl; [lia |].
  rewrite IH. lia.
Qed.

Lemma rowTotal_app (l1 l2 : list row) :
  rowTotal (l1 ++ l2) = rowTotal l1 + rowTotal l2.
Proof. induction l1 as [| r l1 IH]; simpl; [reflexivity | rewrite IH; lia]. Qed.

Lemma periodTotal_snoc (p : string) (rows : list row) (r : row) :
  periodTotal p (rows ++ [r])
  = periodTotal p rows + (if (row_period r =? p)%string then row_count r else 0).
Proof.
  unfold periodTotal. rewrite filter_app, rowTotal_app. simpl.
  destruct (row_period r =? p)%string; simpl; lia.
Qed.

Lemma periodTotal_absent (p : string) (rows : list row) :
  (forall r, In r rows -> row_period r <> p) -> periodTotal p rows = 0.
Proof.
  unfold periodTotal. induction rows as [| r rows IH]; intro Hne; [reflexivity |].
  simpl. destruct (String.eqb_spec (row_period r) p) as [E | _].
  - exfalso. apply (Hne r); [now left | exact E].
  - apply IH. intros r0 Hin. apply Hne. now right.
Qed.

(** The invariant of the loop over the rows. *)
Lemma buildPeriodMap_invariant (rows : list row) :
  let m := buildPeriodMap rows in
  NoDup (map_keys m)
  /\ (forall k pd, map_get m k = Some pd ->
        period pd = k /\ count pd = periodTotal k rows
        /\ exists r, In r rows /\ row_period r = k)
  /\ (forall r, In r rows -> map_get m (row_period r) <> None)
  /\ heldTotal m = rowTotal rows.
Proof.
  unfold buildPeriodMap.
  induction rows as [| r rows IH] using rev_ind.
  - simpl. repeat split; try constructor; try discriminate. intros r [].
  - destruct IH as (Hnd & Hget & Hhas & Htot).
    rewrite fold_left_app. cbn [fold_left].
    set (m := fold_left periodStep rows []) in *.
    rewrite periodStep_set.
    split; [now apply map_keys_set_NoDup |]. split; [| split].
    + intros k pd. rewrite map_get_set, periodTotal_snoc.
      destruct (String.eqb_spec (row_period r) k) as [<- | Hne].
      * intros [= <-].
        destruct (map_get m (row_period r)) as [pd0 |] eqn:E.
        -- destruct (Hget _ _ E) as (Hp & Hc & _). cbn [period count].
           split; [exact Hp |]. split; [lia |].
           exists r. split; [apply in_or_app; right; now left | reflexivity].
        -- cbn [period count]. split; [reflexivity |]. split.
           ++ rewrite periodTotal_absent; [lia |].
              intros r0 Hin Er. apply (Hhas r0 Hin). now rewrite Er.
           ++ exists r. split; [apply in_or_app; right; now left | reflexivity].
      * intro E. destruct (Hget _ _ E) as (Hp & Hc & r0 & Hin & Hr0).
        split; [exact Hp |]. split; [lia |].
        exists r0. split; [apply in_or_app; now left | exact Hr0].
    + intros r0 Hin. rewrite map_get_set.
      destruct (String.eqb_spec (row_period r) (row_period r0)); [discriminate |].
      apply in_app_or in Hin. destruct Hin as [Hin | [<- | []]];
        [now apply Hhas | contradiction].
    + rewrite heldTotal_set, rowTotal_app, Htot. simpl.
      destruct (map_get m (row_period r)) as [pd0 |]; cbn [count]; lia.
Qed.

End TimelineFacts.

Section TimelineClaims.
Import Js Timeline.

Variable sortByCount : list (string * Z) -> list (string * Z).

Lemma totalComplaints_sum (l : list periodData) :
  totalComplaints (timelineOf sortByCount l)
  = fold_right (fun p acc => count p + acc) 0 l.
Proof.
  unfold totalComplaints, timelineOf.
  assert (Hgen : forall acc,
            fold_left (fun sum p => sum + entry_count p)
              (map (timelineEntryOf sortByCount) l) acc
            = acc + fold_right (fun p a => count p + a) 0 l).
  { induction l as [| p l IH]; intro acc; simpl; [lia |].
    rewrite IH. lia. }
  rewrite Hgen. lia.
Qed.

Lemma count_sum_Permutation (l l' : list periodData) :
  Permutation l l' ->
  fold_right (fun p acc => count p + acc) 0 l
  = fold_right (fun p acc => count p + acc) 0 l'.
Proof.
  induction 1; simpl; lia.
Qed.

Lemma heldTotal_values (m : smap periodData) :
  heldTotal m = fold_right (fun p acc => count p + acc) 0 (map_values m).
Proof.
  unfold heldTotal, map_values.
  induction m as [| [k v] m IH]; simpl; [reflexivity | now rewrite IH].
Qed.

Lemma buildPeriodMap_length (rows : list row) (m0 : smap periodData) :
  (List.length (fold_left periodStep rows m0)
   <= List.length m0 + List.length rows)%nat.
Proof.
  revert m0. induction rows as [| r rows IH]; intro m0;
    cbn [fold_left List.length]; [lia |].
  specialize (IH (periodStep m0 r)).
  assert (Hstep : (List.length (periodStep m0 r) <= S (List.length m0))%nat)
    by (rewrite periodStep_set; apply map_set_length_le).
  lia.
Qed.

Lemma In_values_get {V : Type} (m : smap V) (v : V) :
  NoDup (map_keys m) -> In v (map_values m) ->
  exists k, map_get m k = Some v.
Proof.
  intros Hnd Hin. unfold map_values in Hin. apply in_map_iff in Hin.
  destruct Hin as ([k v'] & <- & Hin). exists k. now apply In_map_get.
Qed.

Lemma slice_front_length {A : Type} (l : list A) (n : Z) :
  0 <= n -> (List.length (slice l 0 (Some n)) <= Z.to_nat n)%nat.
Proof.
  intro Hn. unfold slice, clampIndex. change (0 <? 0) with false. cbv iota.
  rewrite length_firstn.
  destruct (Z.ltb_spec n 0); lia.
Qed.

(** X30.  The timeline of the trend tool accounts for every row once.
    However the sort arranges the periods: the timeline has one entry
    per distinct period of the response; the [count] of an entry is the
    sum of the counts of the rows of its period; the total reported in
    the envelope is the sum of the counts of all rows; and no entry lists
    more than five types. *)
Theorem analyzeTrends_timeline_accounts_for_rows (rows : list row)
    (sorted : list periodData) :
  Permutation (map_values (buildPeriodMap rows)) sorted ->
  let timeline := timelineOf sortByCount sorted in
  totalComplaints timeline = rowTotal rows
  /\ NoDup (map entry_period timeline)
  /\ (forall e, In e timeline ->
        entry_count e = periodTotal (entry_period e) rows
        /\ (exists r, In r rows /\ row_period r = entry_period e)
        /\ (List.length (top_types e) <= 5)%nat)
  /\ (forall r, In r rows ->
        exists e, In e timeline /\ entry_period e = row_period r)
  /\ (List.length timeline <= List.length rows)%nat.
Proof.
  intros Hperm timeline.
  destruct (buildPeriodMap_invariant rows) as (Hnd & Hget & Hhas & Htot).
  cbv zeta in *. set (m := buildPeriodMap rows) in *.
  assert (Hvalue : forall pd, In pd sorted ->
            exists k, map_get m k = Some pd).
  { intros pd Hin. apply In_values_get; [exact Hnd |].
    apply Permutation_sym in Hperm. now apply (Permutation_in _ Hperm). }
  assert (Hperiods : map period (map_values m) = map_keys m).
  { unfold map_values, map_keys. rewrite map_map.
    apply map_ext_in. intros [k pd] Hin. simpl.
    apply (In_map_get _ _ _ Hnd) in Hin. now destruct (Hget _ _ Hin). }
  subst timeline. split; [| split; [| split; [| split]]].
  - rewrite totalComplaints_sum, <- (count_sum_Permutation _ _ Hperm),
      <- heldTotal_values. exact Htot.
  - unfold timelineOf. rewrite map_map. cbn [entry_period timelineEntryOf].
    apply (Permutation_NoDup (l := map period (map_values m))).
    + now apply Permutation_map.
    + now rewrite Hperiods.
  - intros e Hin. unfold timelineOf in Hin. apply in_map_iff in Hin.
    destruct Hin as (pd & <- & Hin). cbn [entry_period entry_count top_types timelineEntryOf].
    destruct (Hvalue pd Hin) as (k & Ek).
    destruct (Hget _ _ Ek) as (Hp & Hc & Hr). rewrite Hp.
    split; [exact Hc |]. split; [exact Hr |].
    apply (slice_front_length _ 5). lia.
  - intros r Hin. specialize (Hhas r Hin).
    destruct (map_get m (row_period r)) as [pd |] eqn:E; [| contradiction].
    exists (timelineEntryOf sortByCount pd). split.
    + unfold timelineOf. apply in_map.
      apply (Permutation_in _ Hperm). unfold map_values.
      change pd with (snd (row_period r, pd)). apply in_map.
      now apply map_get_In.
    + cbn [entry_period timelineEntryOf]. now destruct (Hget _ _ E).
  - unfold timelineOf. rewrite length_map.
    rewrite <- (Permutation_length Hperm). unfold map_values.
    rewrite length_map. apply (buildPeriodMap_length rows []).
Qed.

End TimelineClaims.

Section TimelineWitness.
Import Js Timeline.

Lemma analyzeTrends_timeline_accounts_for_rows_witness :
  let timeline :=
    timelineOf (fun l => l) (map_values (buildPeriodMap sampleRows)) in
  totalComplaints timeline = 7
  /\ map entry_count timeline = [6; 1].
Proof.
  intros timeline.
  destruct (analyzeTrends_timeline_accounts_for_rows (fun l => l) sampleRows
              (map_values (buildPeriodMap sampleRows)) (Permutation_refl _))
    as (Htotal & _).
  split; [exact Htotal | reflexivity].
Defined.

End TimelineWitness.
